(** * obsync: the reconciliation run of the Cloud Sync plugin (src/main.ts)

    A shallow embedding of [CloudSyncPlugin.syncNow] and of the collaborators
    it talks to (the Obsidian vault and the Google Drive folder), followed by
    the properties of the run.

    Layout:
    - [Js]      : the JavaScript string and number primitives the run uses;
    - [OMap]    : insertion-ordered maps ([Map], string-keyed objects);
    - [Auth]    : the three functions that obtain, refresh and hand out
                  the OAuth token;
    - the data model, the two stores and the host of a run;
    - [Model]   : vault calls, the token call, the Drive calls, the four
                  passes and [syncNow], over an abstract [Host]: the
                  platform ([Date.parse], [Date.prototype.toISOString],
                  the md5 digest of Drive), the calls that fail and the
                  answers of the token endpoint;
    - [Iso]     : a concrete platform for the RFC 3339 UTC timestamps that
                  Drive emits, and [Worked]: concrete worlds;
    - the properties of the classifications, the steps and the passes;
    - worked runs on the concrete platform. *)

From Stdlib Require Import ZArith List String Ascii Bool Lia DecimalString.
Import ListNotations.
Local Open Scope string_scope.

(* ------------------------------------------------------------------ *)
(** ** JavaScript primitives *)

Module Js.

(** A JavaScript number as the run meets it: an integral count of
    milliseconds, or the [NaN] that [Date.parse] returns on a string it
    cannot read.  Every comparison with [NaN] is false. *)
Inductive number : Type :=
| NaN : number
| Num : Z -> number.

Definition gt (a b : number) : bool :=
  match a, b with
  | Num x, Num y => Z.ltb y x
  | _, _ => false
  end.

Definition lt (a b : number) : bool := gt b a.

(** [!s] is false exactly for a present, non-empty string. *)
Definition truthy (s : option string) : bool :=
  match s with
  | Some EmptyString => false
  | Some _ => true
  | None => false
  end.

(** [!n] for an optional integral number: absent and [0] are falsy. *)
Definition truthyZ (n : option Z) : bool :=
  match n with
  | Some z => negb (Z.eqb z 0)
  | None => false
  end.

Fixpoint startsWith (pre s : string) : bool :=
  match pre, s with
  | EmptyString, _ => true
  | String a pre', String b s' => Ascii.eqb a b && startsWith pre' s'
  | String _ _, EmptyString => false
  end.

Fixpoint drop (n : nat) (s : string) : string :=
  match n, s with
  | O, _ => s
  | S n', String _ s' => drop n' s'
  | S _, EmptyString => EmptyString
  end.

Fixpoint take (n : nat) (s : string) : string :=
  match n, s with
  | O, _ => EmptyString
  | S n', String a s' => String a (take n' s')
  | S _, EmptyString => EmptyString
  end.

Definition endsWith (suf s : string) : bool :=
  Nat.leb (String.length suf) (String.length s)
  && String.eqb (drop (String.length s - String.length suf) s) suf.

(** [s.lastIndexOf(c)]: the index of the last occurrence, [-1] if none. *)
Fixpoint lastIndexOf (c : ascii) (s : string) : Z :=
  match s with
  | EmptyString => (-1)%Z
  | String a r =>
      let i := lastIndexOf c r in
      if Z.leb 0 i then Z.succ i
      else if Ascii.eqb a c then 0%Z else (-1)%Z
  end.

(** An index argument of [substring]: negative values count as [0],
    values beyond the length as the length. *)
Definition clamp (s : string) (i : Z) : nat :=
  Nat.min (Z.to_nat i) (String.length s).

(** [s.substring(a, b)]: both ends clamped, swapped when [a > b]. *)
Definition substring (s : string) (a b : Z) : string :=
  let x := clamp s a in
  let y := clamp s b in
  take (Nat.max x y - Nat.min x y) (drop (Nat.min x y) s).

(** [s.substring(a)]. *)
Definition substring_from (s : string) (a : Z) : string :=
  drop (clamp s a) s.

(** [s.replace(/[:.]/g, '-')]. *)
Fixpoint replace_colon_dot (s : string) : string :=
  match s with
  | EmptyString => EmptyString
  | String a r =>
      String (if Ascii.eqb a ":" || Ascii.eqb a "." then "-"%char else a)
             (replace_colon_dot r)
  end.

End Js.

(* ------------------------------------------------------------------ *)
(** ** Insertion-ordered maps

    A JavaScript [Map] and the string-keyed object [settings.fileMap] both
    enumerate their keys in insertion order; assigning to a key that is
    present replaces the value where it stands. *)

Module OMap.
Section OrderedMap.
Context {V : Type}.

Fixpoint get (k : string) (m : list (string * V)) : option V :=
  match m with
  | [] => None
  | (k', v) :: r => if String.eqb k k' then Some v else get k r
  end.

Definition has (k : string) (m : list (string * V)) : bool :=
  match get k m with Some _ => true | None => false end.

Fixpoint set (k : string) (v : V) (m : list (string * V)) : list (string * V) :=
  match m with
  | [] => [(k, v)]
  | (k', v') :: r =>
      if String.eqb k k' then (k', v) :: r else (k', v') :: set k v r
  end.

Fixpoint delete (k : string) (m : list (string * V)) : list (string * V) :=
  match m with
  | [] => []
  | (k', v') :: r =>
      if String.eqb k k' then delete k r else (k', v') :: delete k r
  end.

Definition keys (m : list (string * V)) : list string := map fst m.

End OrderedMap.
End OMap.

(* ------------------------------------------------------------------ *)
(** ** The OAuth tokens (lines 585-689)

    The three functions that obtain, refresh and hand out the token, over
    the three token fields of the settings.  [saveData] does not
    reject. *)

Module Auth.

(** JavaScript arithmetic on numbers that may be [NaN]. *)
Definition add (a b : Js.number) : Js.number :=
  match a, b with
  | Js.Num x, Js.Num y => Js.Num (x + y)
  | _, _ => Js.NaN
  end.

Definition sub (a b : Js.number) : Js.number :=
  match a, b with
  | Js.Num x, Js.Num y => Js.Num (x - y)
  | _, _ => Js.NaN
  end.

Definition mul (a b : Js.number) : Js.number :=
  match a, b with
  | Js.Num x, Js.Num y => Js.Num (x * y)
  | _, _ => Js.NaN
  end.

(** [a >= b]: false when either side is [NaN]. *)
Definition ge (a b : Js.number) : bool :=
  match a, b with
  | Js.Num x, Js.Num y => Z.leb y x
  | _, _ => false
  end.

(** [!n] is false exactly for a present number other than [0] and
    [NaN]. *)
Definition truthyNum (n : option Js.number) : bool :=
  match n with
  | Some (Js.Num z) => negb (Z.eqb z 0)
  | _ => false
  end.

(** The token fields of [CloudSyncSettings]. *)
Record Tokens : Type := mkTokens {
  googleDriveAccessToken : option string;
  googleDriveRefreshToken : option string;
  googleDriveTokenExpiry : option Js.number
}.

(** What the token endpoint answers.  [NetworkError]: [fetch] rejects.
    [Rejected readable]: the response is not ok; [readable] is whether its
    body parses as a JSON object.  [Granted]: the response is ok and its
    body is a JSON object, with the three fields the code reads, a missing
    field being [None] (a missing [expires_in] multiplies to [NaN]).
    [Unreadable]: the response is ok and its body does not parse as a JSON
    object. *)
Inductive Reply : Type :=
| NetworkError
| Rejected (readable : bool)
| Granted (access_token refresh_token : option string)
          (expires_in : Js.number)
| Unreadable.

(** The [Notice]s of the three functions. *)
Inductive Shown : Type :=
| Error_exchanging_auth_code                     (* line 606 *)
| Authentication_successful                      (* line 616 *)
| Failed_to_exchange                             (* line 618 *)
| Missing_refresh_token                          (* line 625 *)
| Error_refreshing_token                         (* line 646 *)
| Token_refreshed                                (* line 665 *)
| Failed_to_refresh                              (* line 668 *)
| Not_authenticated                              (* line 676 *)
| Token_expired_refreshing                       (* line 681 *)
| Please_re_authenticate.                        (* line 684 *)

(** The plugin as these functions see it: the token fields, the history
    of [saveSettings] calls (newest first), the number of requests sent to
    the token endpoint, and the notices shown (oldest first). *)
Record State : Type := mkState {
  tokens : Tokens;
  saved : list Tokens;
  requests : nat;
  notices : list Shown
}.

Definition notice (n : Shown) (s : State) : State :=
  mkState (tokens s) (saved s) (requests s) (notices s ++ [n])%list.

Definition request (s : State) : State :=
  mkState (tokens s) (saved s) (S (requests s)) (notices s).

(** The assignments to the token fields followed by [saveSettings]. *)
Definition store (t : Tokens) (s : State) : State :=
  mkState t (t :: saved s) (requests s) (notices s).

(** [exchangeAuthCodeForToken] (lines 585-621); [now] is the [Date.now()]
    of line 614. *)
Definition exchangeAuthCodeForToken (reply : Reply) (now : Z) (s : State)
  : State :=
  let s1 := request s in
  match reply with
  | NetworkError => notice Failed_to_exchange s1
  | Rejected true => notice Error_exchanging_auth_code s1
  | Rejected false => notice Failed_to_exchange s1
  | Unreadable => notice Failed_to_exchange s1
  | Granted access_token refresh_token expires_in =>
      notice Authentication_successful
        (store (mkTokens access_token refresh_token
                         (Some (add (Js.Num now)
                                    (mul expires_in (Js.Num 1000)))))
               s1)
  end.

(** [refreshGoogleDriveAccessToken] (lines 623-672); [now] is the
    [Date.now()] of line 663. *)
Definition refreshGoogleDriveAccessToken (reply : Reply) (now : Z)
    (s : State) : bool * State :=
  if negb (Js.truthy (googleDriveRefreshToken (tokens s)))
  then (false, notice Missing_refresh_token s)
  else
    let s1 := request s in
    match reply with
    | NetworkError => (false, notice Failed_to_refresh s1)
    | Rejected true =>
        (false,
         store (mkTokens None None None)
               (notice Error_refreshing_token s1))
    | Rejected false => (false, notice Failed_to_refresh s1)
    | Unreadable => (false, notice Failed_to_refresh s1)
    | Granted access_token refresh_token expires_in =>
        (true,
         notice Token_refreshed
           (store (mkTokens access_token
                            (if Js.truthy refresh_token then refresh_token
                             else googleDriveRefreshToken (tokens s1))
                            (Some (add (Js.Num now)
                                       (mul expires_in (Js.Num 1000)))))
                  s1))
    end.

(** [getValidGoogleDriveToken] (lines 674-689); [now] is the [Date.now()]
    of line 680, [reply] and [later] are the answer to the refresh request
    and the [Date.now()] of the refresh, should there be one. *)
Definition getValidGoogleDriveToken (now : Z) (reply : Reply) (later : Z)
    (s : State) : option string * State :=
  if negb (Js.truthy (googleDriveAccessToken (tokens s)))
     || negb (truthyNum (googleDriveTokenExpiry (tokens s)))
  then (None, notice Not_authenticated s)
  else
    if ge (Js.Num now)
          (sub (match googleDriveTokenExpiry (tokens s) with
                | Some e => e
                | None => Js.NaN
                end)
               (Js.Num (60 * 1000)))
    then
      let '(success, s1) :=
        refreshGoogleDriveAccessToken reply later
                                      (notice Token_expired_refreshing s) in
      if negb success then (None, notice Please_re_authenticate s1)
      else (googleDriveAccessToken (tokens s1), s1)
    else (googleDriveAccessToken (tokens s), s).

End Auth.

(* ------------------------------------------------------------------ *)
(** ** Data model (src/main.ts, lines 7-39 and 217, 244) *)

(** [interface FileSyncState]: the optional fields are options. *)
Record FileSyncState : Type := mkFileSyncState {
  remoteId : string;
  remoteMtime : option string;
  remoteMd5 : option string;
  localMtimeEpoch : option Z
}.

(** The value type of [localFiles]: [{ path, mtime }]. *)
Record LocalStat : Type := mkLocalStat {
  path : string;
  mtime : Z
}.

(** One element of [files(id, name, mimeType, modifiedTime, md5Checksum)]
    as the Drive listing returns it. *)
Record DriveFile : Type := mkDriveFile {
  id : string;
  name : string;
  mimeType : string;
  modifiedTime : string;
  md5Checksum : option string
}.

Definition FileMap : Type := list (string * FileSyncState).
Definition LocalFiles : Type := list (string * LocalStat).
Definition RemoteFilesMap : Type := list (string * DriveFile).

(** [interface CloudSyncSettings], the fields the run reads or writes;
    [googleDriveTokens] holds the three token fields
    ([googleDriveAccessToken], [googleDriveRefreshToken],
    [googleDriveTokenExpiry]). *)
Record CloudSyncSettings : Type := mkSettings {
  cloudProvider : string;
  googleDriveTokens : Auth.Tokens;
  googleDriveAppFolderId : option string;
  fileMap : option FileMap
}.

(** The [operation] variable of the two classification blocks. *)
Inductive Operation : Type :=
| upload_new
| upload_update
| download_new
| download_update
| skip.

(** The [reason] variable: which branch set it.  The interpolated dates of
    the source's messages are not kept. *)
Inductive Reason : Type :=
| New_local_file
| CONFLICT
| Local_newer_than_remote
| Local_changed_remote_same_or_newer
| Local_unchanged
| New_remote_file
| Remote_newer_than_local
| Local_newer_than_this_remote
| Times_match
| Remote_unchanged_or_older.

Definition Operation_eqb (a b : Operation) : bool :=
  match a, b with
  | upload_new, upload_new
  | upload_update, upload_update
  | download_new, download_new
  | download_update, download_update
  | skip, skip => true
  | _, _ => false
  end.

(** What the run shows: the [console.log] line of each classification and
    the [Notice]s of the executed operations. *)
Inductive Event : Type :=
| LogFile (p : string) (op : Operation) (r : Reason)        (* line 327 *)
| LogRemoteFile (p : string) (op : Operation) (r : Reason)  (* line 408 *)
| ConflictSaved (p conflictPath : string)                   (* line 296 *)
| BackupError (p : string)                                  (* line 306 *)
| Uploaded (p : string)                                     (* line 351 *)
| UploadFailed (p : string)                                 (* line 354 *)
| UploadError (p : string)                                  (* line 357 *)
| Downloaded (p : string)                                   (* line 439 *)
| DownloadFailed (p : string)                               (* line 441 *)
| DownloadError (p : string)                                (* line 444 *)
| DeletingRemote (p : string)                               (* line 457 *)
| DeletedRemote (p : string)                                (* line 461 *)
| DeleteRemoteFailed (p : string)                           (* line 464 *)
| DeletingLocal (p : string)                                (* line 488 *)
| DeletedLocal (p : string)                                 (* line 491 *)
| DeleteLocalError (p : string)                             (* line 493 *)
| Aborted.                                                  (* lines 186-200 *)

(* ------------------------------------------------------------------ *)
(** ** The two stores

    The vault and the Drive folder are not part of the repository; the run
    sees them through the Obsidian and Drive calls modelled below. *)

(** A file of the vault: its path, modification time and bytes. *)
Record VaultFile : Type := mkVaultFile {
  vpath : string;
  vmtime : Z;
  vdata : string
}.

(** The world a run acts on.  [vault] holds the files of the vault (folders
    are not kept), [drive] the objects of the app folder with their bytes.
    [clock] is the current time in ms; a write to either store is stamped
    with it and advances it.  [listings] counts the listing requests and
    [minted] the ids Drive has handed out.  [persisted] is the history of
    [saveData] calls, newest first.  [refreshes] counts the requests sent
    to the token endpoint. *)
Record World : Type := mkWorld {
  vault : list VaultFile;
  drive : list (DriveFile * string);
  clock : Z;
  listings : nat;
  minted : nat;
  persisted : list CloudSyncSettings;
  refreshes : nat
}.

(** Which calls fail during a run.  [authorized] is whether Drive accepts
    the token that the requests carry: when it does not, every response is
    a 401 and every Drive function answers as for any failed request.
    [listFails n] is whether the [n]-th listing request fails; the other
    predicates are keyed by the path or the Drive id the call is made
    on. *)
Record Faults : Type := mkFaults {
  authorized : bool;
  folderLookupFails : bool;
  statThrows : string -> bool;
  readThrows : string -> bool;
  createThrows : string -> bool;
  modifyThrows : string -> bool;
  deleteThrows : string -> bool;
  listFails : nat -> bool;
  uploadFails : string -> bool;
  downloadFails : string -> bool;
  removeFails : string -> bool
}.

Definition folderMime : string := "application/vnd.google-apps.folder".

(** A call that may reject: its value, or the exception. *)
Inductive outcome (A : Type) : Type :=
| returned (a : A) : outcome A
| thrown : outcome A.
Arguments returned {A} a.
Arguments thrown {A}.

(** The state of one run: the plugin's settings, the two snapshot maps, the
    world, and what has been shown so far (oldest first). *)
Record Run : Type := mkRun {
  settings : CloudSyncSettings;
  localFiles : LocalFiles;
  remoteFilesMap : RemoteFilesMap;
  world : World;
  shown : list Event
}.

(** [this.settings.fileMap!] *)
Definition fileMapOf (r : Run) : FileMap :=
  match fileMap (settings r) with Some m => m | None => [] end.

Definition with_fileMap (m : FileMap) (r : Run) : Run :=
  mkRun (mkSettings (cloudProvider (settings r))
                    (googleDriveTokens (settings r))
                    (googleDriveAppFolderId (settings r)) (Some m))
        (localFiles r) (remoteFilesMap r) (world r) (shown r).

Definition with_tokens (t : Auth.Tokens) (r : Run) : Run :=
  mkRun (mkSettings (cloudProvider (settings r)) t
                    (googleDriveAppFolderId (settings r))
                    (fileMap (settings r)))
        (localFiles r) (remoteFilesMap r) (world r) (shown r).

Definition with_localFiles (l : LocalFiles) (r : Run) : Run :=
  mkRun (settings r) l (remoteFilesMap r) (world r) (shown r).

Definition with_remoteFilesMap (m : RemoteFilesMap) (r : Run) : Run :=
  mkRun (settings r) (localFiles r) m (world r) (shown r).

Definition with_world (w : World) (r : Run) : Run :=
  mkRun (settings r) (localFiles r) (remoteFilesMap r) w (shown r).

Definition show (e : Event) (r : Run) : Run :=
  mkRun (settings r) (localFiles r) (remoteFilesMap r) (world r)
        (shown r ++ [e]).

Definition findFile (p : string) (v : list VaultFile) : option VaultFile :=
  find (fun f => String.eqb (vpath f) p) v.

Definition findDrive (fid : string) (d : list (DriveFile * string))
  : option (DriveFile * string) :=
  find (fun o => String.eqb (id (fst o)) fid) d.

Definition decimal (n : nat) : string :=
  DecimalString.NilEmpty.string_of_uint (Nat.to_uint n).

(* ------------------------------------------------------------------ *)
(** ** The run *)

(** The host of a run: the platform ([Date.parse],
    [new Date(ms).toISOString()], the md5 digest Drive reports for a file's
    bytes), which calls fail during the run, and what the token endpoint
    answers to the [n]-th refresh request. *)
Class Host : Type := {
  Date_parse : string -> Js.number;
  toISOString : Z -> string;
  md5 : string -> string;
  faults : Faults;
  tokenEndpoint : nat -> Auth.Reply
}.

Section Model.
Context {host : Host}.

(** *** Vault calls *)

(** [vault.getMarkdownFiles()]: the files whose path ends in [.md], the
    test the source itself applies at line 333. *)
Definition getMarkdownFiles (w : World) : list VaultFile :=
  filter (fun f => Js.endsWith ".md" (vpath f)) (vault w).

(** [vault.adapter.stat(path)]: the mtime, [null] when there is no such
    file. *)
Definition stat (p : string) (w : World) : outcome (option Z) :=
  if statThrows faults p then thrown
  else returned (option_map vmtime (findFile p (vault w))).

(** [vault.adapter.readBinary(path)]. *)
Definition readBinary (p : string) (w : World) : outcome string :=
  if readThrows faults p then thrown
  else match findFile p (vault w) with
       | Some f => returned (vdata f)
       | None => thrown
       end.

(** [vault.createBinary(path, data)]: rejects when the path exists. *)
Definition createBinary (p data : string) (w : World) : outcome World :=
  if createThrows faults p then thrown
  else match findFile p (vault w) with
       | Some _ => thrown
       | None =>
           returned (mkWorld (vault w ++ [mkVaultFile p (clock w) data])
                             (drive w) (Z.succ (clock w)) (listings w)
                             (minted w) (persisted w) (refreshes w))
       end.

(** [vault.modifyBinary(file, data)]. *)
Definition modifyBinary (p data : string) (w : World) : outcome World :=
  if modifyThrows faults p then thrown
  else match findFile p (vault w) with
       | None => thrown
       | Some _ =>
           returned (mkWorld
                       (map (fun f => if String.eqb (vpath f) p
                                      then mkVaultFile p (clock w) data
                                      else f) (vault w))
                       (drive w) (Z.succ (clock w)) (listings w)
                       (minted w) (persisted w) (refreshes w))
       end.

(** [vault.getAbstractFileByPath(path)]. *)
Definition getAbstractFileByPath (p : string) (w : World) : option VaultFile :=
  findFile p (vault w).

(** [vault.delete(file)]. *)
Definition vault_delete (p : string) (w : World) : outcome World :=
  if deleteThrows faults p then thrown
  else returned (mkWorld
                   (filter (fun f => negb (String.eqb (vpath f) p)) (vault w))
                   (drive w) (clock w) (listings w) (minted w) (persisted w)
                   (refreshes w)).

(** *** Drive requests (lines 752-942)

    Each Drive function first asks for the token (see [withToken] below);
    what it does with the token is modelled here. *)

(** [listGoogleDriveFiles], lines 757-800: every object of the app
    folder, or [[]] when the request fails. *)
Definition listFilesRequest (w : World) : list DriveFile * World :=
  if negb (authorized faults) then ([], w)
  else
    let w' := mkWorld (vault w) (drive w) (clock w) (S (listings w))
                      (minted w) (persisted w) (refreshes w) in
    if listFails faults (listings w) then ([], w') else (map fst (drive w), w').

(** [uploadGoogleDriveFile], lines 840-907: PATCH of [existingFileId] when
    it is given, POST of a new object otherwise; the server stamps
    [modifiedTime].  [null] on any failure. *)
Definition uploadFileRequest
    (fileName fileContent mimeType' : string)
    (existingFileId : option string) (w : World) : option string * World :=
  if negb (authorized faults) then (None, w)
  else if uploadFails faults fileName then (None, w)
  else
    let stamped fid :=
      (mkDriveFile fid fileName mimeType' (toISOString (clock w))
                   (Some (md5 fileContent)), fileContent) in
    match existingFileId with
    | Some (String a fid') =>
        let fid := String a fid' in
        match findDrive fid (drive w) with
        | None => (None, w)
        | Some _ =>
            (Some fid,
             mkWorld (vault w)
                     (map (fun o => if String.eqb (id (fst o)) fid
                                    then stamped fid else o) (drive w))
                     (Z.succ (clock w)) (listings w) (minted w)
                     (persisted w) (refreshes w))
        end
    | _ =>
        let fid := "drive-" ++ decimal (minted w) in
        (Some fid,
         mkWorld (vault w) (drive w ++ [stamped fid])
                 (Z.succ (clock w)) (listings w) (S (minted w))
                 (persisted w) (refreshes w))
    end.

(** [downloadGoogleDriveFile], lines 807-826. *)
Definition downloadFileRequest (fid : string) (w : World) : option string :=
  if negb (authorized faults) then None
  else if downloadFails faults fid then None
  else option_map snd (findDrive fid (drive w)).

(** [deleteGoogleDriveFile], lines 919-941. *)
Definition deleteFileRequest (fid : string) (w : World) : bool * World :=
  if negb (authorized faults) then (false, w)
  else if removeFails faults fid then (false, w)
  else match findDrive fid (drive w) with
       | None => (false, w)
       | Some _ =>
           (true,
            mkWorld (vault w)
                    (filter (fun o => negb (String.eqb (id (fst o)) fid))
                            (drive w))
                    (clock w) (listings w) (minted w) (persisted w)
                    (refreshes w))
       end.

(** [saveSettings]: [saveData(this.settings)]. *)
Definition saveSettings (r : Run) : Run :=
  with_world (mkWorld (vault (world r)) (drive (world r)) (clock (world r))
                      (listings (world r)) (minted (world r))
                      (settings r :: persisted (world r))
                      (refreshes (world r))) r.

(** *** The token and the Drive calls *)

(** [getValidGoogleDriveToken] (lines 674-689) on the state of the run:
    [Auth.getValidGoogleDriveToken] at the current time on the token fields
    of the settings, the answer to a refresh request being the host's.
    The token fields it leaves are written back, the request is counted,
    and the [saveSettings] of a refresh saves the settings of the run.
    The notices of the three token functions are not kept. *)
Definition getValidGoogleDriveToken (r : Run) : option string * Run :=
  let w := world r in
  let '(token, a) :=
    Auth.getValidGoogleDriveToken
      (clock w) (tokenEndpoint (refreshes w)) (clock w)
      (Auth.mkState (googleDriveTokens (settings r)) [] 0 []) in
  let r1 :=
    with_world (mkWorld (vault w) (drive w) (clock w) (listings w)
                        (minted w) (persisted w)
                        (refreshes w + Auth.requests a))
               (with_tokens (Auth.tokens a) r) in
  (token,
   match Auth.saved a with
   | [] => r1
   | _ :: _ => saveSettings r1
   end).

(** The first lines of every Drive function:
    [const token = await this.getValidGoogleDriveToken();
     if (!token) return <failure>;], then the request. *)
Definition withToken {A : Type} (failure : A) (request : World -> A * World)
    (r : Run) : A * Run :=
  let '(token, r0) := getValidGoogleDriveToken r in
  if Js.truthy token
  then let '(a, w) := request (world r0) in (a, with_world w r0)
  else (failure, r0).

(** [listGoogleDriveFiles(appFolderId)] (lines 752-801). *)
Definition listGoogleDriveFiles (r : Run) : list DriveFile * Run :=
  withToken [] listFilesRequest r.

(** [uploadGoogleDriveFile] (lines 829-908), the parent folder given. *)
Definition uploadGoogleDriveFile
    (fileName fileContent mimeType' : string)
    (existingFileId : option string) (r : Run) : option string * Run :=
  withToken None
            (uploadFileRequest fileName fileContent mimeType' existingFileId)
            r.

(** [downloadGoogleDriveFile] (lines 803-827). *)
Definition downloadGoogleDriveFile (fid : string) (r : Run)
  : option string * Run :=
  withToken None (fun w => (downloadFileRequest fid w, w)) r.

(** [deleteGoogleDriveFile] (lines 912-942). *)
Definition deleteGoogleDriveFile (fid : string) (r : Run) : bool * Run :=
  withToken false (deleteFileRequest fid) r.

(** *** Snapshots (lines 216-256) *)

(** The body of the loop of lines 222-235. *)
Definition collectStep (w : World) (acc : LocalFiles) (file : VaultFile)
  : LocalFiles :=
  if Js.startsWith ".obsidian/" (vpath file) then acc
  else match stat (vpath file) w with
       | returned (Some t) =>
           OMap.set (vpath file) (mkLocalStat (vpath file) t) acc
       | returned None => acc
       | thrown => acc
       end.

(** The loop of lines 222-235 over [getMarkdownFiles()]. *)
Definition collectLocalFiles (w : World) : LocalFiles :=
  fold_left (collectStep w) (getMarkdownFiles w) [].

(** The loop of lines 245-254 over the listing. *)
Definition collectRemoteFiles (remoteDriveFiles : list DriveFile)
  : RemoteFilesMap :=
  fold_left
    (fun (acc : RemoteFilesMap) (driveFile : DriveFile) =>
       if String.eqb (mimeType driveFile) folderMime then acc
       else OMap.set (name driveFile) driveFile acc)
    remoteDriveFiles [].

(** *** Upload direction (lines 269-361) *)

(** [x > existingMapping.localMtimeEpoch]: an absent field compares as
    [undefined], that is as [NaN]. *)
Definition epochOf (n : option Z) : Js.number :=
  match n with Some z => Js.Num z | None => Js.NaN end.

(** [m.remoteMtime ? Date.parse(m.remoteMtime) : 0] *)
Definition lastKnownRemote (m : option FileSyncState) : Js.number :=
  match m with
  | Some m' =>
      if Js.truthy (remoteMtime m')
      then match remoteMtime m' with
           | Some s => Date_parse s
           | None => Js.Num 0
           end
      else Js.Num 0
  | None => Js.Num 0
  end.

(** The decision of lines 274-325. *)
Definition classifyUpload
    (existingMapping : option FileSyncState)
    (localFileStat : LocalStat)
    (currentRemoteDriveFile : option DriveFile) : Operation * Reason :=
  match existingMapping with
  | None => (upload_new, New_local_file)
  | Some m =>
      if negb (Js.truthyZ (localMtimeEpoch m))
         || Js.gt (Js.Num (mtime localFileStat)) (epochOf (localMtimeEpoch m))
      then
        let lastKnownRemoteMtimeEpoch := lastKnownRemote existingMapping in
        let currentRemoteMtimeEpoch :=
          match currentRemoteDriveFile with
          | Some f => Date_parse (modifiedTime f)
          | None => Js.Num 0
          end in
        if match currentRemoteDriveFile with Some _ => true | None => false end
           && Js.gt currentRemoteMtimeEpoch lastKnownRemoteMtimeEpoch
        then (skip, CONFLICT)
        else if Js.gt (Js.Num (mtime localFileStat)) currentRemoteMtimeEpoch
        then (upload_update, Local_newer_than_remote)
        else (skip, Local_changed_remote_same_or_newer)
      else (skip, Local_unchanged)
  end.

(** The backup path of line 294. *)
Definition conflictPathOf (p timestamp : string) : string :=
  Js.substring p 0 (Js.lastIndexOf "." p)
  ++ "_local_conflict_" ++ timestamp
  ++ Js.substring_from p (Js.lastIndexOf "." p).

(** The [try] block of lines 291-309, entered on a conflict. *)
Definition backupLocal (p : string) (r : Run) : Run :=
  match readBinary p (world r) with
  | thrown => show (BackupError p) r
  | returned localContent =>
      let timestamp :=
        Js.replace_colon_dot (toISOString (clock (world r))) in
      let conflictPath := conflictPathOf p timestamp in
      match createBinary conflictPath localContent (world r) with
      | thrown => show (BackupError p) r
      | returned w1 =>
          let r1 := show (ConflictSaved p conflictPath) (with_world w1 r) in
          match stat conflictPath w1 with
          | thrown => show (BackupError p) r1
          | returned None => r1
          | returned (Some t) =>
              with_localFiles
                (OMap.set conflictPath (mkLocalStat conflictPath t)
                          (localFiles r1)) r1
          end
      end
  end.

(** Lines 331-338: the request of an upload step. *)
Definition uploadCall (p : string) (operation : Operation)
    (existingMapping : option FileSyncState) (fileContent : string)
    (r : Run) : option string * Run :=
  let mimeType' :=
    if Js.endsWith ".md" p then "text/markdown"
    else "application/octet-stream" in
  let existingRemoteFileId :=
    if Operation_eqb operation upload_update
    then option_map remoteId existingMapping else None in
  uploadGoogleDriveFile p fileContent mimeType' existingRemoteFileId r.

(** Lines 342-343: [remoteFilesMap.get(path) || (await
    listGoogleDriveFiles(appFolderId)).find(f => f.id === remoteId)]. *)
Definition updatedRemoteFileOf (p rid : string) (r : Run)
  : option DriveFile * Run :=
  match OMap.get p (remoteFilesMap r) with
  | Some f => (Some f, r)
  | None =>
      let '(l, r') := listGoogleDriveFiles r in
      (find (fun f => String.eqb (id f) rid) l, r')
  end.

(** Lines 345-350: the entry written after an upload. *)
Definition uploadedEntry (rid : string) (localFileStat : LocalStat)
    (updatedRemoteFile : option DriveFile) : FileSyncState :=
  mkFileSyncState rid
    (option_map modifiedTime updatedRemoteFile)
    (match updatedRemoteFile with
     | Some f => md5Checksum f
     | None => None
     end)
    (Some (mtime localFileStat)).

(** The [try] block of lines 330-359. *)
Definition executeUpload (p : string) (localFileStat : LocalStat)
    (operation : Operation) (existingMapping : option FileSyncState)
    (r : Run) : Run :=
  match readBinary p (world r) with
  | thrown => show (UploadError p) r
  | returned fileContent =>
      let '(remoteId', r1) :=
        uploadCall p operation existingMapping fileContent r in
      match remoteId' with
      | Some (String a rid') =>
          let rid := String a rid' in
          let '(updatedRemoteFile, r2) := updatedRemoteFileOf p rid r1 in
          let r3 :=
            show (Uploaded p)
                 (with_fileMap
                    (OMap.set p (uploadedEntry rid localFileStat
                                               updatedRemoteFile)
                              (fileMapOf r2))
                    r2) in
          match updatedRemoteFile with
          | Some f =>
              with_remoteFilesMap (OMap.set p f (remoteFilesMap r3)) r3
          | None => r3
          end
      | _ => show (UploadFailed p) r1
      end
  end.

(** One iteration of the loop of line 269. *)
Definition uploadStep (p : string) (localFileStat : LocalStat) (r : Run)
  : Run :=
  let existingMapping := OMap.get p (fileMapOf r) in
  let '(operation, reason) :=
    classifyUpload existingMapping localFileStat
                   (OMap.get p (remoteFilesMap r)) in
  let r1 :=
    match reason with
    | CONFLICT => backupLocal p r
    | _ => r
    end in
  let r2 := show (LogFile p operation reason) r1 in
  match operation with
  | upload_new | upload_update =>
      executeUpload p localFileStat operation existingMapping r2
  | _ => r2
  end.

(** The loop of line 269.  A [Map] iterator is live: an entry added
    during the loop (the backup of a conflict) is visited in its turn, so
    the loop walks [localFiles] by index.  [fuel] bounds the number of
    iterations. *)
Fixpoint uploadLoop (fuel : nat) (i : nat) (r : Run) : Run :=
  match fuel with
  | O => r
  | S fuel' =>
      match nth_error (localFiles r) i with
      | None => r
      | Some (p, localFileStat) =>
          uploadLoop fuel' (S i) (uploadStep p localFileStat r)
      end
  end.

(** Each conflict needs an entry of [fileMap] for a path not visited
    before, so the loop ends within this many iterations
    (see [uploadPass_visits_all]). *)
Definition uploadFuel (r : Run) : nat :=
  List.length (localFiles r) + List.length (fileMapOf r).

Definition uploadPass (r : Run) : Run :=
  uploadLoop (uploadFuel r) 0 r.

(** *** Download direction (lines 365-448) *)

(** The decision of lines 372-406. *)
Definition classifyDownload
    (localFileStat : option LocalStat)
    (existingMapping : option FileSyncState)
    (remoteDriveFile : DriveFile) : Operation * Reason :=
  let remoteMtimeEpoch := Date_parse (modifiedTime remoteDriveFile) in
  match localFileStat with
  | None => (download_new, New_remote_file)
  | Some l =>
      let lastKnownRemoteMtimeEpoch := lastKnownRemote existingMapping in
      if Js.gt remoteMtimeEpoch lastKnownRemoteMtimeEpoch then
        if Js.gt remoteMtimeEpoch (Js.Num (mtime l))
        then (download_update, Remote_newer_than_local)
        else if Js.lt remoteMtimeEpoch (Js.Num (mtime l))
        then (skip, Local_newer_than_this_remote)
        else (skip, Times_match)
      else (skip, Remote_unchanged_or_older)
  end.

(** Lines 415-429: create, or modify in place with the fall-back. *)
Definition writeDownloaded (p : string) (operation : Operation)
    (fileContent : string) (w : World) : outcome World :=
  if Operation_eqb operation download_new
  then createBinary p fileContent w
  else match getAbstractFileByPath p w with
       | Some _ => modifyBinary p fileContent w
       | None => createBinary p fileContent w
       end.

(** Lines 432-438: the entry written after a download; [Date.now()]
    stands in when the file cannot be found again. *)
Definition downloadedEntry (remoteDriveFile : DriveFile)
    (updatedLocalStat : option Z) (now : Z) : FileSyncState :=
  mkFileSyncState (id remoteDriveFile)
    (Some (modifiedTime remoteDriveFile))
    (md5Checksum remoteDriveFile)
    (Some (match updatedLocalStat with
           | Some t => t
           | None => now
           end)).

(** The [try] block of lines 412-446. *)
Definition executeDownload (p : string) (remoteDriveFile : DriveFile)
    (operation : Operation) (r : Run) : Run :=
  let '(downloaded, r0) :=
    downloadGoogleDriveFile (id remoteDriveFile) r in
  match downloaded with
  | None => show (DownloadFailed p) r0
  | Some fileContent =>
      match writeDownloaded p operation fileContent (world r0) with
      | thrown => show (DownloadError p) r0
      | returned w1 =>
          match stat p w1 with
          | thrown => show (DownloadError p) (with_world w1 r0)
          | returned updatedLocalStat =>
              show (Downloaded p)
                   (with_fileMap
                      (OMap.set p (downloadedEntry remoteDriveFile
                                                   updatedLocalStat
                                                   (clock w1))
                                (fileMapOf r0))
                      (with_world w1 r0))
          end
      end
  end.

(** One iteration of the loop of line 365. *)
Definition downloadStep (p : string) (remoteDriveFile : DriveFile) (r : Run)
  : Run :=
  let localFileStat := OMap.get p (localFiles r) in
  let existingMapping := OMap.get p (fileMapOf r) in
  let '(operation, reason) :=
    classifyDownload localFileStat existingMapping remoteDriveFile in
  let r1 := show (LogRemoteFile p operation reason) r in
  match operation with
  | download_new | download_update =>
      executeDownload p remoteDriveFile operation r1
  | _ => r1
  end.

(** The loop of line 365; [remoteFilesMap] is not written during it. *)
Definition downloadPass (r : Run) : Run :=
  fold_left (fun r' e => downloadStep (fst e) (snd e) r')
            (remoteFilesMap r) r.

(** *** Deletions (lines 453-502) *)

(** One iteration of the loop of line 454.  A [for ... in] loop skips a
    key deleted before its turn.  The passes below walk the keys in
    insertion order (JavaScript puts keys that read as array indices
    first); what is proved of them holds for any order of the keys. *)
Definition localDeletionStep (pathInMap : string) (r : Run) : Run :=
  match OMap.get pathInMap (fileMapOf r) with
  | None => r
  | Some mapping =>
      if OMap.has pathInMap (localFiles r) then r
      else
        let r1 := show (DeletingRemote pathInMap) r in
        let '(success, r2) :=
          deleteGoogleDriveFile (remoteId mapping) r1 in
        if success
        then show (DeletedRemote pathInMap)
                  (with_fileMap (OMap.delete pathInMap (fileMapOf r2)) r2)
        else show (DeleteRemoteFailed pathInMap) r2
  end.

Definition localDeletionsPass (r : Run) : Run :=
  fold_left (fun r' k => localDeletionStep k r') (OMap.keys (fileMapOf r)) r.

(** One iteration of the loop of line 479. *)
Definition remoteDeletionStep (pathInMap : string) (r : Run) : Run :=
  match OMap.get pathInMap (fileMapOf r) with
  | None => r
  | Some _ =>
      if OMap.has pathInMap (remoteFilesMap r) then r
      else
        match getAbstractFileByPath pathInMap (world r) with
        | Some _ =>
            let r1 := show (DeletingLocal pathInMap) r in
            match vault_delete pathInMap (world r1) with
            | thrown => show (DeleteLocalError pathInMap) r1
            | returned w1 =>
                with_fileMap (OMap.delete pathInMap (fileMapOf r1))
                             (show (DeletedLocal pathInMap)
                                   (with_world w1 r1))
            end
        | None => with_fileMap (OMap.delete pathInMap (fileMapOf r)) r
        end
  end.

Definition remoteDeletionsPass (r : Run) : Run :=
  fold_left (fun r' k => remoteDeletionStep k r') (OMap.keys (fileMapOf r)) r.

(** *** The run (lines 183-508) *)

(** [findOrCreateAppFolder] (lines 693-750): without a token [null];
    else the stored id when there is one; else the id the search or
    creation request yields, stored and saved. *)
Definition findOrCreateAppFolder (r : Run) : option string * Run :=
  let '(token, r0) := getValidGoogleDriveToken r in
  if negb (Js.truthy token) then (None, r0)
  else if Js.truthy (googleDriveAppFolderId (settings r0))
  then (googleDriveAppFolderId (settings r0), r0)
  else if folderLookupFails faults || negb (authorized faults)
  then (None, r0)
  else
    let folderId := "app-folder" in
    (Some folderId,
     saveSettings
       (mkRun (mkSettings (cloudProvider (settings r0))
                          (googleDriveTokens (settings r0)) (Some folderId)
                          (fileMap (settings r0)))
              (localFiles r0) (remoteFilesMap r0) (world r0) (shown r0))).

(** The passes of lines 269-502 with their [saveSettings] calls. *)
Definition reconcile (r : Run) : Run :=
  let r1 := saveSettings (uploadPass r) in
  let r2 := saveSettings (downloadPass r1) in
  let r3 := saveSettings (localDeletionsPass r2) in
  remoteDeletionsPass r3.

(** Lines 209-256: the default [fileMap] and the two snapshots. *)
Definition snapshot (r : Run) : Run :=
  let r1 :=
    match fileMap (settings r) with
    | Some _ => r
    | None => with_fileMap [] r
    end in
  let localFiles' := collectLocalFiles (world r1) in
  let '(remoteDriveFiles, r2) := listGoogleDriveFiles r1 in
  mkRun (settings r2) localFiles' (collectRemoteFiles remoteDriveFiles)
        (world r2) (shown r2).

(** [syncNow].  The assignment of lines 203-206 never fires: a folder id
    that [findOrCreateAppFolder] returns is already stored. *)
Definition syncNow (s : CloudSyncSettings) (w : World) : Run :=
  let r := mkRun s [] [] w [] in
  if negb (String.eqb (cloudProvider s) "google-drive") then show Aborted r
  else
    let '(token, r0) := getValidGoogleDriveToken r in
    if negb (Js.truthy token) then show Aborted r0
    else
      match findOrCreateAppFolder r0 with
      | (Some (String _ _), r1) => reconcile (snapshot r1)
      | (_, r1) => show Aborted r1
      end.

End Model.

(* ------------------------------------------------------------------ *)
(** ** A concrete platform

    Drive reports [modifiedTime] as an RFC 3339 UTC timestamp,
    [YYYY-MM-DDTHH:MM:SS.sssZ], which is also what [toISOString] prints for
    the years 0000 to 9999.  The worked scenarios use the platform below,
    which reads and prints exactly that form; any other string reads as
    [NaN]. *)

Module Iso.
Local Open Scope Z_scope.

(** Days between 1970-01-01 and the given civil date. *)
Definition days_from_civil (y m d : Z) : Z :=
  let y' := if m <=? 2 then y - 1 else y in
  let era := y' / 400 in
  let yoe := y' - era * 400 in
  let mp := (m + 9) mod 12 in
  let doy := (153 * mp + 2) / 5 + d - 1 in
  let doe := yoe * 365 + yoe / 4 - yoe / 100 + doy in
  era * 146097 + doe - 719468.

(** The civil date of a day count (year, month, day). *)
Definition civil_from_days (z : Z) : Z * Z * Z :=
  let z' := z + 719468 in
  let era := z' / 146097 in
  let doe := z' - era * 146097 in
  let yoe := (doe - doe / 1460 + doe / 36524 - doe / 146096) / 365 in
  let doy := doe - (365 * yoe + yoe / 4 - yoe / 100) in
  let mp := (5 * doy + 2) / 153 in
  let d := doy - (153 * mp + 2) / 5 + 1 in
  let m := if mp <? 10 then mp + 3 else mp - 9 in
  ((yoe + era * 400) + (if m <=? 2 then 1 else 0), m, d).

Definition digit (a : ascii) : option Z :=
  let n := Z.of_nat (nat_of_ascii a) in
  if (48 <=? n) && (n <=? 57) then Some (n - 48) else None.

(** The value of a run of decimal digits. *)
Fixpoint digits (acc : Z) (s : string) : option Z :=
  match s with
  | EmptyString => Some acc
  | String a r =>
      match digit a with
      | Some d => digits (acc * 10 + d) r
      | None => None
      end
  end.

Definition field (s : string) (from len : nat) : option Z :=
  if Nat.eqb (String.length (Js.take len (Js.drop from s))) len
  then digits 0 (Js.take len (Js.drop from s))
  else None.

Definition sep (s : string) (at' : nat) (c : string) : bool :=
  String.eqb (Js.take 1 (Js.drop at' s)) c.

Definition parse (s : string) : Js.number :=
  if negb (Nat.eqb (String.length s) 24) then Js.NaN
  else if negb (sep s 4 "-" && sep s 7 "-" && sep s 10 "T" && sep s 13 ":"
                && sep s 16 ":" && sep s 19 "." && sep s 23 "Z")
  then Js.NaN
  else
    match field s 0 4, field s 5 2, field s 8 2,
          field s 11 2, field s 14 2, field s 17 2, field s 20 3 with
    | Some y, Some mo, Some d, Some h, Some mi, Some sec, Some ms =>
        if (1 <=? mo) && (mo <=? 12) && (1 <=? d) && (d <=? 31)
           && (h <=? 23) && (mi <=? 59) && (sec <=? 59)
        then Js.Num ((((days_from_civil y mo d * 24 + h) * 60 + mi) * 60
                      + sec) * 1000 + ms)
        else Js.NaN
    | _, _, _, _, _, _, _ => Js.NaN
    end.

Definition digitChar (d : Z) : ascii :=
  ascii_of_nat (Z.to_nat (48 + d mod 10)).

(** [n] printed on [width] digits, zero padded. *)
Fixpoint pad (width : nat) (n : Z) (acc : string) : string :=
  match width with
  | O => acc
  | S w => pad w (n / 10) (String (digitChar n) acc)
  end.

Definition toISOString (t : Z) : string :=
  let day := t / 86400000 in
  let rest := t mod 86400000 in
  let '(y, m, d) := civil_from_days day in
  (pad 4 y "" ++ "-" ++ pad 2 m "" ++ "-" ++ pad 2 d "" ++ "T"
   ++ pad 2 (rest / 3600000) "" ++ ":" ++ pad 2 (rest / 60000 mod 60) ""
   ++ ":" ++ pad 2 (rest / 1000 mod 60) "" ++ "."
   ++ pad 3 (rest mod 1000) "" ++ "Z")%string.

(** A stand-in for Drive's digest: the scenarios never compare digests,
    they only carry them. *)
Definition md5 (data : string) : string := ("md5:" ++ data)%string.

End Iso.

(* ------------------------------------------------------------------ *)
(** ** Worked scenarios *)

Module Worked.
Local Open Scope Z_scope.

Definition noFaults : Faults :=
  mkFaults true false (fun _ => false) (fun _ => false) (fun _ => false)
           (fun _ => false) (fun _ => false) (fun _ => false)
           (fun _ => false) (fun _ => false) (fun _ => false).

(** [adapter.stat] rejects on one path; everything else works. *)
Definition statFailsOn (p : string) : Faults :=
  mkFaults true false (String.eqb p) (fun _ => false) (fun _ => false)
           (fun _ => false) (fun _ => false) (fun _ => false)
           (fun _ => false) (fun _ => false) (fun _ => false).

(** The [n]-th listing request fails; everything else works. *)
Definition listFailsAt (n : nat) : Faults :=
  mkFaults true false (fun _ => false) (fun _ => false) (fun _ => false)
           (fun _ => false) (fun _ => false) (Nat.eqb n)
           (fun _ => false) (fun _ => false) (fun _ => false).

(** The concrete platform under a given fault schedule and a given token
    endpoint. *)
Definition hostWith (F : Faults) (endpoint : nat -> Auth.Reply) : Host :=
  Build_Host Iso.parse Iso.toISOString Iso.md5 F endpoint.

(** The concrete platform under a given fault schedule; the token
    endpoint cannot be reached. *)
Definition isoHost (F : Faults) : Host :=
  hostWith F (fun _ => Auth.NetworkError).

(** A run on the concrete platform. *)
Definition run (F : Faults) (s : CloudSyncSettings) (w : World) : Run :=
  @syncNow (isoHost F) s w.

(** 2024-01-01T00:00:00.000Z *)
Definition T0 : Z := 1704067200000.

(** A token granted at [T0] for an hour. *)
Definition freshTokens : Auth.Tokens :=
  Auth.mkTokens (Some "access-1") (Some "refresh-1")
                (Some (Js.Num (T0 + 3600000))).

Definition settingsWith (m : FileMap) : CloudSyncSettings :=
  mkSettings "google-drive" freshTokens (Some "folder") (Some m).

Definition note (fid modified : string) : DriveFile :=
  mkDriveFile fid "a.md" "text/markdown" modified None.

(** [a.md] was agreed at [T0] on both sides. *)
Definition agreedAtT0 : FileMap :=
  [("a.md", mkFileSyncState "r1" (Some "2024-01-01T00:00:00.000Z") None
                            (Some T0))].

(** Conflict: since [T0] the local copy moved to [T0 + 2 s] and the
    remote copy to [T0 + 1 s]. *)
Definition conflictWorld : World :=
  mkWorld [mkVaultFile "a.md" (T0 + 2000) "local edit"]
          [(note "r1" "2024-01-01T00:00:01.000Z", "remote edit")]
          (T0 + 5000) 0 0 [] 0.

(** A file that exists on Drive only, never synchronised. *)
Definition remoteOnlyWorld : World :=
  mkWorld [] [(note "r1" "2024-01-01T00:00:01.000Z", "remote text")]
          (T0 + 5000) 0 0 [] 0.

(** [a.md] was uploaded at local time [T0]; the server stamped it
    [T0 + 3 s].  Since then the local copy moved to [T0 + 2 s]; the
    remote copy did not move. *)
Definition agreedStampedLater : FileMap :=
  [("a.md", mkFileSyncState "r1" (Some "2024-01-01T00:00:03.000Z") None
                            (Some T0))].

Definition deferredWorld : World :=
  mkWorld [mkVaultFile "a.md" (T0 + 2000) "local edit"]
          [(note "r1" "2024-01-01T00:00:03.000Z", "remote text")]
          (T0 + 5000) 0 0 [] 0.

(** Both sides still as agreed at [T0]. *)
Definition quietWorld : World :=
  mkWorld [mkVaultFile "a.md" T0 "text"]
          [(note "r1" "2024-01-01T00:00:00.000Z", "text")]
          (T0 + 5000) 0 0 [] 0.

(** Both sides as agreed, with a local mtime of [0] and a remote time
    one second before the epoch. *)
Definition agreedAtEpoch : FileMap :=
  [("a.md", mkFileSyncState "r1" (Some "1969-12-31T23:59:59.000Z") None
                            (Some 0))].

Definition epochWorld : World :=
  mkWorld [mkVaultFile "a.md" 0 "text"]
          [(note "r1" "1969-12-31T23:59:59.000Z", "text")]
          (T0 + 5000) 0 0 [] 0.

(** Conflict with the remote copy the newer of the two: since [T0] the
    local copy moved to [T0 + 1 s] and the remote copy to [T0 + 2 s]. *)
Definition conflictWorldRemoteNewer : World :=
  mkWorld [mkVaultFile "a.md" (T0 + 1000) "local edit"]
          [(note "r1" "2024-01-01T00:00:02.000Z", "remote edit")]
          (T0 + 5000) 0 0 [] 0.

(** Since [T0] only the local copy moved, to [T0 + 2 s]. *)
Definition localEditWorld : World :=
  mkWorld [mkVaultFile "a.md" (T0 + 2000) "local edit"]
          [(note "r1" "2024-01-01T00:00:00.000Z", "text")]
          (T0 + 5000) 0 0 [] 0.

(** [a.md] is gone from Drive and still in the vault. *)
Definition remoteGoneWorld : World :=
  mkWorld [mkVaultFile "a.md" T0 "text"] [] (T0 + 5000) 0 0 [] 0.

(** A vault with a Markdown note, a picture and a Markdown file of the
    configuration folder; nothing on Drive. *)
Definition mixedWorld : World :=
  mkWorld [mkVaultFile "a.md" T0 "text";
           mkVaultFile "pic.png" T0 "pixels";
           mkVaultFile ".obsidian/x.md" T0 "config"]
          [] (T0 + 5000) 0 0 [] 0.

(** [adapter.readBinary] rejects on one path; everything else works. *)
Definition readFailsOn (p : string) : Faults :=
  mkFaults true false (fun _ => false) (String.eqb p) (fun _ => false)
           (fun _ => false) (fun _ => false) (fun _ => false)
           (fun _ => false) (fun _ => false) (fun _ => false).

(** The state of a run right after its snapshots. *)
Definition snapshotOf (F : Faults) (m : FileMap) (w : World) : Run :=
  @snapshot (isoHost F) (mkRun (settingsWith m) [] [] w []).

End Worked.

(* ------------------------------------------------------------------ *)
(** ** Facts about insertion-ordered maps *)

Section OrderedMapFacts.
Context {V : Type}.
Implicit Types (m : list (string * V)) (k : string) (v : V).

Lemma get_set_same k v m : OMap.get k (OMap.set k v m) = Some v.
Proof.
  induction m as [|[k' v'] m IH]; simpl.
  - now rewrite String.eqb_refl.
  - destruct (String.eqb k k') eqn:E; simpl; rewrite E; auto.
Qed.

Lemma get_set_other k k' v m :
  k <> k' -> OMap.get k (OMap.set k' v m) = OMap.get k m.
Proof.
  intros N. induction m as [|[k2 v2] m IH]; simpl.
  - destruct (String.eqb k k') eqn:E; auto.
    apply String.eqb_eq in E. contradiction.
  - destruct (String.eqb k' k2) eqn:E; simpl.
    + apply String.eqb_eq in E. subst k2.
      destruct (String.eqb k k') eqn:E2; auto.
      apply String.eqb_eq in E2. contradiction.
    + now rewrite IH.
Qed.

Lemma get_delete_same k m : OMap.get k (OMap.delete k m) = None.
Proof.
  induction m as [|[k' v'] m IH]; simpl; auto.
  destruct (String.eqb k k') eqn:E; simpl; auto. now rewrite E.
Qed.

Lemma get_delete_other k k' m :
  k <> k' -> OMap.get k (OMap.delete k' m) = OMap.get k m.
Proof.
  intros N. induction m as [|[k2 v2] m IH]; simpl; auto.
  destruct (String.eqb k' k2) eqn:E; simpl.
  - apply String.eqb_eq in E. subst k2.
    destruct (String.eqb k k') eqn:E2; auto.
    apply String.eqb_eq in E2. contradiction.
  - now rewrite IH.
Qed.

Lemma get_in_keys k m : OMap.get k m <> None <-> In k (OMap.keys m).
Proof.
  induction m as [|[k' v'] m IH]; simpl.
  - split; [congruence | tauto].
  - destruct (String.eqb k k') eqn:E.
    + apply String.eqb_eq in E. subst. split; [auto | congruence].
    + apply String.eqb_neq in E. rewrite IH. split; [auto | ].
      intros [H | H]; [congruence | exact H].
Qed.

Lemma has_true k m : OMap.has k m = true <-> In k (OMap.keys m).
Proof.
  rewrite <- get_in_keys. unfold OMap.has.
  destruct (OMap.get k m); split; congruence.
Qed.

Lemma has_false k m : OMap.has k m = false <-> OMap.get k m = None.
Proof.
  unfold OMap.has. destruct (OMap.get k m); split; congruence.
Qed.

(** Assigning to a key keeps every key in its place and appends a new
    one at the end. *)
Lemma keys_set k v m :
  OMap.keys (OMap.set k v m)
  = if OMap.has k m then OMap.keys m else (OMap.keys m ++ [k])%list.
Proof.
  unfold OMap.has. induction m as [|[k' v'] m IH]; simpl; auto.
  destruct (String.eqb k k') eqn:E; simpl; auto.
  rewrite IH. destruct (OMap.get k m); auto.
Qed.

Lemma NoDup_keys_set k v m :
  NoDup (OMap.keys m) -> NoDup (OMap.keys (OMap.set k v m)).
Proof.
  intros N. rewrite keys_set. destruct (OMap.has k m) eqn:E; auto.
  apply NoDup_app; auto.
  - constructor; [simpl; tauto | constructor].
  - intros x Hx [<- | []].
    apply has_true in Hx. congruence.
Qed.

End OrderedMapFacts.

(* ------------------------------------------------------------------ *)
(** ** Properties of the run *)

Local Open Scope list_scope.

(** Case analysis on the next [match] or [if] of the goal. *)
Ltac break_match :=
  match goal with
  | |- context [match ?x with _ => _ end] => destruct x eqn:?
  end.

Ltac break_all := repeat (break_match; simpl in *; try congruence).

Section Classification.
Context {host : Host}.

Lemma gt_irrefl (a : Js.number) : Js.gt a a = false.
Proof. destruct a; simpl; auto. apply Z.ltb_irrefl. Qed.

(** A recorded remote time that is read again compares as unchanged. *)
Lemma same_remote_is_not_newer (m : FileSyncState) (s : string) :
  Date_parse "" = Js.NaN ->
  remoteMtime m = Some s ->
  Js.gt (Date_parse s) (lastKnownRemote (Some m)) = false.
Proof.
  intros E H. unfold lastKnownRemote. rewrite H.
  destruct s as [|a s']; simpl.
  - now rewrite E.
  - apply gt_irrefl.
Qed.

(** C9.  For a path whose SyncState entry has no [localMtimeEpoch], or has
    [0] there, the upload-direction classification never answers
    "unchanged", whatever the local mtime: it goes on to the three-way
    decision conflict / update upload / deferred to the download pass. *)
Theorem absent_local_record_counts_as_changed
    (m : FileSyncState) (localFileStat : LocalStat)
    (currentRemoteDriveFile : option DriveFile) :
  localMtimeEpoch m = None \/ localMtimeEpoch m = Some 0%Z ->
  let decision :=
    classifyUpload (Some m) localFileStat currentRemoteDriveFile in
  snd decision <> Local_unchanged
  /\ decision =
     match currentRemoteDriveFile with
     | Some f =>
         if Js.gt (Date_parse (modifiedTime f))
                  (lastKnownRemote (Some m))
         then (skip, CONFLICT)
         else if Js.gt (Js.Num (mtime localFileStat))
                       (Date_parse (modifiedTime f))
         then (upload_update, Local_newer_than_remote)
         else (skip, Local_changed_remote_same_or_newer)
     | None =>
         if Z.ltb 0 (mtime localFileStat)
         then (upload_update, Local_newer_than_remote)
         else (skip, Local_changed_remote_same_or_newer)
     end.
Proof.
  intros H. unfold classifyUpload.
  assert (T : Js.truthyZ (localMtimeEpoch m) = false)
    by (destruct H as [-> | ->]; reflexivity).
  rewrite T. cbn [negb orb].
  destruct currentRemoteDriveFile as [f|]; cbn [andb Js.gt];
    repeat break_match; cbn; (split; [discriminate | reflexivity]).
Qed.

(** The upload-direction decision on a tie. *)
Lemma tie_upload (m : FileSyncState) (ls : LocalStat) (rf : DriveFile) :
  Date_parse "" = Js.NaN ->
  localMtimeEpoch m = Some (mtime ls) ->
  remoteMtime m = Some (modifiedTime rf) ->
  (mtime ls = 0%Z ->
   Js.gt (Js.Num 0) (Date_parse (modifiedTime rf)) = false) ->
  classifyUpload (Some m) ls (Some rf) = (skip, Local_unchanged)
  \/ classifyUpload (Some m) ls (Some rf)
     = (skip, Local_changed_remote_same_or_newer).
Proof.
  intros E Hl Hr Hz. unfold classifyUpload. rewrite Hl. cbn [Js.truthyZ epochOf].
  rewrite gt_irrefl, orb_false_r.
  destruct (Z.eqb (mtime ls) 0) eqn:Z0; cbn [negb].
  - apply Z.eqb_eq in Z0.
    rewrite (same_remote_is_not_newer m _ E Hr). cbn [andb].
    rewrite Z0 in *. rewrite (Hz eq_refl). now right.
  - now left.
Qed.

(** The download-direction decision on a tie. *)
Lemma tie_download (m : FileSyncState) (ls : LocalStat) (rf : DriveFile) :
  Date_parse "" = Js.NaN ->
  remoteMtime m = Some (modifiedTime rf) ->
  classifyDownload (Some ls) (Some m) rf
  = (skip, Remote_unchanged_or_older).
Proof.
  intros E Hr. unfold classifyDownload.
  now rewrite (same_remote_is_not_newer m _ E Hr).
Qed.

End Classification.

(** The accessors through the record updates. *)
Lemma fileMapOf_show e r : fileMapOf (show e r) = fileMapOf r.
Proof. reflexivity. Qed.

Lemma fileMapOf_with_world w r : fileMapOf (with_world w r) = fileMapOf r.
Proof. reflexivity. Qed.

Lemma fileMapOf_with_localFiles l r :
  fileMapOf (with_localFiles l r) = fileMapOf r.
Proof. reflexivity. Qed.

Lemma fileMapOf_with_remoteFilesMap m r :
  fileMapOf (with_remoteFilesMap m r) = fileMapOf r.
Proof. reflexivity. Qed.

Lemma fileMapOf_with_fileMap m r : fileMapOf (with_fileMap m r) = m.
Proof. reflexivity. Qed.

Create Rewrite HintDb run.
#[local] Hint Rewrite fileMapOf_show fileMapOf_with_world
  fileMapOf_with_localFiles fileMapOf_with_remoteFilesMap
  fileMapOf_with_fileMap : run.

(* ------------------------------------------------------------------ *)
(** ** The token call in the run *)

Section Token.
Context {host : Host}.

(** What a Drive call leaves alone in the state of the run, whatever its
    token call does: the provider, the folder id, [fileMap], the two
    snapshot maps and what has been shown. *)
Definition same_maps (r r' : Run) : Prop :=
  cloudProvider (settings r') = cloudProvider (settings r)
  /\ googleDriveAppFolderId (settings r')
     = googleDriveAppFolderId (settings r)
  /\ fileMap (settings r') = fileMap (settings r)
  /\ localFiles r' = localFiles r
  /\ remoteFilesMap r' = remoteFilesMap r
  /\ shown r' = shown r.

(** What the token call leaves alone in the world: everything but the
    saved settings and the count of refresh requests. *)
Definition same_stores (w w' : World) : Prop :=
  vault w' = vault w
  /\ drive w' = drive w
  /\ clock w' = clock w
  /\ listings w' = listings w
  /\ minted w' = minted w.

Lemma same_maps_refl r : same_maps r r.
Proof. now repeat split. Qed.

Lemma same_maps_trans a b c : same_maps a b -> same_maps b c -> same_maps a c.
Proof.
  intros (A1 & A2 & A3 & A4 & A5 & A6) (B1 & B2 & B3 & B4 & B5 & B6).
  repeat split; congruence.
Qed.

Lemma same_maps_fileMapOf r r' : same_maps r r' -> fileMapOf r' = fileMapOf r.
Proof. intros (_ & _ & F & _). unfold fileMapOf. now rewrite F. Qed.

Lemma getValidGoogleDriveToken_frame r :
  same_maps r (snd (getValidGoogleDriveToken r))
  /\ same_stores (world r) (world (snd (getValidGoogleDriveToken r))).
Proof.
  unfold getValidGoogleDriveToken.
  destruct (Auth.getValidGoogleDriveToken _ _ _ _) as [token a].
  destruct (Auth.saved a); now repeat split.
Qed.

(** The token call does not look at what has been shown. *)
Lemma getValidGoogleDriveToken_show e r :
  getValidGoogleDriveToken (show e r)
  = (fst (getValidGoogleDriveToken r),
     show e (snd (getValidGoogleDriveToken r))).
Proof.
  unfold getValidGoogleDriveToken. cbn [world settings show].
  destruct (Auth.getValidGoogleDriveToken _ _ _ _) as [token a].
  destruct (Auth.saved a); reflexivity.
Qed.

Lemma withToken_show {A : Type} (failure : A) request e r :
  withToken failure request (show e r)
  = (fst (withToken failure request r),
     show e (snd (withToken failure request r))).
Proof.
  unfold withToken. rewrite getValidGoogleDriveToken_show.
  destruct (getValidGoogleDriveToken r) as [token r0]. cbn [fst snd].
  destruct (Js.truthy token); [|reflexivity].
  cbn [world show]. now destruct (request (world r0)).
Qed.

(** A Drive call leaves the maps of the run alone. *)
Lemma withToken_maps {A : Type} (failure : A) request r :
  same_maps r (snd (withToken failure request r)).
Proof.
  unfold withToken.
  destruct (getValidGoogleDriveToken_frame r) as [M _].
  destruct (getValidGoogleDriveToken r) as [token r0]. cbn [snd] in M.
  destruct (Js.truthy token); [|exact M].
  now destruct (request (world r0)).
Qed.

(** What a Drive call does to the world is what its request does to the
    world the token call leaves, which has the same stores. *)
Lemma withToken_world {A : Type} (failure : A) request r :
  exists w0,
    same_stores (world r) w0
    /\ ((fst (withToken failure request r) = failure
         /\ world (snd (withToken failure request r)) = w0)
        \/ (fst (withToken failure request r),
            world (snd (withToken failure request r)))
           = request w0).
Proof.
  unfold withToken.
  destruct (getValidGoogleDriveToken_frame r) as [_ S].
  destruct (getValidGoogleDriveToken r) as [token r0]. cbn [snd] in S.
  exists (world r0). split; [exact S|].
  destruct (Js.truthy token); [|now left].
  right. now destruct (request (world r0)).
Qed.

End Token.

Section Steps.
Context {host : Host}.

(** *** What a step leaves alone *)

Lemma backupLocal_fileMap p r : fileMapOf (backupLocal p r) = fileMapOf r.
Proof. unfold backupLocal. break_all; reflexivity. Qed.

Lemma backupLocal_remoteFilesMap p r :
  remoteFilesMap (backupLocal p r) = remoteFilesMap r.
Proof. unfold backupLocal. break_all; reflexivity. Qed.

(** The decision is an upload only outside the conflict branch. *)
Lemma classifyUpload_conflict_skips m ls cur :
  snd (classifyUpload m ls cur) = CONFLICT ->
  fst (classifyUpload m ls cur) = skip.
Proof. unfold classifyUpload. break_all. Qed.

Lemma classifyUpload_ops m ls cur :
  let op := fst (classifyUpload m ls cur) in
  op = upload_new \/ op = upload_update \/ op = skip.
Proof. unfold classifyUpload. break_all; auto. Qed.

Lemma classifyDownload_ops l m rf :
  let op := fst (classifyDownload l m rf) in
  op = download_new \/ op = download_update \/ op = skip.
Proof. unfold classifyDownload. break_all; auto. Qed.

(** An upload step that does not upload leaves [fileMap] as it is. *)
Lemma uploadStep_skip p ls r :
  fst (classifyUpload (OMap.get p (fileMapOf r)) ls
                      (OMap.get p (remoteFilesMap r))) = skip ->
  fileMapOf (uploadStep p ls r) = fileMapOf r.
Proof.
  unfold uploadStep.
  destruct (classifyUpload _ _ _) as [op reason]. simpl. intros ->.
  destruct reason; simpl; autorewrite with run;
    auto using backupLocal_fileMap.
Qed.

(** The shape of an upload step that uploads. *)
Lemma uploadStep_uploads p ls r op reason :
  classifyUpload (OMap.get p (fileMapOf r)) ls
                 (OMap.get p (remoteFilesMap r)) = (op, reason) ->
  op <> skip ->
  uploadStep p ls r
  = executeUpload p ls op (OMap.get p (fileMapOf r))
                  (show (LogFile p op reason) r).
Proof.
  intros E N. unfold uploadStep. rewrite E.
  assert (R : reason <> CONFLICT).
  { intros ->. apply N.
    pose proof (classifyUpload_conflict_skips
                  (OMap.get p (fileMapOf r)) ls
                  (OMap.get p (remoteFilesMap r))) as C.
    rewrite E in C. now apply C. }
  pose proof (classifyUpload_ops (OMap.get p (fileMapOf r)) ls
                                 (OMap.get p (remoteFilesMap r))) as O.
  rewrite E in O. simpl in O.
  destruct reason; try congruence;
    destruct O as [-> | [-> | ->]]; congruence.
Qed.

(** The Drive calls of the steps leave the maps of the run alone and do
    not look at what has been shown. *)
Lemma uploadCall_maps p op m c r : same_maps r (snd (uploadCall p op m c r)).
Proof. apply withToken_maps. Qed.

Lemma uploadCall_show p op m c e r :
  uploadCall p op m c (show e r)
  = (fst (uploadCall p op m c r), show e (snd (uploadCall p op m c r))).
Proof. apply withToken_show. Qed.

Lemma listGoogleDriveFiles_maps r :
  same_maps r (snd (listGoogleDriveFiles r)).
Proof. apply withToken_maps. Qed.

Lemma updatedRemoteFileOf_maps p rid r :
  same_maps r (snd (updatedRemoteFileOf p rid r)).
Proof.
  unfold updatedRemoteFileOf.
  destruct (OMap.get p (remoteFilesMap r)); [apply same_maps_refl|].
  pose proof (listGoogleDriveFiles_maps r) as M.
  now destruct (listGoogleDriveFiles r).
Qed.

Lemma updatedRemoteFileOf_show p rid e r :
  updatedRemoteFileOf p rid (show e r)
  = (fst (updatedRemoteFileOf p rid r),
     show e (snd (updatedRemoteFileOf p rid r))).
Proof.
  unfold updatedRemoteFileOf. cbn [remoteFilesMap show].
  destruct (OMap.get p (remoteFilesMap r)); [reflexivity|].
  unfold listGoogleDriveFiles. rewrite withToken_show.
  now destruct (withToken [] listFilesRequest r).
Qed.

Lemma downloadGoogleDriveFile_maps fid r :
  same_maps r (snd (downloadGoogleDriveFile fid r)).
Proof. apply withToken_maps. Qed.

Lemma downloadGoogleDriveFile_show fid e r :
  downloadGoogleDriveFile fid (show e r)
  = (fst (downloadGoogleDriveFile fid r),
     show e (snd (downloadGoogleDriveFile fid r))).
Proof. apply withToken_show. Qed.

Lemma deleteGoogleDriveFile_maps fid r :
  same_maps r (snd (deleteGoogleDriveFile fid r)).
Proof. apply withToken_maps. Qed.

Lemma deleteGoogleDriveFile_show fid e r :
  deleteGoogleDriveFile fid (show e r)
  = (fst (deleteGoogleDriveFile fid r),
     show e (snd (deleteGoogleDriveFile fid r))).
Proof. apply withToken_show. Qed.

(** What [executeUpload] does to [fileMap]: nothing, or the entry of the
    uploaded path after a request that returned an id. *)
Lemma executeUpload_fileMap p ls op m r :
  fileMapOf (executeUpload p ls op m r) = fileMapOf r
  \/ exists c a rid' r1 upd,
       readBinary p (world r) = returned c
       /\ uploadCall p op m c r = (Some (String a rid'), r1)
       /\ upd = fst (updatedRemoteFileOf p (String a rid') r1)
       /\ fileMapOf (executeUpload p ls op m r)
          = OMap.set p (uploadedEntry (String a rid') ls upd) (fileMapOf r).
Proof.
  unfold executeUpload.
  destruct (readBinary p (world r)) as [c|] eqn:R; [|now left].
  pose proof (uploadCall_maps p op m c r) as M1.
  destruct (uploadCall p op m c r) as [[[|a rid']|] r1] eqn:U;
    cbn [snd] in M1;
    try (left; rewrite fileMapOf_show; now apply same_maps_fileMapOf).
  right. exists c, a, rid', r1.
  pose proof (updatedRemoteFileOf_maps p (String a rid') r1) as M2.
  destruct (updatedRemoteFileOf p (String a rid') r1) as [upd r2] eqn:G.
  cbn [snd] in M2.
  exists upd. cbn [fst]. repeat split; auto.
  rewrite (same_maps_fileMapOf _ _ M2), (same_maps_fileMapOf _ _ M1).
  destruct upd; reflexivity.
Qed.

(** What an upload step does to [fileMap]: nothing, or the entry of its
    own path after a read and a request that both succeeded. *)
Lemma uploadStep_fileMap p ls r :
  let m := OMap.get p (fileMapOf r) in
  let op := fst (classifyUpload m ls (OMap.get p (remoteFilesMap r))) in
  fileMapOf (uploadStep p ls r) = fileMapOf r
  \/ exists c a rid' r1 upd,
       readBinary p (world r) = returned c
       /\ uploadCall p op m c r = (Some (String a rid'), r1)
       /\ upd = fst (updatedRemoteFileOf p (String a rid') r1)
       /\ fileMapOf (uploadStep p ls r)
          = OMap.set p (uploadedEntry (String a rid') ls upd) (fileMapOf r).
Proof.
  cbv zeta.
  destruct (classifyUpload (OMap.get p (fileMapOf r)) ls
                           (OMap.get p (remoteFilesMap r)))
    as [op reason] eqn:E. cbn [fst].
  destruct (Operation_eqb op skip) eqn:S.
  - left. apply uploadStep_skip. rewrite E. simpl.
    destruct op; simpl in S; congruence.
  - assert (N : op <> skip) by (intros Q; rewrite Q in S; discriminate).
    rewrite (uploadStep_uploads p ls r op reason E N).
    destruct (executeUpload_fileMap p ls op (OMap.get p (fileMapOf r))
                                    (show (LogFile p op reason) r))
      as [H | (c & a & rid' & r1 & upd & R & U & G & F)]; [now left|].
    right. rewrite uploadCall_show in U. inversion U as [[U1 U2]].
    exists c, a, rid', (snd (uploadCall p op (OMap.get p (fileMapOf r)) c r)),
           upd.
    split; [exact R|]. split.
    { rewrite <- U1. now destruct (uploadCall _ _ _ _ r). }
    split; [|exact F].
    subst r1. now rewrite updatedRemoteFileOf_show in G.
Qed.

Lemma uploadStep_other p q ls r :
  q <> p ->
  OMap.get q (fileMapOf (uploadStep p ls r)) = OMap.get q (fileMapOf r).
Proof.
  intros N. destruct (uploadStep_fileMap p ls r) as [-> | H]; auto.
  destruct H as (c & a & rid' & w1 & upd & _ & _ & _ & ->).
  now apply get_set_other.
Qed.

(** What a download step does to [fileMap]: nothing, or the entry of its
    own path after a download and a local write that both succeeded. *)
Lemma downloadStep_fileMap p rf r :
  let op := fst (classifyDownload (OMap.get p (localFiles r))
                                  (OMap.get p (fileMapOf r)) rf) in
  fileMapOf (downloadStep p rf r) = fileMapOf r
  \/ exists c r0 w1 st,
       (op = download_new \/ op = download_update)
       /\ downloadGoogleDriveFile (id rf) r = (Some c, r0)
       /\ writeDownloaded p op c (world r0) = returned w1
       /\ stat p w1 = returned st
       /\ world (downloadStep p rf r) = w1
       /\ fileMapOf (downloadStep p rf r)
          = OMap.set p (downloadedEntry rf st (clock w1)) (fileMapOf r).
Proof.
  intros op. unfold downloadStep. subst op.
  destruct (classifyDownload _ _ rf) as [op reason] eqn:E. simpl.
  pose proof (classifyDownload_ops (OMap.get p (localFiles r))
                                   (OMap.get p (fileMapOf r)) rf) as O.
  rewrite E in O. simpl in O.
  assert (X : forall op', op' = op -> op = download_new \/ op = download_update ->
    fileMapOf (executeDownload p rf op' (show (LogRemoteFile p op reason) r))
    = fileMapOf r
    \/ exists c r0 w1 st,
       (op = download_new \/ op = download_update)
       /\ downloadGoogleDriveFile (id rf) r = (Some c, r0)
       /\ writeDownloaded p op c (world r0) = returned w1
       /\ stat p w1 = returned st
       /\ world (executeDownload p rf op' (show (LogRemoteFile p op reason) r)) = w1
       /\ fileMapOf (executeDownload p rf op' (show (LogRemoteFile p op reason) r))
          = OMap.set p (downloadedEntry rf st (clock w1)) (fileMapOf r)).
  { intros op' -> D. unfold executeDownload.
    rewrite downloadGoogleDriveFile_show.
    pose proof (downloadGoogleDriveFile_maps (id rf) r) as M.
    destruct (downloadGoogleDriveFile (id rf) r) as [[c|] r0] eqn:G;
      cbn [fst snd] in *;
      [|left; autorewrite with run; now apply same_maps_fileMapOf].
    cbn [world show].
    destruct (writeDownloaded p op c (world r0)) as [w1|] eqn:W;
      [|left; autorewrite with run; now apply same_maps_fileMapOf].
    destruct (stat p w1) as [st|] eqn:S;
      [|left; autorewrite with run; now apply same_maps_fileMapOf].
    right. exists c, r0, w1, st. repeat split; auto.
    autorewrite with run. now rewrite (same_maps_fileMapOf _ _ M). }
  destruct O as [-> | [-> | ->]]; [apply X | apply X | now left]; auto.
Qed.

Lemma downloadStep_other p q rf r :
  q <> p ->
  OMap.get q (fileMapOf (downloadStep p rf r)) = OMap.get q (fileMapOf r).
Proof.
  intros N. destruct (downloadStep_fileMap p rf r) as [-> | H]; auto.
  destruct H as (c & r0 & w1 & st & _ & _ & _ & _ & _ & ->).
  now apply get_set_other.
Qed.

(** The four outcomes of a local-deletion step. *)
Lemma localDeletionStep_no_entry p r :
  OMap.get p (fileMapOf r) = None -> localDeletionStep p r = r.
Proof. unfold localDeletionStep. now intros ->. Qed.

Lemma localDeletionStep_present p r :
  OMap.has p (localFiles r) = true -> localDeletionStep p r = r.
Proof. unfold localDeletionStep. intros ->. now destruct (OMap.get _ _). Qed.

Lemma localDeletionStep_deleted p m r2 r :
  OMap.get p (fileMapOf r) = Some m ->
  OMap.has p (localFiles r) = false ->
  deleteGoogleDriveFile (remoteId m) r = (true, r2) ->
  localDeletionStep p r
  = show (DeletedRemote p)
         (with_fileMap (OMap.delete p (fileMapOf r))
                       (show (DeletingRemote p) r2)).
Proof.
  unfold localDeletionStep. intros -> -> D.
  pose proof (deleteGoogleDriveFile_maps (remoteId m) r) as M.
  rewrite deleteGoogleDriveFile_show, D. rewrite D in M. cbn [fst snd] in *.
  now rewrite fileMapOf_show, (same_maps_fileMapOf _ _ M).
Qed.

Lemma localDeletionStep_failed p m r2 r :
  OMap.get p (fileMapOf r) = Some m ->
  OMap.has p (localFiles r) = false ->
  deleteGoogleDriveFile (remoteId m) r = (false, r2) ->
  localDeletionStep p r
  = show (DeleteRemoteFailed p) (show (DeletingRemote p) r2).
Proof.
  unfold localDeletionStep. intros -> -> D.
  now rewrite deleteGoogleDriveFile_show, D.
Qed.

(** The outcomes of a remote-deletion step. *)
Lemma remoteDeletionStep_no_entry p r :
  OMap.get p (fileMapOf r) = None -> remoteDeletionStep p r = r.
Proof. unfold remoteDeletionStep. now intros ->. Qed.

Lemma remoteDeletionStep_present p r :
  OMap.has p (remoteFilesMap r) = true -> remoteDeletionStep p r = r.
Proof. unfold remoteDeletionStep. intros ->. now destruct (OMap.get _ _). Qed.

Lemma remoteDeletionStep_no_file p m r :
  OMap.get p (fileMapOf r) = Some m ->
  OMap.has p (remoteFilesMap r) = false ->
  getAbstractFileByPath p (world r) = None ->
  remoteDeletionStep p r = with_fileMap (OMap.delete p (fileMapOf r)) r.
Proof. unfold remoteDeletionStep. now intros -> -> ->. Qed.

Lemma remoteDeletionStep_deleted p m f w1 r :
  OMap.get p (fileMapOf r) = Some m ->
  OMap.has p (remoteFilesMap r) = false ->
  getAbstractFileByPath p (world r) = Some f ->
  vault_delete p (world r) = returned w1 ->
  remoteDeletionStep p r
  = with_fileMap (OMap.delete p (fileMapOf r))
                 (show (DeletedLocal p)
                       (with_world w1 (show (DeletingLocal p) r))).
Proof.
  unfold remoteDeletionStep. intros -> -> -> D. simpl. now rewrite D.
Qed.

Lemma remoteDeletionStep_failed p m f r :
  OMap.get p (fileMapOf r) = Some m ->
  OMap.has p (remoteFilesMap r) = false ->
  getAbstractFileByPath p (world r) = Some f ->
  vault_delete p (world r) = thrown ->
  remoteDeletionStep p r
  = show (DeleteLocalError p) (show (DeletingLocal p) r).
Proof.
  unfold remoteDeletionStep. intros -> -> -> D. simpl. now rewrite D.
Qed.

End Steps.

(* ------------------------------------------------------------------ *)
(** ** The deletion passes *)

Section Deletions.
Context {host : Host}.

Lemma findFile_filter_same p v :
  findFile p (filter (fun f => negb (String.eqb (vpath f) p)) v) = None.
Proof.
  unfold findFile. induction v as [|f v IH]; simpl; auto.
  destruct (String.eqb (vpath f) p) eqn:E; simpl; auto. now rewrite E.
Qed.

Lemma findFile_filter_other p k v :
  p <> k ->
  findFile p (filter (fun f => negb (String.eqb (vpath f) k)) v) = findFile p v.
Proof.
  intros N. unfold findFile. induction v as [|f v IH]; simpl; auto.
  destruct (String.eqb (vpath f) k) eqn:E; simpl.
  - apply String.eqb_eq in E.
    destruct (String.eqb (vpath f) p) eqn:E2; auto.
    apply String.eqb_eq in E2. congruence.
  - now rewrite IH.
Qed.

Lemma findDrive_filter_same fid d :
  findDrive fid (filter (fun o => negb (String.eqb (id (fst o)) fid)) d) = None.
Proof.
  unfold findDrive. induction d as [|o d IH]; simpl; auto.
  destruct (String.eqb (id (fst o)) fid) eqn:E; simpl; auto. now rewrite E.
Qed.

Lemma findDrive_filter_none x (g : DriveFile * string -> bool) d :
  findDrive x d = None -> findDrive x (filter g d) = None.
Proof.
  unfold findDrive. induction d as [|o d IH]; simpl; auto.
  destruct (String.eqb (id (fst o)) x) eqn:E; [discriminate|].
  intros H. destruct (g o); simpl; [rewrite E|]; auto.
Qed.

(** A Drive delete touches the Drive folder only, and only removes. *)
Lemma deleteFileRequest_frame fid w b w1 :
  deleteFileRequest fid w = (b, w1) ->
  vault w1 = vault w /\ persisted w1 = persisted w
  /\ (forall x, findDrive x (drive w) = None -> findDrive x (drive w1) = None)
  /\ (b = true -> findDrive fid (drive w1) = None)
  /\ (b = false -> w1 = w).
Proof.
  unfold deleteFileRequest.
  repeat break_match; intros H; inversion H; subst; simpl;
    repeat split; auto; try discriminate;
    auto using findDrive_filter_none, findDrive_filter_same.
Qed.

(** The same of the whole call, token included. *)
Lemma deleteGoogleDriveFile_frame fid r b r2 :
  deleteGoogleDriveFile fid r = (b, r2) ->
  same_maps r r2
  /\ vault (world r2) = vault (world r)
  /\ (forall x, findDrive x (drive (world r)) = None ->
                findDrive x (drive (world r2)) = None)
  /\ (b = true -> findDrive fid (drive (world r2)) = None)
  /\ (b = false -> drive (world r2) = drive (world r)).
Proof.
  intros D.
  pose proof (deleteGoogleDriveFile_maps fid r) as M.
  destruct (withToken_world false (deleteFileRequest fid) r)
    as (w0 & (V0 & D0 & _) & Q).
  unfold deleteGoogleDriveFile in *. rewrite D in *. cbn [fst snd] in *.
  split; [exact M|].
  destruct Q as [[-> ->] | Q].
  - rewrite V0, D0. repeat split; auto. discriminate.
  - symmetry in Q.
    destruct (deleteFileRequest_frame _ _ _ _ Q) as (V & _ & N & T & F).
    rewrite V, V0. split; [reflexivity|]. split.
    { intros x X. apply N. now rewrite D0. }
    split; [exact T|]. intros B. rewrite (F B). exact D0.
Qed.

(** When the call answers [true]: there is a token, Drive accepts it, the
    request does not fail, and the object is there. *)
Lemma deleteGoogleDriveFile_answer fid r :
  fst (deleteGoogleDriveFile fid r) = true
  <-> Js.truthy (fst (getValidGoogleDriveToken r)) = true
      /\ authorized faults = true
      /\ removeFails faults fid = false
      /\ findDrive fid (drive (world r)) <> None.
Proof.
  unfold deleteGoogleDriveFile, withToken.
  destruct (getValidGoogleDriveToken_frame r) as [_ (_ & D & _)].
  destruct (getValidGoogleDriveToken r) as [token r0]. cbn [fst snd] in *.
  destruct (Js.truthy token); cbn [fst].
  2:{ split; [discriminate | now intros (X & _)]. }
  unfold deleteFileRequest. rewrite D.
  destruct (authorized faults); cbn [negb fst].
  2:{ split; [discriminate | now intros (_ & X & _)]. }
  destruct (removeFails faults fid); cbn [fst].
  { split; [discriminate | now intros (_ & _ & X & _)]. }
  destruct (findDrive fid (drive (world r))); cbn [fst].
  - split; auto. intros _. repeat split; auto. discriminate.
  - split; [discriminate | now intros (_ & _ & _ & X)].
Qed.

(** What a local-deletion step may do between two run states: remove
    Drive objects, empty entries of [fileMap], show notices (and what its
    token call does). *)
Definition drive_shrinks (r r' : Run) : Prop :=
  localFiles r' = localFiles r
  /\ remoteFilesMap r' = remoteFilesMap r
  /\ vault (world r') = vault (world r)
  /\ (forall x, findDrive x (drive (world r)) = None ->
                findDrive x (drive (world r')) = None)
  /\ (exists evs, shown r' = shown r ++ evs).

Lemma drive_shrinks_refl r : drive_shrinks r r.
Proof.
  repeat split; auto. exists []. now rewrite app_nil_r.
Qed.

Lemma drive_shrinks_trans a b c :
  drive_shrinks a b -> drive_shrinks b c -> drive_shrinks a c.
Proof.
  intros (L1 & R1 & V1 & D1 & e1 & S1) (L2 & R2 & V2 & D2 & e2 & S2).
  repeat split; try congruence; auto.
  exists (e1 ++ e2). now rewrite S2, S1, app_assoc.
Qed.

Lemma localDeletionStep_shrinks p r : drive_shrinks r (localDeletionStep p r).
Proof.
  destruct (OMap.get p (fileMapOf r)) as [m|] eqn:G.
  2:{ rewrite localDeletionStep_no_entry; auto using drive_shrinks_refl. }
  destruct (OMap.has p (localFiles r)) eqn:H.
  { rewrite localDeletionStep_present; auto using drive_shrinks_refl. }
  destruct (deleteGoogleDriveFile (remoteId m) r) as [[|] r2] eqn:D;
    destruct (deleteGoogleDriveFile_frame _ _ _ _ D)
    as ((_ & _ & _ & L & R & S) & V & M & _).
  - rewrite (localDeletionStep_deleted p m r2 r G H D).
    repeat split; simpl; auto.
    exists [DeletingRemote p; DeletedRemote p].
    now rewrite S, <- app_assoc.
  - rewrite (localDeletionStep_failed p m r2 r G H D).
    repeat split; simpl; auto.
    exists [DeletingRemote p; DeleteRemoteFailed p].
    now rewrite S, <- app_assoc.
Qed.

Lemma localDeletionStep_other p q r :
  q <> p ->
  OMap.get q (fileMapOf (localDeletionStep p r)) = OMap.get q (fileMapOf r).
Proof.
  intros N.
  destruct (OMap.get p (fileMapOf r)) as [m|] eqn:G.
  2:{ now rewrite localDeletionStep_no_entry. }
  destruct (OMap.has p (localFiles r)) eqn:H.
  { now rewrite localDeletionStep_present. }
  destruct (deleteGoogleDriveFile (remoteId m) r) as [[|] r2] eqn:D;
    destruct (deleteGoogleDriveFile_frame _ _ _ _ D) as (M & _).
  - rewrite (localDeletionStep_deleted p m r2 r G H D).
    autorewrite with run. now apply get_delete_other.
  - rewrite (localDeletionStep_failed p m r2 r G H D).
    autorewrite with run. now rewrite (same_maps_fileMapOf _ _ M).
Qed.

(** A pass is its step folded over a list of keys; what every step
    guarantees between two states, the pass guarantees too. *)
Lemma fold_steps (step : string -> Run -> Run) (Q : Run -> Run -> Prop) :
  (forall r, Q r r) ->
  (forall a b c, Q a b -> Q b c -> Q a c) ->
  (forall k r, Q r (step k r)) ->
  forall ks r, Q r (fold_left (fun r' k => step k r') ks r).
Proof.
  intros Hr Ht Hs ks. induction ks as [|k ks IH]; intros r; simpl; auto.
  eapply Ht; [apply Hs | apply IH].
Qed.

(** What the step on one key leaves alone for every other key, the pass
    leaves alone for every key it does not step on. *)
Lemma fold_steps_other {X : Type} (obs : string -> Run -> X)
    (step : string -> Run -> Run) :
  (forall p q r, q <> p -> obs q (step p r) = obs q r) ->
  forall ks q r, ~ In q ks ->
    obs q (fold_left (fun r' k => step k r') ks r) = obs q r.
Proof.
  intros Hs ks. induction ks as [|k ks IH]; intros q r N; simpl; auto.
  rewrite IH by (simpl in N; tauto).
  apply Hs. simpl in N. intros ->. tauto.
Qed.

Definition entryOf (p : string) (r : Run) : option FileSyncState :=
  OMap.get p (fileMapOf r).

Definition vaultFileOf (p : string) (r : Run) : option VaultFile :=
  findFile p (vault (world r)).

(** The pass comes to each key once: the steps before the turn of a key
    and the steps after it leave its entry alone. *)
Lemma localDeletions_turn ks :
  NoDup ks ->
  forall p, In p ks ->
  exists ks1 ks2,
    ks = ks1 ++ p :: ks2
    /\ forall r,
        let r' := fold_left (fun a k => localDeletionStep k a) ks1 r in
        let r1 := fold_left (fun a k => localDeletionStep k a) ks r in
        OMap.get p (fileMapOf r') = OMap.get p (fileMapOf r)
        /\ drive_shrinks r r'
        /\ OMap.get p (fileMapOf r1)
           = OMap.get p (fileMapOf (localDeletionStep p r'))
        /\ drive_shrinks (localDeletionStep p r') r1.
Proof.
  intros ND p I. destruct (in_split p ks I) as (ks1 & ks2 & ->).
  exists ks1, ks2. split; [reflexivity|]. intros r r' r1.
  apply NoDup_remove_2 in ND.
  assert (N1 : ~ In p ks1) by (intros X; apply ND, in_or_app; now left).
  assert (N2 : ~ In p ks2) by (intros X; apply ND, in_or_app; now right).
  assert (E : r1 = fold_left (fun a k => localDeletionStep k a) ks2
                             (localDeletionStep p r')).
  { subst r1 r'. now rewrite fold_left_app. }
  split; [|split; [|split]].
  - exact (fold_steps_other entryOf localDeletionStep
             localDeletionStep_other ks1 p r N1).
  - apply (fold_steps localDeletionStep drive_shrinks drive_shrinks_refl
             drive_shrinks_trans localDeletionStep_shrinks).
  - rewrite E.
    exact (fold_steps_other entryOf localDeletionStep
             localDeletionStep_other ks2 p _ N2).
  - rewrite E.
    apply (fold_steps localDeletionStep drive_shrinks drive_shrinks_refl
             drive_shrinks_trans localDeletionStep_shrinks).
Qed.

(** What a remote-deletion step may do between two run states: remove
    vault files, empty entries of [fileMap], show notices. *)
Definition vault_shrinks (r r' : Run) : Prop :=
  localFiles r' = localFiles r
  /\ remoteFilesMap r' = remoteFilesMap r
  /\ drive (world r') = drive (world r)
  /\ persisted (world r') = persisted (world r)
  /\ (exists evs, shown r' = shown r ++ evs).

Lemma vault_shrinks_refl r : vault_shrinks r r.
Proof.
  repeat split; auto. exists []. now rewrite app_nil_r.
Qed.

Lemma vault_shrinks_trans a b c :
  vault_shrinks a b -> vault_shrinks b c -> vault_shrinks a c.
Proof.
  intros (L1 & R1 & V1 & P1 & e1 & S1) (L2 & R2 & V2 & P2 & e2 & S2).
  repeat split; try congruence.
  exists (e1 ++ e2). now rewrite S2, S1, app_assoc.
Qed.

Lemma vault_delete_returns p w :
  vault_delete p w
  = if deleteThrows faults p then thrown
    else returned (mkWorld
                     (filter (fun f => negb (String.eqb (vpath f) p)) (vault w))
                     (drive w) (clock w) (listings w) (minted w) (persisted w)
                   (refreshes w)).
Proof. reflexivity. Qed.

(** The three ways a remote-deletion step ends for an entry whose path is
    absent from the remote snapshot. *)
Lemma remoteDeletionStep_cases p m r :
  OMap.get p (fileMapOf r) = Some m ->
  OMap.has p (remoteFilesMap r) = false ->
  match findFile p (vault (world r)) with
  | None => remoteDeletionStep p r = with_fileMap (OMap.delete p (fileMapOf r)) r
  | Some f =>
      if deleteThrows faults p
      then remoteDeletionStep p r
           = show (DeleteLocalError p) (show (DeletingLocal p) r)
      else exists w1,
          vault w1 = filter (fun f => negb (String.eqb (vpath f) p))
                            (vault (world r))
          /\ drive w1 = drive (world r)
          /\ persisted w1 = persisted (world r)
          /\ remoteDeletionStep p r
             = with_fileMap (OMap.delete p (fileMapOf r))
                 (show (DeletedLocal p)
                       (with_world w1 (show (DeletingLocal p) r)))
  end.
Proof.
  intros G H.
  destruct (findFile p (vault (world r))) as [f|] eqn:E.
  - pose proof (vault_delete_returns p (world r)) as D.
    destruct (deleteThrows faults p).
    + now apply (remoteDeletionStep_failed p m f r).
    + exists (mkWorld
                (filter (fun f => negb (String.eqb (vpath f) p))
                        (vault (world r)))
                (drive (world r)) (clock (world r)) (listings (world r))
                (minted (world r)) (persisted (world r))
                (refreshes (world r))).
      split; [reflexivity|]. split; [reflexivity|]. split; [reflexivity|].
      exact (remoteDeletionStep_deleted p m f _ r G H E D).
  - now apply (remoteDeletionStep_no_file p m r).
Qed.

Lemma remoteDeletionStep_shrinks p r : vault_shrinks r (remoteDeletionStep p r).
Proof.
  destruct (OMap.get p (fileMapOf r)) as [m|] eqn:G.
  2:{ rewrite remoteDeletionStep_no_entry; auto using vault_shrinks_refl. }
  destruct (OMap.has p (remoteFilesMap r)) eqn:H.
  { rewrite remoteDeletionStep_present; auto using vault_shrinks_refl. }
  pose proof (remoteDeletionStep_cases p m r G H) as C.
  destruct (findFile p (vault (world r))) as [f|].
  - destruct (deleteThrows faults p).
    + rewrite C. repeat split; simpl; auto.
      exists [DeletingLocal p; DeleteLocalError p]. now rewrite <- app_assoc.
    + destruct C as (w1 & V & D & P & ->). repeat split; simpl; auto.
      exists [DeletingLocal p; DeletedLocal p]. now rewrite <- app_assoc.
  - rewrite C. repeat split; simpl; auto.
    exists []. now rewrite app_nil_r.
Qed.

Lemma remoteDeletionStep_other p q r :
  q <> p -> entryOf q (remoteDeletionStep p r) = entryOf q r.
Proof.
  intros N. unfold entryOf, remoteDeletionStep.
  repeat break_match; autorewrite with run; auto using get_delete_other.
Qed.

Lemma remoteDeletionStep_vault_other p q r :
  q <> p -> vaultFileOf q (remoteDeletionStep p r) = vaultFileOf q r.
Proof.
  intros N. unfold vaultFileOf.
  destruct (OMap.get p (fileMapOf r)) as [m|] eqn:G.
  2:{ now rewrite remoteDeletionStep_no_entry. }
  destruct (OMap.has p (remoteFilesMap r)) eqn:H.
  { now rewrite remoteDeletionStep_present. }
  pose proof (remoteDeletionStep_cases p m r G H) as C.
  destruct (findFile p (vault (world r))) as [f|].
  - destruct (deleteThrows faults p).
    + now rewrite C.
    + destruct C as (w1 & V & _ & _ & ->). simpl. rewrite V.
      now apply findFile_filter_other.
  - now rewrite C.
Qed.

(** The outcome of the remote-deletions pass for one entry. *)
Definition remoteDeletionOutcome (p : string) (m : FileSyncState)
    (present : bool) (before : option VaultFile) (r2 : Run) : Prop :=
  if present
  then entryOf p r2 = Some m /\ vaultFileOf p r2 = before
  else match before with
       | Some f =>
           if deleteThrows faults p
           then entryOf p r2 = Some m /\ vaultFileOf p r2 = Some f
           else entryOf p r2 = None /\ vaultFileOf p r2 = None
       | None => entryOf p r2 = None /\ vaultFileOf p r2 = None
       end.

Lemma remoteDeletions_fold ks :
  NoDup ks ->
  forall r p m,
    In p ks -> entryOf p r = Some m ->
    remoteDeletionOutcome p m (OMap.has p (remoteFilesMap r)) (vaultFileOf p r)
      (fold_left (fun r' k => remoteDeletionStep k r') ks r).
Proof.
  induction 1 as [|k ks Nk ND IH]; intros r p m I G; [destruct I|].
  simpl. destruct I as [<- | I].
  - unfold remoteDeletionOutcome.
    rewrite (fold_steps_other entryOf remoteDeletionStep
               remoteDeletionStep_other ks k _ Nk).
    rewrite (fold_steps_other vaultFileOf remoteDeletionStep
               remoteDeletionStep_vault_other ks k _ Nk).
    destruct (OMap.has k (remoteFilesMap r)) eqn:H.
    { rewrite remoteDeletionStep_present; auto. }
    pose proof (remoteDeletionStep_cases k m r G H) as C.
    unfold vaultFileOf at 1.
    destruct (findFile k (vault (world r))) as [f|] eqn:E.
    + destruct (deleteThrows faults k).
      * rewrite C. split; [exact G | exact E].
      * destruct C as (w1 & V & _ & _ & ->). unfold entryOf, vaultFileOf.
        autorewrite with run. simpl. rewrite V.
        split; [apply get_delete_same | apply findFile_filter_same].
    + rewrite C. unfold entryOf, vaultFileOf. autorewrite with run. simpl.
      split; [apply get_delete_same | exact E].
  - assert (N : p <> k) by (intros ->; contradiction).
    specialize (IH (remoteDeletionStep k r) p m I).
    rewrite (remoteDeletionStep_other k p r N) in IH.
    rewrite (remoteDeletionStep_vault_other k p r N) in IH.
    destruct (remoteDeletionStep_shrinks k r) as (_ & R & _).
    rewrite R in IH. auto.
Qed.

Lemma keys_delete {V : Type} (k : string) (m : list (string * V)) :
  OMap.keys (OMap.delete k m)
  = filter (fun k' => negb (String.eqb k k')) (OMap.keys m).
Proof.
  induction m as [|[k' v] m IH]; simpl; auto.
  destruct (String.eqb k k'); simpl; now rewrite IH.
Qed.

Lemma NoDup_keys_delete {V : Type} (k : string) (m : list (string * V)) :
  NoDup (OMap.keys m) -> NoDup (OMap.keys (OMap.delete k m)).
Proof. rewrite keys_delete. apply NoDup_filter. Qed.

Lemma localDeletionStep_NoDup p r :
  NoDup (OMap.keys (fileMapOf r)) ->
  NoDup (OMap.keys (fileMapOf (localDeletionStep p r))).
Proof.
  intros ND.
  destruct (OMap.get p (fileMapOf r)) as [m|] eqn:G.
  2:{ now rewrite localDeletionStep_no_entry. }
  destruct (OMap.has p (localFiles r)) eqn:H.
  { now rewrite localDeletionStep_present. }
  destruct (deleteGoogleDriveFile (remoteId m) r) as [[|] r2] eqn:D;
    destruct (deleteGoogleDriveFile_frame _ _ _ _ D) as (M & _).
  - rewrite (localDeletionStep_deleted p m r2 r G H D).
    autorewrite with run. now apply NoDup_keys_delete.
  - rewrite (localDeletionStep_failed p m r2 r G H D).
    autorewrite with run. now rewrite (same_maps_fileMapOf _ _ M).
Qed.

Lemma localDeletionsPass_NoDup r :
  NoDup (OMap.keys (fileMapOf r)) ->
  NoDup (OMap.keys (fileMapOf (localDeletionsPass r))).
Proof.
  unfold localDeletionsPass.
  apply (fold_steps localDeletionStep
           (fun a b => NoDup (OMap.keys (fileMapOf a)) ->
                       NoDup (OMap.keys (fileMapOf b)))); auto.
  intros k a. apply localDeletionStep_NoDup.
Qed.

(** C5.  Deletion propagation is two passes over the keys of SyncState,
    the local-deletions pass first.  Pass one: an entry whose path is in the
    local snapshot is kept; for an entry whose path is absent from it,
    [deleteGoogleDriveFile] is called on the recorded id when the turn of
    the path comes, and what the call answers decides: on [true] the entry
    is removed and the object is gone from Drive, on [false] the entry is
    retained.  The call answers [true] exactly when there is a token, Drive
    accepts it, the request does not fail and the object is there, and
    then the object is deleted; on [false] Drive is as it was.  Pass two,
    on the result of pass one: an entry whose path is in the remote
    snapshot is kept with its local file; for one absent from it, the
    local file is deleted if there is one and the entry is removed whether
    or not there was one, unless the local delete failed, in which case the
    entry and the file stay.  [reconcile] runs the passes in this order. *)
Theorem deletion_propagation (r : Run) :
  NoDup (OMap.keys (fileMapOf r)) ->
  let r1 := localDeletionsPass r in
  let r2 := remoteDeletionsPass (saveSettings r1) in
  (exists evs,
      shown r1 = shown r ++ evs
      /\ forall p m,
          OMap.get p (fileMapOf r) = Some m ->
          if OMap.has p (localFiles r)
          then OMap.get p (fileMapOf r1) = Some m
          else exists ks1 ks2,
              OMap.keys (fileMapOf r) = ks1 ++ p :: ks2
              /\ (let r' :=
                    fold_left (fun a k => localDeletionStep k a) ks1 r in
                  OMap.get p (fileMapOf r') = Some m
                  /\ if fst (deleteGoogleDriveFile (remoteId m) r')
                     then In (DeletedRemote p) evs
                          /\ OMap.get p (fileMapOf r1) = None
                          /\ findDrive (remoteId m) (drive (world r1)) = None
                     else In (DeleteRemoteFailed p) evs
                          /\ OMap.get p (fileMapOf r1) = Some m))
  /\ (forall fid r',
        (fst (deleteGoogleDriveFile fid r') = true
         <-> Js.truthy (fst (getValidGoogleDriveToken r')) = true
             /\ authorized faults = true
             /\ removeFails faults fid = false
             /\ findDrive fid (drive (world r')) <> None)
        /\ (fst (deleteGoogleDriveFile fid r') = true ->
            findDrive fid
              (drive (world (snd (deleteGoogleDriveFile fid r')))) = None)
        /\ (fst (deleteGoogleDriveFile fid r') = false ->
            drive (world (snd (deleteGoogleDriveFile fid r')))
            = drive (world r')))
  /\ (forall p m,
        OMap.get p (fileMapOf r1) = Some m ->
        if OMap.has p (remoteFilesMap r)
        then OMap.get p (fileMapOf r2) = Some m
             /\ findFile p (vault (world r2)) = findFile p (vault (world r))
        else match findFile p (vault (world r)) with
             | Some f =>
                 if deleteThrows faults p
                 then OMap.get p (fileMapOf r2) = Some m
                      /\ findFile p (vault (world r2)) = Some f
                 else OMap.get p (fileMapOf r2) = None
                      /\ findFile p (vault (world r2)) = None
             | None =>
                 OMap.get p (fileMapOf r2) = None
                 /\ findFile p (vault (world r2)) = None
             end)
  /\ (forall r0,
        reconcile r0
        = remoteDeletionsPass
            (saveSettings
               (localDeletionsPass
                  (saveSettings (downloadPass (saveSettings (uploadPass r0))))))).
Proof.
  intros ND r1 r2. split; [|split; [|split]].
  - pose proof (fold_steps localDeletionStep drive_shrinks drive_shrinks_refl
                  drive_shrinks_trans localDeletionStep_shrinks
                  (OMap.keys (fileMapOf r)) r) as (_ & _ & _ & _ & evs & S).
    fold (localDeletionsPass r) in S. fold r1 in S.
    exists evs. split; [exact S|]. intros p m G.
    assert (I : In p (OMap.keys (fileMapOf r)))
      by (apply get_in_keys; congruence).
    destruct (localDeletions_turn _ ND p I) as (ks1 & ks2 & K & T).
    destruct (T r) as (E' & (L' & _ & _ & _ & e1 & S') & E1 & P1).
    fold (localDeletionsPass r) in E1, P1. fold r1 in E1, P1.
    set (r' := fold_left (fun a k => localDeletionStep k a) ks1 r) in *.
    destruct P1 as (_ & _ & _ & D1 & e2 & S1).
    rewrite G in E'.
    destruct (OMap.has p (localFiles r)) eqn:H.
    { rewrite E1, localDeletionStep_present; auto. now rewrite L'. }
    exists ks1, ks2. split; [exact K|]. fold r'. split; [exact E'|].
    assert (H' : OMap.has p (localFiles r') = false) by now rewrite L'.
    destruct (deleteGoogleDriveFile (remoteId m) r') as [[|] r3] eqn:D;
      cbn [fst];
      destruct (deleteGoogleDriveFile_frame _ _ _ _ D)
      as ((_ & _ & _ & _ & _ & S3) & _ & _ & B & _).
    + rewrite (localDeletionStep_deleted p m r3 r' E' H' D) in E1, D1, S1.
      cbn [shown show with_fileMap] in S1. rewrite S3, S' in S1.
      rewrite S, <- !app_assoc in S1. apply app_inv_head in S1. subst evs.
      split; [|split].
      * apply in_or_app. right. simpl. auto.
      * rewrite E1. autorewrite with run. apply get_delete_same.
      * apply D1. simpl. now apply B.
    + rewrite (localDeletionStep_failed p m r3 r' E' H' D) in E1, S1.
      cbn [shown show] in S1. rewrite S3, S' in S1.
      rewrite S, <- !app_assoc in S1. apply app_inv_head in S1. subst evs.
      split.
      * apply in_or_app. right. simpl. auto.
      * rewrite E1. autorewrite with run.
        destruct (deleteGoogleDriveFile_frame _ _ _ _ D) as (M & _).
        now rewrite (same_maps_fileMapOf _ _ M).
  - intros fid r'. split; [apply deleteGoogleDriveFile_answer|].
    destruct (deleteGoogleDriveFile fid r') as [b r3] eqn:D. cbn [fst snd].
    destruct (deleteGoogleDriveFile_frame _ _ _ _ D) as (_ & _ & _ & T & F).
    split; assumption.
  - intros p m G.
    pose proof (fold_steps localDeletionStep drive_shrinks drive_shrinks_refl
                  drive_shrinks_trans localDeletionStep_shrinks
                  (OMap.keys (fileMapOf r)) r) as (_ & R & V & _).
    fold (localDeletionsPass r) in R, V. fold r1 in R, V.
    pose proof (remoteDeletions_fold
                  (OMap.keys (fileMapOf (saveSettings r1)))
                  (localDeletionsPass_NoDup r ND) (saveSettings r1) p m) as O.
    unfold remoteDeletionOutcome, entryOf, vaultFileOf in O.
    simpl in O. rewrite R, V in O. apply O; auto.
    apply get_in_keys. unfold fileMapOf in G |- *. simpl. congruence.
  - reflexivity.
Qed.

End Deletions.

(* ------------------------------------------------------------------ *)
(** ** SyncState is written after success only *)

Section WrittenAfterSuccess.
Context {host : Host}.

Lemma localDeletionStep_fileMap p r :
  fileMapOf (localDeletionStep p r) = fileMapOf r
  \/ exists m r1,
       OMap.get p (fileMapOf r) = Some m
       /\ deleteGoogleDriveFile (remoteId m) r = (true, r1)
       /\ fileMapOf (localDeletionStep p r) = OMap.delete p (fileMapOf r).
Proof.
  destruct (OMap.get p (fileMapOf r)) as [m|] eqn:G.
  2:{ left. now rewrite localDeletionStep_no_entry. }
  destruct (OMap.has p (localFiles r)) eqn:H.
  { left. now rewrite localDeletionStep_present. }
  destruct (deleteGoogleDriveFile (remoteId m) r) as [[|] r1] eqn:D.
  - right. exists m, r1. repeat split; auto.
    now rewrite (localDeletionStep_deleted p m r1 r G H D).
  - left. rewrite (localDeletionStep_failed p m r1 r G H D).
    autorewrite with run.
    apply same_maps_fileMapOf.
    now destruct (deleteGoogleDriveFile_frame _ _ _ _ D).
Qed.

Lemma remoteDeletionStep_fileMap p r :
  fileMapOf (remoteDeletionStep p r) = fileMapOf r
  \/ ((getAbstractFileByPath p (world r) = None
       \/ exists w1, vault_delete p (world r) = returned w1)
      /\ fileMapOf (remoteDeletionStep p r) = OMap.delete p (fileMapOf r)).
Proof.
  destruct (OMap.get p (fileMapOf r)) as [m|] eqn:G.
  2:{ left. now rewrite remoteDeletionStep_no_entry. }
  destruct (OMap.has p (remoteFilesMap r)) eqn:H.
  { left. now rewrite remoteDeletionStep_present. }
  destruct (getAbstractFileByPath p (world r)) as [f|] eqn:E.
  - destruct (vault_delete p (world r)) as [w1|] eqn:D.
    + right. split; [right; now exists w1|].
      now rewrite (remoteDeletionStep_deleted p m f w1 r G H E D).
    + left. now rewrite (remoteDeletionStep_failed p m f r G H E D).
  - right. split; [now left|].
    now rewrite (remoteDeletionStep_no_file p m r G H E).
Qed.

(** C8.  An upload step whose read of the local file throws, or whose
    upload request returns no id, leaves [fileMap] as it was, and the loop
    goes on with the next path.  More generally each of the four per-path
    steps either leaves [fileMap] as it was or writes the entry of its own
    path after its operation succeeded: the upload request returned an id,
    the download and the local write succeeded, the remote delete returned
    true, the local delete did not throw (or there was no local file to
    delete). *)
Theorem state_written_only_after_success (r : Run) (p : string) :
  (forall ls,
      let m := OMap.get p (fileMapOf r) in
      let op := fst (classifyUpload m ls (OMap.get p (remoteFilesMap r))) in
      (readBinary p (world r) = thrown ->
       fileMapOf (uploadStep p ls r) = fileMapOf r)
      /\ (forall c,
             readBinary p (world r) = returned c ->
             Js.truthy (fst (uploadCall p op m c r)) = false ->
             fileMapOf (uploadStep p ls r) = fileMapOf r)
      /\ (forall fuel i,
             nth_error (localFiles r) i = Some (p, ls) ->
             uploadLoop (S fuel) i r
             = uploadLoop fuel (S i) (uploadStep p ls r))
      /\ (fileMapOf (uploadStep p ls r) = fileMapOf r
          \/ exists c rid r1 upd,
               readBinary p (world r) = returned c
               /\ uploadCall p op m c r = (Some rid, r1)
               /\ Js.truthy (Some rid) = true
               /\ fileMapOf (uploadStep p ls r)
                  = OMap.set p (uploadedEntry rid ls upd) (fileMapOf r)))
  /\ (forall rf,
         let op := fst (classifyDownload (OMap.get p (localFiles r))
                                         (OMap.get p (fileMapOf r)) rf) in
         fileMapOf (downloadStep p rf r) = fileMapOf r
         \/ exists c r0 w1 st,
              downloadGoogleDriveFile (id rf) r = (Some c, r0)
              /\ writeDownloaded p op c (world r0) = returned w1
              /\ fileMapOf (downloadStep p rf r)
                 = OMap.set p (downloadedEntry rf st (clock w1)) (fileMapOf r))
  /\ (fileMapOf (localDeletionStep p r) = fileMapOf r
      \/ exists m r1,
           OMap.get p (fileMapOf r) = Some m
           /\ deleteGoogleDriveFile (remoteId m) r = (true, r1)
           /\ fileMapOf (localDeletionStep p r) = OMap.delete p (fileMapOf r))
  /\ (fileMapOf (remoteDeletionStep p r) = fileMapOf r
      \/ ((getAbstractFileByPath p (world r) = None
           \/ exists w1, vault_delete p (world r) = returned w1)
          /\ fileMapOf (remoteDeletionStep p r) = OMap.delete p (fileMapOf r))).
Proof.
  split; [|split; [|split]].
  - intros ls m op.
    pose proof (uploadStep_fileMap p ls r) as U. cbv zeta in U.
    fold m in U. fold op in U.
    split; [|split; [|split]].
    + intros T. destruct U as [U | (c & a & rid' & w1 & upd & R & _)]; auto.
      congruence.
    + intros c R T.
      destruct U as [U | (c' & a & rid' & w1 & upd & R' & C & _)]; auto.
      assert (c' = c) by congruence. subst c'.
      rewrite C in T. discriminate.
    + intros fuel i E. simpl. now rewrite E.
    + destruct U as [U | (c & a & rid' & w1 & upd & R & C & _ & E)]; auto.
      right. exists c, (String a rid'), w1, upd. repeat split; auto.
  - intros rf op.
    destruct (downloadStep_fileMap p rf r)
      as [D | (c & r0 & w1 & st & _ & G & W & _ & _ & E)]; auto.
    right. exists c, r0, w1, st. repeat split; auto.
  - apply localDeletionStep_fileMap.
  - apply remoteDeletionStep_fileMap.
Qed.

End WrittenAfterSuccess.

(* ------------------------------------------------------------------ *)
(** ** What a written entry records *)

Section WrittenEntry.
Context {host : Host}.

Lemma stat_returns p w st :
  stat p w = returned st -> st = option_map vmtime (findFile p (vault w)).
Proof.
  unfold stat. destruct (statThrows faults p); [discriminate|].
  now inversion 1.
Qed.

(** A download step whose download, local write and re-stat all succeed. *)
Lemma downloadStep_success p rf r op reason c r0 w1 st :
  classifyDownload (OMap.get p (localFiles r)) (OMap.get p (fileMapOf r)) rf
  = (op, reason) ->
  op <> skip ->
  downloadGoogleDriveFile (id rf) r = (Some c, r0) ->
  writeDownloaded p op c (world r0) = returned w1 ->
  stat p w1 = returned st ->
  downloadStep p rf r
  = show (Downloaded p)
         (with_fileMap
            (OMap.set p (downloadedEntry rf st (clock w1)) (fileMapOf r))
            (with_world w1 (show (LogRemoteFile p op reason) r0))).
Proof.
  intros E N G W S. unfold downloadStep. rewrite E.
  pose proof (downloadGoogleDriveFile_maps (id rf) r) as M.
  rewrite G in M. cbn [snd] in M.
  pose proof (classifyDownload_ops (OMap.get p (localFiles r))
                                   (OMap.get p (fileMapOf r)) rf) as O.
  rewrite E in O. simpl in O.
  destruct O as [-> | [-> | ->]]; try congruence;
    unfold executeDownload; rewrite downloadGoogleDriveFile_show, G;
    cbn [fst snd world show]; rewrite W, S;
    change (fileMapOf (show (LogRemoteFile p _ reason) r0))
      with (fileMapOf r0);
    now rewrite (same_maps_fileMapOf _ _ M).
Qed.

(** An upload step whose read and request both succeed. *)
Lemma uploadStep_success p ls r op reason c a rid' r1 :
  classifyUpload (OMap.get p (fileMapOf r)) ls (OMap.get p (remoteFilesMap r))
  = (op, reason) ->
  op <> skip ->
  readBinary p (world r) = returned c ->
  uploadCall p op (OMap.get p (fileMapOf r)) c r
  = (Some (String a rid'), r1) ->
  fileMapOf (uploadStep p ls r)
  = OMap.set p
      (uploadedEntry (String a rid') ls
         (fst (updatedRemoteFileOf p (String a rid') r1)))
      (fileMapOf r).
Proof.
  intros E N R U. rewrite (uploadStep_uploads p ls r op reason E N).
  pose proof (uploadCall_maps p op (OMap.get p (fileMapOf r)) c r) as M1.
  rewrite U in M1. cbn [snd] in M1.
  pose proof (updatedRemoteFileOf_maps p (String a rid') r1) as M2.
  unfold executeUpload. cbn [world show]. rewrite R, uploadCall_show, U.
  cbn [fst snd]. rewrite updatedRemoteFileOf_show.
  destruct (updatedRemoteFileOf p (String a rid') r1) as [[f|] r2];
    cbn [fst snd] in *; autorewrite with run;
    now rewrite (same_maps_fileMapOf _ _ M2), (same_maps_fileMapOf _ _ M1).
Qed.

Lemma downloadStep_skip p rf r :
  fst (classifyDownload (OMap.get p (localFiles r))
                        (OMap.get p (fileMapOf r)) rf) = skip ->
  downloadStep p rf r
  = show (LogRemoteFile p skip
            (snd (classifyDownload (OMap.get p (localFiles r))
                                   (OMap.get p (fileMapOf r)) rf))) r.
Proof.
  unfold downloadStep. destruct (classifyDownload _ _ rf) as [op reason].
  simpl. now intros ->.
Qed.

(** C3 (amended).  A download step whose operations all succeed writes an
    entry that records the remote entry's id and [modifiedTime] and the
    mtime the local file has after the write.  An upload step whose
    operations all succeed writes an entry that records the returned id and
    the local snapshot mtime.  A step that decides [skip] leaves [fileMap]
    as it was, whatever the local mtime and the recorded one are. *)
Theorem written_entry_records_the_step (r : Run) (p : string) :
  (forall rf op reason c r0 w1 st,
      classifyDownload (OMap.get p (localFiles r))
                       (OMap.get p (fileMapOf r)) rf = (op, reason) ->
      op <> skip ->
      downloadGoogleDriveFile (id rf) r = (Some c, r0) ->
      writeDownloaded p op c (world r0) = returned w1 ->
      stat p w1 = returned st ->
      exists m,
        OMap.get p (fileMapOf (downloadStep p rf r)) = Some m
        /\ remoteId m = id rf
        /\ remoteMtime m = Some (modifiedTime rf)
        /\ forall f,
            findFile p (vault (world (downloadStep p rf r))) = Some f ->
            localMtimeEpoch m = Some (vmtime f))
  /\ (forall ls op reason c rid r1,
         classifyUpload (OMap.get p (fileMapOf r)) ls
                        (OMap.get p (remoteFilesMap r)) = (op, reason) ->
         op <> skip ->
         readBinary p (world r) = returned c ->
         uploadCall p op (OMap.get p (fileMapOf r)) c r
         = (Some rid, r1) ->
         Js.truthy (Some rid) = true ->
         exists m,
           OMap.get p (fileMapOf (uploadStep p ls r)) = Some m
           /\ remoteId m = rid
           /\ localMtimeEpoch m = Some (mtime ls))
  /\ (forall ls,
         fst (classifyUpload (OMap.get p (fileMapOf r)) ls
                             (OMap.get p (remoteFilesMap r))) = skip ->
         fileMapOf (uploadStep p ls r) = fileMapOf r)
  /\ (forall rf,
         fst (classifyDownload (OMap.get p (localFiles r))
                               (OMap.get p (fileMapOf r)) rf) = skip ->
         fileMapOf (downloadStep p rf r) = fileMapOf r).
Proof.
  split; [|split; [|split]].
  - intros rf op reason c r0 w1 st E N G W S.
    rewrite (downloadStep_success p rf r op reason c r0 w1 st E N G W S).
    autorewrite with run. simpl.
    exists (downloadedEntry rf st (clock w1)).
    split; [apply get_set_same|]. split; [reflexivity|].
    split; [reflexivity|].
    intros f Hf. apply stat_returns in S. rewrite Hf in S. now subst st.
  - intros ls op reason c rid r1 E N R U T.
    destruct rid as [|a rid']; [discriminate|].
    rewrite (uploadStep_success p ls r op reason c a rid' r1 E N R U).
    eexists. split; [apply get_set_same|]. split; reflexivity.
  - intros ls. apply uploadStep_skip.
  - intros rf S. now rewrite (downloadStep_skip p rf r S).
Qed.

End WrittenEntry.

(* ------------------------------------------------------------------ *)
(** ** Snapshots *)

Section Snapshots.
Context {host : Host}.

(** What the loop of lines 222-235 records for a path it meets. *)
Definition snapshotEntry (w : World) (p : string) : option LocalStat :=
  if Js.startsWith ".obsidian/" p then None
  else match stat p w with
       | returned (Some t) => Some (mkLocalStat p t)
       | returned None => None
       | thrown => None
       end.

Lemma collectStep_get w acc file p :
  OMap.get p (collectStep w acc file)
  = if String.eqb (vpath file) p
    then match snapshotEntry w p with
         | Some e => Some e
         | None => OMap.get p acc
         end
    else OMap.get p acc.
Proof.
  unfold collectStep, snapshotEntry.
  destruct (String.eqb (vpath file) p) eqn:E.
  - apply String.eqb_eq in E. subst p.
    destruct (Js.startsWith ".obsidian/" (vpath file)); auto.
    destruct (stat (vpath file) w) as [[t|]|]; auto using get_set_same.
  - apply String.eqb_neq in E.
    destruct (Js.startsWith ".obsidian/" (vpath file)); auto.
    destruct (stat (vpath file) w) as [[t|]|]; auto.
    apply get_set_other. congruence.
Qed.

Lemma collect_fold w l : forall acc p,
  OMap.get p (fold_left (collectStep w) l acc)
  = if existsb (fun f => String.eqb (vpath f) p) l
    then match snapshotEntry w p with
         | Some e => Some e
         | None => OMap.get p acc
         end
    else OMap.get p acc.
Proof.
  induction l as [|f l IH]; intros acc p; simpl; auto.
  rewrite IH, collectStep_get.
  destruct (String.eqb (vpath f) p); simpl;
    destruct (existsb _ l); auto;
    destruct (snapshotEntry w p); auto.
Qed.

(** The local snapshot, path by path. *)
Lemma collectLocalFiles_get w p :
  OMap.get p (collectLocalFiles w)
  = if existsb (fun f => String.eqb (vpath f) p) (getMarkdownFiles w)
    then snapshotEntry w p else None.
Proof.
  unfold collectLocalFiles. rewrite collect_fold. simpl.
  destruct (existsb _ _); auto. now destruct (snapshotEntry w p).
Qed.

(** A path whose [stat] rejects is left out of the local snapshot and the
    loop goes on: every other Markdown file outside [.obsidian/] is still
    collected with its mtime; a listing request that fails yields an empty
    remote snapshot. *)
Lemma snapshots_leave_out_what_they_cannot_read :
  (forall w p,
      statThrows faults p = true -> OMap.has p (collectLocalFiles w) = false)
  /\ (forall w f t,
         In f (getMarkdownFiles w) ->
         Js.startsWith ".obsidian/" (vpath f) = false ->
         stat (vpath f) w = returned (Some t) ->
         OMap.get (vpath f) (collectLocalFiles w)
         = Some (mkLocalStat (vpath f) t))
  /\ (forall w,
         listFails faults (listings w) = true ->
         collectRemoteFiles (fst (listFilesRequest w)) = []).
Proof.
  split; [|split].
  - intros w p T. apply has_false. rewrite collectLocalFiles_get.
    destruct (existsb _ _); auto.
    unfold snapshotEntry, stat. rewrite T.
    now destruct (Js.startsWith ".obsidian/" p).
  - intros w f t I N S. rewrite collectLocalFiles_get.
    assert (E : existsb (fun f' => String.eqb (vpath f') (vpath f))
                        (getMarkdownFiles w) = true).
    { apply existsb_exists. exists f. split; auto. apply String.eqb_refl. }
    rewrite E. unfold snapshotEntry. now rewrite N, S.
  - intros w L. unfold listFilesRequest.
    destruct (authorized faults); simpl; auto. now rewrite L.
Qed.

End Snapshots.

(* ------------------------------------------------------------------ *)
(** ** Ties *)

Section Ties.
Context {host : Host}.

Lemma uploadStep_plain_skip p ls r reason :
  classifyUpload (OMap.get p (fileMapOf r)) ls (OMap.get p (remoteFilesMap r))
  = (skip, reason) ->
  reason <> CONFLICT ->
  uploadStep p ls r = show (LogFile p skip reason) r.
Proof.
  intros E N. unfold uploadStep. rewrite E.
  destruct reason; congruence.
Qed.

(** An upload-direction decision other than a plain skip rests on strict
    comparisons. *)
Lemma classifyUpload_strict em l cur op reason :
  classifyUpload em l cur = (op, reason) ->
  (op = upload_update ->
   Js.gt (Js.Num (mtime l))
         (match cur with
          | Some f => Date_parse (modifiedTime f)
          | None => Js.Num 0
          end) = true)
  /\ (reason = CONFLICT ->
      exists f,
        cur = Some f
        /\ Js.gt (Date_parse (modifiedTime f)) (lastKnownRemote em) = true)
  /\ (op = upload_update \/ reason = CONFLICT ->
      exists m',
        em = Some m'
        /\ (Js.truthyZ (localMtimeEpoch m') = false
            \/ Js.gt (Js.Num (mtime l)) (epochOf (localMtimeEpoch m'))
               = true)).
Proof.
  unfold classifyUpload.
  destruct em as [m'|].
  2:{ intros H. inversion H. repeat split; try discriminate.
      intros [X | X]; discriminate. }
  cbv zeta.
  destruct (negb (Js.truthyZ (localMtimeEpoch m'))
            || Js.gt (Js.Num (mtime l)) (epochOf (localMtimeEpoch m')))
    eqn:G.
  2:{ intros H. inversion H. repeat split; try discriminate.
      intros [X | X]; discriminate. }
  assert (G' : Js.truthyZ (localMtimeEpoch m') = false
               \/ Js.gt (Js.Num (mtime l)) (epochOf (localMtimeEpoch m'))
                  = true).
  { apply orb_true_iff in G as [G | G]; auto.
    left. now apply negb_true_iff in G. }
  destruct cur as [f|]; cbn [andb].
  - destruct (Js.gt (Date_parse (modifiedTime f))
                    (lastKnownRemote (Some m'))) eqn:C.
    + intros H. inversion H. repeat split; try discriminate; eauto.
    + destruct (Js.gt (Js.Num (mtime l)) (Date_parse (modifiedTime f)))
        eqn:U;
        intros H; inversion H; repeat split; try discriminate; eauto.
  - destruct (Js.gt (Js.Num (mtime l)) (Js.Num 0)) eqn:U;
      intros H; inversion H; repeat split; try discriminate; eauto.
Qed.

(** A download of a path that has a local file rests on two strict
    comparisons. *)
Lemma classifyDownload_strict l em f op reason :
  classifyDownload (Some l) em f = (op, reason) ->
  op <> skip ->
  Js.gt (Date_parse (modifiedTime f)) (lastKnownRemote em) = true
  /\ Js.gt (Date_parse (modifiedTime f)) (Js.Num (mtime l)) = true.
Proof.
  unfold classifyDownload.
  destruct (Js.gt (Date_parse (modifiedTime f)) (lastKnownRemote em));
    [|intros H; inversion H; congruence].
  destruct (Js.gt (Date_parse (modifiedTime f)) (Js.Num (mtime l)));
    [auto|].
  destruct (Js.lt _ _); intros H; inversion H; congruence.
Qed.

(** C6 (amended).  Every timestamp comparison that triggers an action is
    strict: [>] is false on equal values; an update upload needs the local
    mtime strictly above the current remote time, a conflict the current
    remote time strictly above the recorded one, and either of them the
    local mtime strictly above the recorded one or no record of it (absent
    or [0]); a download to a path that has a local file needs the remote
    time strictly above the recorded one and strictly above the local
    mtime.  A path whose local mtime equals the recorded [localMtimeEpoch]
    and whose remote [modifiedTime] equals the recorded [remoteMtime] gets
    no action: both classifications answer [skip] without a conflict, the
    upload and download steps only print their log line, and neither
    deletion step touches the path.  This second part holds unless the
    recorded [localMtimeEpoch] is [0] and the remote time reads as a
    negative number (a record of [0] counts as no record, and the local
    mtime [0] is then strictly above the remote time). *)
Theorem tie_means_no_action
    (r : Run) (p : string) (m : FileSyncState) (ls : LocalStat)
    (rf : DriveFile) :
  ((forall a b, Js.gt a b = true -> a <> b)
   /\ (forall em l cur reason,
         classifyUpload em l cur = (upload_update, reason) ->
         Js.gt (Js.Num (mtime l))
               (match cur with
                | Some f => Date_parse (modifiedTime f)
                | None => Js.Num 0
                end) = true)
   /\ (forall em l cur op,
         classifyUpload em l cur = (op, CONFLICT) ->
         exists f,
           cur = Some f
           /\ Js.gt (Date_parse (modifiedTime f)) (lastKnownRemote em)
              = true)
   /\ (forall em l cur op reason,
         classifyUpload em l cur = (op, reason) ->
         op = upload_update \/ reason = CONFLICT ->
         exists m',
           em = Some m'
           /\ (Js.truthyZ (localMtimeEpoch m') = false
               \/ Js.gt (Js.Num (mtime l)) (epochOf (localMtimeEpoch m'))
                  = true))
   /\ (forall l em f op reason,
         classifyDownload (Some l) em f = (op, reason) ->
         op <> skip ->
         Js.gt (Date_parse (modifiedTime f)) (lastKnownRemote em) = true
         /\ Js.gt (Date_parse (modifiedTime f)) (Js.Num (mtime l)) = true))
  /\ (Date_parse "" = Js.NaN ->
      OMap.get p (fileMapOf r) = Some m ->
      OMap.get p (localFiles r) = Some ls ->
      OMap.get p (remoteFilesMap r) = Some rf ->
      localMtimeEpoch m = Some (mtime ls) ->
      remoteMtime m = Some (modifiedTime rf) ->
      (mtime ls = 0%Z ->
       Js.gt (Js.Num 0) (Date_parse (modifiedTime rf)) = false) ->
      (exists reason,
          classifyUpload (Some m) ls (Some rf) = (skip, reason)
          /\ reason <> CONFLICT
          /\ uploadStep p ls r = show (LogFile p skip reason) r)
      /\ classifyDownload (Some ls) (Some m) rf
         = (skip, Remote_unchanged_or_older)
      /\ downloadStep p rf r
         = show (LogRemoteFile p skip Remote_unchanged_or_older) r
      /\ localDeletionStep p r = r
      /\ remoteDeletionStep p r = r).
Proof.
  split.
  { split; [|split; [|split; [|split]]].
    - intros a b H ->. rewrite gt_irrefl in H. discriminate.
    - intros em l cur reason H.
      now apply (classifyUpload_strict em l cur upload_update reason H).
    - intros em l cur op H.
      now apply (classifyUpload_strict em l cur op CONFLICT H).
    - intros em l cur op reason H.
      apply (classifyUpload_strict em l cur op reason H).
    - apply classifyDownload_strict. }
  intros E G L R Hl Hr Hz.
  pose proof (tie_download m ls rf E Hr) as D.
  split; [|split; [|split; [|split]]].
  - destruct (tie_upload m ls rf E Hl Hr Hz) as [U | U];
      eexists; (split; [exact U|]); (split; [discriminate|]);
      apply uploadStep_plain_skip; try discriminate;
      now rewrite G, R.
  - exact D.
  - pose proof (downloadStep_skip p rf r) as S.
    rewrite L, G, D in S. now apply S.
  - apply localDeletionStep_present. unfold OMap.has. now rewrite L.
  - apply remoteDeletionStep_present. unfold OMap.has. now rewrite R.
Qed.

End Ties.

(* ------------------------------------------------------------------ *)
(** ** Only Markdown files are uploaded *)

Section Strings.

Lemma append_assoc (a b c : string) :
  ((a ++ b) ++ c)%string = (a ++ (b ++ c))%string.
Proof. induction a as [|x a IH]; simpl; congruence. Qed.

Lemma length_append (a b : string) :
  String.length (a ++ b)%string = String.length a + String.length b.
Proof. induction a as [|x a IH]; simpl; congruence. Qed.

Lemma drop_append (a b : string) : Js.drop (String.length a) (a ++ b) = b.
Proof. induction a as [|x a IH]; simpl; auto. Qed.

Lemma take_drop (n : nat) (s : string) :
  (Js.take n s ++ Js.drop n s)%string = s.
Proof.
  revert s. induction n as [|n IH]; intros [|x s]; simpl; auto.
  now rewrite IH.
Qed.

Lemma endsWith_append (a suf : string) : Js.endsWith suf (a ++ suf) = true.
Proof.
  unfold Js.endsWith. rewrite length_append.
  replace (String.length a + String.length suf - String.length suf)
    with (String.length a) by lia.
  rewrite drop_append, String.eqb_refl, andb_true_r.
  apply Nat.leb_le. lia.
Qed.

Lemma endsWith_split (suf s : string) :
  Js.endsWith suf s = true -> exists a, s = (a ++ suf)%string.
Proof.
  unfold Js.endsWith. intros H. apply andb_true_iff in H as [_ H].
  apply String.eqb_eq in H.
  exists (Js.take (String.length s - String.length suf) s).
  rewrite <- H at 2. now rewrite take_drop.
Qed.

(** In a path that ends in [.md] the last dot is the one of the suffix. *)
Lemma lastIndexOf_md (a : string) :
  Js.lastIndexOf "." (a ++ ".md") = Z.of_nat (String.length a).
Proof.
  induction a as [|x a IH]; [reflexivity|].
  cbn [append Js.lastIndexOf String.length]. rewrite IH.
  destruct (Z.leb 0 (Z.of_nat (String.length a))) eqn:E.
  - lia.
  - apply Z.leb_gt in E. lia.
Qed.

Lemma conflictPathOf_md (p timestamp : string) :
  Js.endsWith ".md" p = true ->
  Js.endsWith ".md" (conflictPathOf p timestamp) = true.
Proof.
  intros H. destruct (endsWith_split _ _ H) as [a ->].
  unfold conflictPathOf. rewrite lastIndexOf_md.
  unfold Js.substring_from, Js.clamp.
  rewrite Nat2Z.id, length_append.
  replace (Nat.min (String.length a) (String.length a + String.length ".md"))
    with (String.length a) by lia.
  rewrite drop_append.
  rewrite <- !append_assoc. apply endsWith_append.
Qed.

End Strings.

Section OnlyMarkdown.
Context {host : Host}.

(** Every key of the local snapshot map ends in [.md]. *)
Definition allMarkdown (l : LocalFiles) : Prop :=
  forall k, In k (OMap.keys l) -> Js.endsWith ".md" k = true.

(** No Drive object named [q] is new or rewritten between two worlds. *)
Definition no_new_named (q : string) (w w' : World) : Prop :=
  forall o, In o (drive w') -> name (fst o) = q -> In o (drive w).

Lemma no_new_named_refl q w : no_new_named q w w.
Proof. intros o; auto. Qed.

Lemma no_new_named_trans q a b c :
  no_new_named q a b -> no_new_named q b c -> no_new_named q a c.
Proof. intros H1 H2 o I N. auto. Qed.

Lemma no_new_named_same_drive q w w' :
  drive w' = drive w -> no_new_named q w w'.
Proof. intros E o I _. now rewrite <- E. Qed.

Lemma createBinary_drive p d w w1 :
  createBinary p d w = returned w1 -> drive w1 = drive w.
Proof.
  unfold createBinary. repeat break_match; intros H; inversion H; auto.
Qed.

Lemma listFilesRequest_drive w :
  drive (snd (listFilesRequest w)) = drive w.
Proof. unfold listFilesRequest. repeat break_match; auto. Qed.

Lemma listGoogleDriveFiles_drive r :
  drive (world (snd (listGoogleDriveFiles r))) = drive (world r).
Proof.
  unfold listGoogleDriveFiles.
  destruct (withToken_world [] listFilesRequest r)
    as (w0 & (_ & D & _) & [[_ ->] | E]); auto.
  pose proof (listFilesRequest_drive w0) as L.
  rewrite <- E in L. cbn [snd] in L. congruence.
Qed.

Lemma updatedRemoteFileOf_drive p rid r :
  drive (world (snd (updatedRemoteFileOf p rid r))) = drive (world r).
Proof.
  unfold updatedRemoteFileOf. destruct (OMap.get p (remoteFilesMap r)); auto.
  pose proof (listGoogleDriveFiles_drive r) as L.
  destruct (listGoogleDriveFiles r). exact L.
Qed.

Lemma uploadFileRequest_named q fileName c mime eid w :
  q <> fileName ->
  no_new_named q w (snd (uploadFileRequest fileName c mime eid w)).
Proof.
  intros N. unfold uploadFileRequest.
  repeat break_match; simpl; try apply no_new_named_refl;
    intros o I E; simpl in I.
  all: first
         [ apply in_app_or in I as [I | [<- | []]];
           [auto | simpl in E; congruence]
         | apply in_map_iff in I as (o0 & <- & I0);
           destruct (String.eqb (id (fst o0)) _);
           [simpl in E; congruence | auto] ].
Qed.

Lemma backupLocal_drive p r :
  drive (world (backupLocal p r)) = drive (world r).
Proof.
  unfold backupLocal.
  destruct (readBinary p (world r)); auto.
  destruct (createBinary _ _ (world r)) as [w1|] eqn:C; auto.
  apply createBinary_drive in C.
  repeat break_match; simpl; auto.
Qed.

Lemma uploadGoogleDriveFile_named q fileName c mime eid r :
  q <> fileName ->
  no_new_named q (world r)
               (world (snd (uploadGoogleDriveFile fileName c mime eid r))).
Proof.
  intros N. unfold uploadGoogleDriveFile.
  destruct (withToken_world None (uploadFileRequest fileName c mime eid) r)
    as (w0 & (_ & D & _) & [[_ ->] | E]).
  - now apply no_new_named_same_drive.
  - pose proof (uploadFileRequest_named q fileName c mime eid w0 N) as U.
    rewrite <- E in U. cbn [snd] in U.
    eapply no_new_named_trans; [|exact U].
    now apply no_new_named_same_drive.
Qed.

Lemma executeUpload_named q p ls op m r :
  q <> p ->
  no_new_named q (world r) (world (executeUpload p ls op m r)).
Proof.
  intros N. unfold executeUpload.
  destruct (readBinary p (world r)) as [c|]; [|apply no_new_named_refl].
  unfold uploadCall.
  match goal with
  | |- context [uploadGoogleDriveFile ?a ?b ?c ?d ?e] =>
      pose proof (uploadGoogleDriveFile_named q a b c d e N) as U;
      destruct (uploadGoogleDriveFile a b c d e) as [[[|x rid']|] r1]
  end; cbn [snd] in U; auto.
  pose proof (updatedRemoteFileOf_drive p (String x rid') r1) as G.
  destruct (updatedRemoteFileOf p (String x rid') r1)
    as [[f|] r2]; cbn [snd] in G; simpl;
    (eapply no_new_named_trans; [exact U|]);
    now apply no_new_named_same_drive.
Qed.

Lemma uploadStep_named q p ls r :
  q <> p -> no_new_named q (world r) (world (uploadStep p ls r)).
Proof.
  intros N. unfold uploadStep.
  destruct (classifyUpload _ _ _) as [op reason].
  assert (B : no_new_named q (world r)
                (world (match reason with
                        | CONFLICT => backupLocal p r
                        | _ => r
                        end))).
  { destruct reason; try apply no_new_named_refl.
    apply no_new_named_same_drive, backupLocal_drive. }
  destruct op; try exact B;
    (eapply no_new_named_trans; [exact B|]);
    apply (executeUpload_named q p ls _ _ (show _ _) N).
Qed.

Lemma backupLocal_allMarkdown p r :
  Js.endsWith ".md" p = true ->
  allMarkdown (localFiles r) -> allMarkdown (localFiles (backupLocal p r)).
Proof.
  intros M A. unfold backupLocal.
  repeat break_match; simpl; auto.
  intros k I. rewrite keys_set in I.
  destruct (OMap.has _ _); auto.
  apply in_app_or in I as [I | [<- | []]]; auto.
  now apply conflictPathOf_md.
Qed.

Lemma executeUpload_localFiles p ls op m r :
  localFiles (executeUpload p ls op m r) = localFiles r.
Proof.
  unfold executeUpload.
  destruct (readBinary p (world r)) as [c|]; [|reflexivity].
  pose proof (uploadCall_maps p op m c r) as (_ & _ & _ & L & _).
  destruct (uploadCall p op m c r) as [[[|x rid]|] r1];
    cbn [snd] in L; simpl; auto.
  pose proof (updatedRemoteFileOf_maps p (String x rid) r1)
    as (_ & _ & _ & L2 & _).
  destruct (updatedRemoteFileOf p (String x rid) r1) as [[f|] r2];
    cbn [snd] in L2; simpl; congruence.
Qed.

Lemma uploadStep_allMarkdown p ls r :
  Js.endsWith ".md" p = true ->
  allMarkdown (localFiles r) -> allMarkdown (localFiles (uploadStep p ls r)).
Proof.
  intros M A. unfold uploadStep.
  destruct (classifyUpload _ _ _) as [op reason].
  assert (B : allMarkdown
                (localFiles (match reason with
                             | CONFLICT => backupLocal p r
                             | _ => r
                             end)))
    by (destruct reason; auto using backupLocal_allMarkdown).
  destruct op; try exact B; now rewrite executeUpload_localFiles.
Qed.

Lemma nth_error_key {V : Type} (l : list (string * V)) i k v :
  nth_error l i = Some (k, v) -> In k (OMap.keys l).
Proof.
  intros H. apply nth_error_In in H.
  unfold OMap.keys. change k with (fst (k, v)). now apply in_map.
Qed.

(** The loop, for any number of iterations: the snapshot stays Markdown
    only, and a path that does not end in [.md] gets no entry written and
    no Drive object. *)
Lemma uploadLoop_markdown fuel : forall i r,
  allMarkdown (localFiles r) ->
  allMarkdown (localFiles (uploadLoop fuel i r))
  /\ forall q, Js.endsWith ".md" q = false ->
       OMap.get q (fileMapOf (uploadLoop fuel i r)) = OMap.get q (fileMapOf r)
       /\ no_new_named q (world r) (world (uploadLoop fuel i r)).
Proof.
  induction fuel as [|fuel IH]; intros i r A; simpl.
  { split; auto. intros q _. split; auto using no_new_named_refl. }
  destruct (nth_error (localFiles r) i) as [[p ls]|] eqn:E.
  2:{ split; auto. intros q _. split; auto using no_new_named_refl. }
  assert (M : Js.endsWith ".md" p = true) by (apply A; eapply nth_error_key; eauto).
  destruct (IH (S i) (uploadStep p ls r) (uploadStep_allMarkdown p ls r M A))
    as (A' & Q).
  split; auto. intros q Nq.
  assert (N : q <> p) by congruence.
  destruct (Q q Nq) as (G & D). split.
  - rewrite G. now apply uploadStep_other.
  - eapply no_new_named_trans; [|exact D]. now apply uploadStep_named.
Qed.

Lemma collectLocalFiles_markdown w p :
  OMap.has p (collectLocalFiles w) = true ->
  Js.endsWith ".md" p = true
  /\ Js.startsWith ".obsidian/" p = false
  /\ exists f, In f (getMarkdownFiles w) /\ vpath f = p.
Proof.
  unfold OMap.has. rewrite collectLocalFiles_get.
  destruct (existsb _ _) eqn:E; [|discriminate].
  apply existsb_exists in E as (f & I & Ef). apply String.eqb_eq in Ef.
  unfold snapshotEntry.
  destruct (Js.startsWith ".obsidian/" p) eqn:S; [discriminate|].
  intros _. split; [|split; [reflexivity | now exists f]].
  unfold getMarkdownFiles in I. apply filter_In in I as [_ I]. now subst p.
Qed.

(** C10.  The local snapshot holds Markdown files of the vault only, and
    none whose path begins with [.obsidian/]; so, in the upload pass of a
    run that starts from it, a path that is not a Markdown path gets no
    SyncState entry written and no Drive object created or rewritten under
    its name. *)
Theorem only_markdown_is_uploaded (w : World) (r : Run) :
  localFiles r = collectLocalFiles w ->
  (forall p,
      OMap.has p (localFiles r) = true ->
      Js.endsWith ".md" p = true
      /\ Js.startsWith ".obsidian/" p = false
      /\ exists f, In f (getMarkdownFiles w) /\ vpath f = p)
  /\ (forall q,
         Js.endsWith ".md" q = false ->
         OMap.get q (fileMapOf (uploadPass r)) = OMap.get q (fileMapOf r)
         /\ forall o,
             In o (drive (world (uploadPass r))) ->
             name (fst o) = q ->
             In o (drive (world r))).
Proof.
  intros S. split.
  - intros p H. rewrite S in H. now apply collectLocalFiles_markdown.
  - assert (A : allMarkdown (localFiles r)).
    { intros k I. apply has_true in I. rewrite S in I.
      now apply collectLocalFiles_markdown in I. }
    intros q Nq. unfold uploadPass.
    destruct (uploadLoop_markdown (uploadFuel r) 0 r A) as (_ & Q).
    apply (Q q Nq).
Qed.

End OnlyMarkdown.

(* ------------------------------------------------------------------ *)
(** ** Checkpoints *)

Section Checkpoints.
Context {host : Host}.

(** A call that saves nothing and sends no refresh request. *)
Definition same_saved (w w' : World) : Prop :=
  persisted w' = persisted w /\ refreshes w' = refreshes w.

(** What the token calls between two worlds may add to the saved history:
    one [saveSettings] for each refresh request at most. *)
Definition refresh_saves (w w' : World) : Prop :=
  exists extra,
    persisted w' = (extra ++ persisted w)%list
    /\ List.length extra + refreshes w <= refreshes w'.

Lemma same_saved_refl w : same_saved w w.
Proof. now split. Qed.

Lemma refresh_saves_refl w : refresh_saves w w.
Proof. exists []. split; [reflexivity | simpl; lia]. Qed.

Lemma refresh_saves_trans a b c :
  refresh_saves a b -> refresh_saves b c -> refresh_saves a c.
Proof.
  intros (e1 & P1 & L1) (e2 & P2 & L2). exists (e2 ++ e1)%list. split.
  - now rewrite P2, P1, app_assoc.
  - rewrite length_app. lia.
Qed.

Lemma same_saved_saves w w' : same_saved w w' -> refresh_saves w w'.
Proof. intros (P & R). exists []. split; [exact P | simpl; lia]. Qed.

Lemma same_saved_then a b c :
  refresh_saves a b -> same_saved b c -> refresh_saves a c.
Proof.
  intros H S. eapply refresh_saves_trans; [exact H|].
  now apply same_saved_saves.
Qed.

(** A call of the token function saves at most once, and only after a
    refresh request. *)
Lemma refresh_saves_once now reply later t :
  let a := snd (Auth.getValidGoogleDriveToken now reply later
                  (Auth.mkState t [] 0 [])) in
  Auth.saved a = [] \/ (exists x, Auth.saved a = [x]) /\ Auth.requests a = 1.
Proof.
  unfold Auth.getValidGoogleDriveToken, Auth.refreshGoogleDriveAccessToken.
  cbn [Auth.tokens Auth.notice].
  destruct (negb _ || negb _); [now left|].
  destruct (Auth.ge _ _); [|now left].
  destruct (negb (Js.truthy (Auth.googleDriveRefreshToken t)));
    [now left|].
  destruct reply as [|[|]| |]; simpl; eauto.
Qed.

Lemma getValidGoogleDriveToken_saves r :
  refresh_saves (world r) (world (snd (getValidGoogleDriveToken r))).
Proof.
  unfold getValidGoogleDriveToken.
  pose proof (refresh_saves_once (clock (world r))
                (tokenEndpoint (refreshes (world r))) (clock (world r))
                (googleDriveTokens (settings r))) as O.
  destruct (Auth.getValidGoogleDriveToken _ _ _ _) as [token a].
  cbn [snd] in O |- *.
  destruct O as [-> | ((x & ->) & Q)].
  - exists []. split; [reflexivity | simpl; lia].
  - eexists [_]. split; [reflexivity | simpl; lia].
Qed.

Lemma withToken_saves {A : Type} (failure : A) request r :
  (forall w, same_saved w (snd (request w))) ->
  refresh_saves (world r) (world (snd (withToken failure request r))).
Proof.
  intros Q. unfold withToken.
  pose proof (getValidGoogleDriveToken_saves r) as S.
  destruct (getValidGoogleDriveToken r) as [token r0]. cbn [snd] in S.
  destruct (Js.truthy token); [|exact S].
  specialize (Q (world r0)).
  destruct (request (world r0)) as [a w]. cbn [snd] in Q |- *.
  now apply (same_saved_then _ (world r0)).
Qed.

Lemma createBinary_saved p d w w1 :
  createBinary p d w = returned w1 -> same_saved w w1.
Proof.
  unfold createBinary. repeat break_match; intros H; inversion H; now split.
Qed.

Lemma modifyBinary_saved p d w w1 :
  modifyBinary p d w = returned w1 -> same_saved w w1.
Proof.
  unfold modifyBinary. repeat break_match; intros H; inversion H; now split.
Qed.

Lemma writeDownloaded_saved p op d w w1 :
  writeDownloaded p op d w = returned w1 -> same_saved w w1.
Proof.
  unfold writeDownloaded.
  repeat break_match; eauto using createBinary_saved, modifyBinary_saved.
Qed.

Lemma listFilesRequest_saved w : same_saved w (snd (listFilesRequest w)).
Proof. unfold listFilesRequest. repeat break_match; now split. Qed.

Lemma uploadFileRequest_saved fileName c mime eid w :
  same_saved w (snd (uploadFileRequest fileName c mime eid w)).
Proof. unfold uploadFileRequest. repeat break_match; now split. Qed.

Lemma deleteFileRequest_saved fid w :
  same_saved w (snd (deleteFileRequest fid w)).
Proof. unfold deleteFileRequest. repeat break_match; now split. Qed.

Lemma updatedRemoteFileOf_saves p rid r :
  refresh_saves (world r) (world (snd (updatedRemoteFileOf p rid r))).
Proof.
  unfold updatedRemoteFileOf.
  destruct (OMap.get p (remoteFilesMap r)); [apply refresh_saves_refl|].
  pose proof (withToken_saves [] listFilesRequest r listFilesRequest_saved)
    as L.
  fold (listGoogleDriveFiles r) in L.
  destruct (listGoogleDriveFiles r). exact L.
Qed.

Lemma backupLocal_saved p r :
  same_saved (world r) (world (backupLocal p r)).
Proof.
  unfold backupLocal.
  destruct (readBinary p (world r)); [|apply same_saved_refl].
  destruct (createBinary _ _ (world r)) as [w1|] eqn:C;
    [|apply same_saved_refl].
  apply createBinary_saved in C.
  repeat break_match; simpl; auto.
Qed.

Lemma executeUpload_saves p ls op m r :
  refresh_saves (world r) (world (executeUpload p ls op m r)).
Proof.
  unfold executeUpload.
  destruct (readBinary p (world r)) as [c|]; [|apply refresh_saves_refl].
  unfold uploadCall.
  match goal with
  | |- context [uploadGoogleDriveFile ?a ?b ?c ?d ?e] =>
      pose proof (withToken_saves None (uploadFileRequest a b c d) e
                    (uploadFileRequest_saved a b c d)) as U;
      fold (uploadGoogleDriveFile a b c d e) in U;
      destruct (uploadGoogleDriveFile a b c d e) as [[[|x rid']|] r1]
  end; cbn [snd] in U; auto.
  pose proof (updatedRemoteFileOf_saves p (String x rid') r1) as G.
  destruct (updatedRemoteFileOf p (String x rid') r1) as [[f|] r2];
    cbn [snd] in G; simpl; eapply refresh_saves_trans; eauto.
Qed.

Lemma uploadStep_saves p ls r :
  refresh_saves (world r) (world (uploadStep p ls r)).
Proof.
  unfold uploadStep. destruct (classifyUpload _ _ _) as [op reason].
  assert (B : refresh_saves (world r)
                (world (match reason with
                        | CONFLICT => backupLocal p r
                        | _ => r
                        end))).
  { destruct reason; try apply refresh_saves_refl.
    apply same_saved_saves, backupLocal_saved. }
  destruct op; try exact B;
    (eapply refresh_saves_trans; [exact B|]);
    apply (executeUpload_saves p ls _ _ (show _ _)).
Qed.

Lemma uploadLoop_saves fuel : forall i r,
  refresh_saves (world r) (world (uploadLoop fuel i r)).
Proof.
  induction fuel as [|fuel IH]; intros i r; simpl;
    [apply refresh_saves_refl|].
  destruct (nth_error (localFiles r) i) as [[p ls]|];
    [|apply refresh_saves_refl].
  eapply refresh_saves_trans; [apply uploadStep_saves | apply IH].
Qed.

Lemma executeDownload_saves p rf op r :
  refresh_saves (world r) (world (executeDownload p rf op r)).
Proof.
  unfold executeDownload, downloadGoogleDriveFile.
  pose proof (withToken_saves None
                (fun w => (downloadFileRequest (id rf) w, w)) r
                (fun w => same_saved_refl w)) as D.
  destruct (withToken _ _ r) as [[c|] r0]; cbn [snd] in D; auto.
  destruct (writeDownloaded p op c (world r0)) as [w1|] eqn:W; auto.
  apply writeDownloaded_saved in W.
  assert (refresh_saves (world r) w1) by now apply (same_saved_then _ (world r0)).
  destruct (stat p w1); simpl; auto.
Qed.

Lemma downloadStep_saves p rf r :
  refresh_saves (world r) (world (downloadStep p rf r)).
Proof.
  unfold downloadStep. destruct (classifyDownload _ _ rf) as [op reason].
  destruct op; try apply refresh_saves_refl;
    apply (executeDownload_saves p rf _ (show _ r)).
Qed.

Lemma downloadPass_saves r :
  refresh_saves (world r) (world (downloadPass r)).
Proof.
  unfold downloadPass. generalize (remoteFilesMap r). intros l. revert r.
  induction l as [|[p rf] l IH]; intros r; simpl;
    [apply refresh_saves_refl|].
  eapply refresh_saves_trans; [apply downloadStep_saves | apply IH].
Qed.

Lemma localDeletionStep_saves p r :
  refresh_saves (world r) (world (localDeletionStep p r)).
Proof.
  unfold localDeletionStep, deleteGoogleDriveFile.
  destruct (OMap.get p (fileMapOf r)) as [m|]; [|apply refresh_saves_refl].
  destruct (OMap.has p (localFiles r)); [apply refresh_saves_refl|].
  pose proof (withToken_saves false (deleteFileRequest (remoteId m))
                (show (DeletingRemote p) r)
                (deleteFileRequest_saved (remoteId m))) as D.
  destruct (withToken _ _ _) as [[|] r2]; exact D.
Qed.

Lemma localDeletionsPass_saves r :
  refresh_saves (world r) (world (localDeletionsPass r)).
Proof.
  apply (fold_steps localDeletionStep
           (fun a b => refresh_saves (world a) (world b))).
  - intros a. apply refresh_saves_refl.
  - intros a b c. apply refresh_saves_trans.
  - intros k a. apply localDeletionStep_saves.
Qed.

Lemma remoteDeletionStep_saved p r :
  same_saved (world r) (world (remoteDeletionStep p r)).
Proof.
  unfold remoteDeletionStep.
  destruct (OMap.get p (fileMapOf r)); [|apply same_saved_refl].
  destruct (OMap.has p (remoteFilesMap r)); [apply same_saved_refl|].
  destruct (getAbstractFileByPath p (world r)); [|apply same_saved_refl].
  rewrite vault_delete_returns.
  destruct (deleteThrows faults p); now split.
Qed.

Lemma remoteDeletionsPass_saved r :
  same_saved (world r) (world (remoteDeletionsPass r)).
Proof.
  apply (fold_steps remoteDeletionStep
           (fun a b => same_saved (world a) (world b))).
  - intros a. apply same_saved_refl.
  - intros a b c (P1 & R1) (P2 & R2). split; congruence.
  - intros k a. apply remoteDeletionStep_saved.
Qed.

(** The checkpoints of the passes: [saveSettings] runs after the upload
    pass, after the download pass and after the local-deletions pass.
    What the remote-deletions pass leaves in memory is not saved.  Between
    these three a pass saves only where one of its Drive calls refreshes
    the token: [e1], [e2] and [e3] below, one save for each refresh
    request at most. *)
Lemma reconcile_checkpoints (r : Run) :
  let r1 := uploadPass r in
  let r2 := downloadPass (saveSettings r1) in
  let r3 := localDeletionsPass (saveSettings r2) in
  exists e1 e2 e3,
    persisted (world (reconcile r))
    = (settings r3 :: e3 ++ settings r2 :: e2 ++ settings r1 :: e1
         ++ persisted (world r))%list
    /\ List.length e1 + List.length e2 + List.length e3
       + refreshes (world r)
       <= refreshes (world (reconcile r)).
Proof.
  intros r1 r2 r3. unfold reconcile. fold r1. fold r2. fold r3.
  destruct (remoteDeletionsPass_saved (saveSettings r3)) as (-> & ->).
  destruct (localDeletionsPass_saves (saveSettings r2)) as (e3 & P3 & L3).
  destruct (downloadPass_saves (saveSettings r1)) as (e2 & P2 & L2).
  destruct (uploadLoop_saves (uploadFuel r) 0 r) as (e1 & P1 & L1).
  fold (uploadPass r) in P1, L1. fold r1 in P1, L1.
  fold r2 in P2, L2. fold r3 in P3, L3.
  exists e1, e2, e3. cbn [saveSettings with_world world persisted refreshes]
    in *.
  rewrite P3, P2, P1. split; [reflexivity | lia].
Qed.

(** Without a refresh request the passes make these three saves and no
    other. *)
Lemma reconcile_checkpoints_no_refresh (r : Run) :
  let r1 := uploadPass r in
  let r2 := downloadPass (saveSettings r1) in
  let r3 := localDeletionsPass (saveSettings r2) in
  refreshes (world (reconcile r)) = refreshes (world r) ->
  persisted (world (reconcile r))
  = settings r3 :: settings r2 :: settings r1 :: persisted (world r).
Proof.
  intros r1 r2 r3 E.
  destruct (reconcile_checkpoints r) as (e1 & e2 & e3 & P & L).
  fold r1 r2 r3 in P. rewrite E in L.
  destruct e1; [|simpl in L; lia].
  destruct e2; [|simpl in L; lia].
  destruct e3; [|simpl in L; lia].
  exact P.
Qed.

End Checkpoints.

(* ------------------------------------------------------------------ *)
(** ** The upload loop visits every entry *)

Section UploadLoopEnds.
Context {host : Host}.

(** The keys of [K] that are not among the visited ones. *)
Definition pending (visited K : list string) : nat :=
  List.length
    (filter (fun k => negb (existsb (String.eqb k) visited)) K).

Lemma existsb_eqb_In k l : existsb (String.eqb k) l = true <-> In k l.
Proof.
  rewrite existsb_exists. split.
  - intros (x & I & E). apply String.eqb_eq in E. now subst.
  - intros I. exists k. split; auto. apply String.eqb_refl.
Qed.

Lemma filter_length_le {A : Type} (f g : A -> bool) (l : list A) :
  (forall x, f x = true -> g x = true) ->
  List.length (filter f l) <= List.length (filter g l).
Proof.
  intros H. induction l as [|x l IH]; simpl; auto.
  destruct (f x) eqn:Fx.
  - rewrite (H x Fx). simpl. lia.
  - destruct (g x); simpl; lia.
Qed.

Lemma filter_length_lt {A : Type} (f g : A -> bool) (l : list A) (a : A) :
  (forall x, f x = true -> g x = true) ->
  In a l -> f a = false -> g a = true ->
  List.length (filter f l) < List.length (filter g l).
Proof.
  intros H. induction l as [|x l IH]; simpl; [tauto|].
  intros [-> | I] Fa Ga.
  - rewrite Fa, Ga. simpl.
    pose proof (filter_length_le f g l H). lia.
  - specialize (IH I Fa Ga). destruct (f x) eqn:Fx.
    + rewrite (H x Fx). simpl. lia.
    + destruct (g x); simpl; lia.
Qed.

Lemma pending_visit_le V K p : pending (V ++ [p]) K <= pending V K.
Proof.
  apply filter_length_le. intros x H.
  apply negb_true_iff in H. apply negb_true_iff.
  destruct (existsb (String.eqb x) V) eqn:E; auto.
  apply existsb_eqb_In in E.
  assert (X : existsb (String.eqb x) (V ++ [p]) = true)
    by (apply existsb_eqb_In, in_or_app; auto).
  congruence.
Qed.

Lemma pending_visit_lt V K p :
  In p K -> ~ In p V -> pending (V ++ [p]) K < pending V K.
Proof.
  intros I N. apply (filter_length_lt _ _ K p); auto.
  - intros x H.
    apply negb_true_iff in H. apply negb_true_iff.
    destruct (existsb (String.eqb x) V) eqn:E; auto.
    apply existsb_eqb_In in E.
    assert (X : existsb (String.eqb x) (V ++ [p]) = true)
      by (apply existsb_eqb_In, in_or_app; auto).
    congruence.
  - apply negb_false_iff, existsb_eqb_In, in_or_app. right. simpl. auto.
  - apply negb_true_iff. destruct (existsb (String.eqb p) V) eqn:E; auto.
    apply existsb_eqb_In in E. contradiction.
Qed.

Lemma pending_visited_key V K p : pending (V ++ [p]) (K ++ [p]) = pending (V ++ [p]) K.
Proof.
  unfold pending. rewrite filter_app, length_app. simpl.
  assert (X : existsb (String.eqb p) (V ++ [p]) = true)
    by (apply existsb_eqb_In, in_or_app; right; simpl; auto).
  rewrite X. simpl. lia.
Qed.

Lemma firstn_succ_app {A : Type} (l e : list A) i x :
  nth_error l i = Some x -> firstn (S i) (l ++ e) = firstn i l ++ [x].
Proof.
  revert i. induction l as [|y l IH]; intros [|i] H; simpl in *;
    try discriminate.
  - now inversion H.
  - f_equal. now apply IH.
Qed.

Lemma NoDup_nth_not_before {A : Type} (l : list A) i x :
  NoDup l -> nth_error l i = Some x -> ~ In x (firstn i l).
Proof.
  intros N. revert i. induction N as [|y l Ny N IH]; intros [|i] H; simpl in *;
    try discriminate; auto.
  intros [-> | I].
  - apply nth_error_In in H. contradiction.
  - exact (IH i H I).
Qed.

(** What an upload step does to the local snapshot map: nothing, or one
    assignment, the backup of a conflict, which leaves [fileMap] alone and
    needs an entry for the path. *)
Lemma uploadStep_localFiles p ls r :
  localFiles (uploadStep p ls r) = localFiles r
  \/ exists c st,
       localFiles (uploadStep p ls r) = OMap.set c st (localFiles r)
       /\ fileMapOf (uploadStep p ls r) = fileMapOf r
       /\ OMap.get p (fileMapOf r) <> None.
Proof.
  unfold uploadStep.
  destruct (classifyUpload (OMap.get p (fileMapOf r)) ls
                           (OMap.get p (remoteFilesMap r)))
    as [op reason] eqn:E.
  destruct (OMap.get p (fileMapOf r)) as [m|] eqn:G.
  2:{ left. simpl in E. inversion E; subst. simpl.
      now rewrite executeUpload_localFiles. }
  assert (C : reason = CONFLICT -> op = skip).
  { intros ->.
    pose proof (classifyUpload_conflict_skips (Some m) ls
                  (OMap.get p (remoteFilesMap r))) as X.
    rewrite E in X. now apply X. }
  destruct reason;
    try (left; destruct op; simpl;
         try rewrite executeUpload_localFiles; reflexivity).
  rewrite (C eq_refl). simpl. autorewrite with run.
  rewrite backupLocal_fileMap.
  unfold backupLocal. repeat break_match; simpl; auto.
  right. eexists _, _. repeat split; eauto. discriminate.
Qed.

Definition measure (i : nat) (r : Run) : nat :=
  (List.length (localFiles r) - i)
  + pending (firstn i (OMap.keys (localFiles r))) (OMap.keys (fileMapOf r)).

Lemma uploadStep_decreases i p ls r :
  NoDup (OMap.keys (localFiles r)) ->
  nth_error (localFiles r) i = Some (p, ls) ->
  NoDup (OMap.keys (localFiles (uploadStep p ls r)))
  /\ measure (S i) (uploadStep p ls r) < measure i r.
Proof.
  intros ND E.
  assert (Ek : nth_error (OMap.keys (localFiles r)) i = Some p)
    by (unfold OMap.keys; now rewrite (map_nth_error fst i (localFiles r) E)).
  assert (Li : i < List.length (localFiles r))
    by (apply nth_error_Some; congruence).
  pose proof (NoDup_nth_not_before _ _ _ ND Ek) as NV.
  unfold measure.
  destruct (uploadStep_localFiles p ls r) as [L | (c & st & L & Fm & G)].
  - (* the snapshot map is as before *)
    rewrite L. split; auto.
    rewrite <- (app_nil_r (OMap.keys (localFiles r))) at 1.
    rewrite (firstn_succ_app _ [] i p Ek).
    assert (P : pending (firstn i (OMap.keys (localFiles r)) ++ [p])
                        (OMap.keys (fileMapOf (uploadStep p ls r)))
                <= pending (firstn i (OMap.keys (localFiles r)))
                           (OMap.keys (fileMapOf r))).
    { destruct (uploadStep_fileMap p ls r) as [-> | H].
      - apply pending_visit_le.
      - destruct H as (? & ? & ? & ? & ? & _ & _ & _ & ->).
        rewrite keys_set. destruct (OMap.has p (fileMapOf r)).
        + apply pending_visit_le.
        + rewrite pending_visited_key. apply pending_visit_le. }
    lia.
  - (* a backup was recorded *)
    rewrite L, Fm. split; [now apply NoDup_keys_set|].
    rewrite keys_set.
    assert (Ip : In p (OMap.keys (fileMapOf r))) by now apply get_in_keys.
    assert (Len : List.length (OMap.set c st (localFiles r))
                  <= S (List.length (localFiles r))).
    { pose proof (keys_set c st (localFiles r)) as K.
      apply (f_equal (@List.length string)) in K.
      unfold OMap.keys in K.
      destruct (OMap.has c (localFiles r));
        rewrite ?length_app, !length_map in K; simpl in K; lia. }
    assert (F : firstn (S i) (if OMap.has c (localFiles r)
                              then OMap.keys (localFiles r)
                              else OMap.keys (localFiles r) ++ [c])
                = firstn i (OMap.keys (localFiles r)) ++ [p]).
    { destruct (OMap.has c (localFiles r)).
      - rewrite <- (app_nil_r (OMap.keys (localFiles r))) at 1.
        now apply firstn_succ_app.
      - now apply firstn_succ_app. }
    rewrite F.
    pose proof (pending_visit_lt (firstn i (OMap.keys (localFiles r)))
                  (OMap.keys (fileMapOf r)) p Ip NV).
    lia.
Qed.

Lemma uploadLoop_enough n : forall fuel i r,
  NoDup (OMap.keys (localFiles r)) ->
  measure i r <= n -> n <= fuel ->
  uploadLoop fuel i r = uploadLoop n i r.
Proof.
  induction n as [|n IH]; intros fuel i r ND M Le.
  - assert (E : nth_error (localFiles r) i = None).
    { apply nth_error_None. unfold measure in M. lia. }
    destruct fuel; simpl; auto. now rewrite E.
  - destruct fuel as [|fuel]; [lia|]. simpl.
    destruct (nth_error (localFiles r) i) as [[p ls]|] eqn:E; auto.
    destruct (uploadStep_decreases i p ls r ND E) as (ND' & D).
    apply IH; auto; lia.
Qed.

(** [uploadFuel] is enough: with any more fuel the loop does the same, so
    [uploadPass] ends because the entries of [localFiles] are used up. *)
Lemma uploadPass_visits_all (r : Run) (extra : nat) :
  NoDup (OMap.keys (localFiles r)) ->
  uploadLoop (uploadFuel r + extra) 0 r = uploadPass r.
Proof.
  intros ND. unfold uploadPass. apply uploadLoop_enough; auto; [|lia].
  unfold measure, uploadFuel, pending. rewrite Nat.sub_0_r. cbn [firstn].
  assert (X : forall K : list string,
             filter (fun k => negb (existsb (String.eqb k) [])) K = K).
  { induction K as [|k K IHK]; simpl; [|f_equal]; auto. }
  rewrite X. unfold OMap.keys. rewrite length_map. lia.
Qed.

Lemma collectLocalFiles_NoDup w : NoDup (OMap.keys (collectLocalFiles w)).
Proof.
  unfold collectLocalFiles.
  assert (X : forall l acc,
             NoDup (OMap.keys acc) ->
             NoDup (OMap.keys (fold_left (collectStep w) l acc))).
  { induction l as [|f l IH]; intros acc N; simpl; auto.
    apply IH. unfold collectStep.
    repeat break_match; auto using NoDup_keys_set. }
  apply X. constructor.
Qed.

End UploadLoopEnds.

(* ------------------------------------------------------------------ *)
(** ** Worked runs *)

Import Worked.

(** The backup path of [a.md] when the clock reads [T0 + 5 s]. *)
Definition backupOfNote : string :=
  "a_local_conflict_2024-01-01T00-00-05-000Z.md".

(** The Drive object named [p], if any. *)
Definition remoteEntry (p : string) (w : World) : option (DriveFile * string) :=
  find (fun o => String.eqb (name (fst o)) p) (drive w).

(** Convergence of a path as the specification words it: the local file's
    mtime is the recorded [localMtimeEpoch] and the remote entry's
    [modifiedTime] is the recorded [remoteMtime]. *)
Definition converged (r : Run) (p : string) : Prop :=
  forall m f o,
    OMap.get p (fileMapOf r) = Some m ->
    findFile p (vault (world r)) = Some f ->
    remoteEntry p (world r) = Some o ->
    localMtimeEpoch m = Some (vmtime f)
    /\ remoteMtime m = Some (modifiedTime (fst o)).

(** C1.  The conflict of the claim with the local copy the newer of the
    two ([T0 < T2 < T1]), no call failing.  The run writes the backup with
    the local content, and uploads it; but the download pass finds [a.md]
    still in [localFiles] with the newer local mtime and skips it, so
    [a.md] ends the run with the local content and the recorded
    [remoteMtime] is still [T0]. *)
Theorem conflict_with_newer_local_is_not_downloaded :
  let r := run noFaults (settingsWith agreedAtT0) conflictWorld in
  Js.gt (Js.Num (T0 + 2000)) (Js.Num T0) = true
  /\ Js.gt (Iso.parse "2024-01-01T00:00:01.000Z")
           (Iso.parse "2024-01-01T00:00:00.000Z") = true
  /\ shown r
     = [ConflictSaved "a.md" backupOfNote;
        LogFile "a.md" skip CONFLICT;
        LogFile backupOfNote upload_new New_local_file;
        Uploaded backupOfNote;
        LogRemoteFile "a.md" skip Local_newer_than_this_remote;
        LogRemoteFile backupOfNote skip Remote_unchanged_or_older]
  /\ option_map vdata (findFile backupOfNote (vault (world r)))
     = Some "local edit"
  /\ option_map vdata (findFile "a.md" (vault (world r))) = Some "local edit"
  /\ option_map snd (remoteEntry "a.md" (world r)) = Some "remote edit"
  /\ option_map remoteMtime (OMap.get "a.md" (fileMapOf r))
     = Some (Some "2024-01-01T00:00:00.000Z").
Proof. vm_compute. repeat split. Qed.

(** The same conflict with the remote copy the newer of the two
    ([T0 < T1 < T2]): the backup is written and the download pass
    overwrites [a.md] with the remote content and records [T2]. *)
Example conflict_with_newer_remote_is_downloaded :
  let r := run noFaults (settingsWith agreedAtT0) conflictWorldRemoteNewer in
  option_map vdata (findFile backupOfNote (vault (world r)))
  = Some "local edit"
  /\ option_map vdata (findFile "a.md" (vault (world r))) = Some "remote edit"
  /\ option_map remoteMtime (OMap.get "a.md" (fileMapOf r))
     = Some (Some "2024-01-01T00:00:02.000Z").
Proof. vm_compute. repeat split. Qed.

(** C2.  A file that is on Drive only, no call failing.  The first run
    downloads it and then, the file being absent from the local snapshot
    taken before the download, deletes it from Drive and drops its entry.
    The second run, with nothing changed in between, classifies the file as
    a new upload and uploads it. *)
Theorem second_run_uploads_what_the_first_downloaded :
  let r1 := run noFaults (settingsWith []) remoteOnlyWorld in
  let r2 := run noFaults (settings r1) (world r1) in
  shown r1
  = [LogRemoteFile "a.md" download_new New_remote_file;
     Downloaded "a.md";
     DeletingRemote "a.md";
     DeletedRemote "a.md"]
  /\ drive (world r1) = []
  /\ fileMap (settings r1) = Some []
  /\ shown r2
     = [LogFile "a.md" upload_new New_local_file;
        Uploaded "a.md";
        LogRemoteFile "a.md" skip Remote_unchanged_or_older].
Proof. vm_compute. repeat split. Qed.

(** C3, as stated, fails: a local change that is not newer than the
    unchanged remote copy is skipped by both passes of an error-free run,
    and the path does not converge. *)
Lemma deferred_local_change_does_not_converge :
  let r := run noFaults (settingsWith agreedStampedLater) deferredWorld in
  shown r
  = [LogFile "a.md" skip Local_changed_remote_same_or_newer;
     LogRemoteFile "a.md" skip Remote_unchanged_or_older]
  /\ ~ converged r "a.md".
Proof.
  split; [vm_compute; reflexivity|].
  intros C.
  destruct (C (mkFileSyncState "r1" (Some "2024-01-01T00:00:03.000Z") None
                               (Some T0))
              (mkVaultFile "a.md" (T0 + 2000) "local edit")
              (note "r1" "2024-01-01T00:00:03.000Z", "remote text"))
    as [H _]; try (vm_compute; reflexivity).
  vm_compute in H. discriminate H.
Qed.

(** An update upload records the remote time of the listing taken before
    the upload (line 342 prefers the entry of [remoteFilesMap]), not the
    time Drive stamps the upload with; the next run, with nothing changed,
    downloads the file it has just uploaded. *)
Example update_upload_records_the_listing_from_before :
  let r1 := run noFaults (settingsWith agreedAtT0) localEditWorld in
  let r2 := run noFaults (settings r1) (world r1) in
  shown r1
  = [LogFile "a.md" upload_update Local_newer_than_remote;
     Uploaded "a.md";
     LogRemoteFile "a.md" skip Remote_unchanged_or_older]
  /\ option_map remoteMtime (OMap.get "a.md" (fileMapOf r1))
     = Some (Some "2024-01-01T00:00:00.000Z")
  /\ option_map (fun o => modifiedTime (fst o)) (remoteEntry "a.md" (world r1))
     = Some "2024-01-01T00:00:05.000Z"
  /\ shown r2
     = [LogFile "a.md" skip Local_unchanged;
        LogRemoteFile "a.md" download_update Remote_newer_than_local;
        Downloaded "a.md"].
Proof. vm_compute. repeat split. Qed.

(** C4.  A path the run could not read is taken for a deleted one, on
    either side.  [a.md] is in the vault and on Drive, both as recorded,
    and [adapter.stat] rejects on it: the path is left out of the local
    snapshot, and the local-deletions pass of the same run announces the
    file as deleted, deletes its Drive object and drops its entry, while
    the file is still in the vault.  On the same state with the listing
    request failing instead, the remote snapshot is empty, and the
    remote-deletions pass of the same run deletes the local file and drops
    its entry, while the object is still on Drive. *)
Theorem stat_error_deletes_the_remote_copy :
  let F := statFailsOn "a.md" in
  let r := run F (settingsWith agreedAtT0) quietWorld in
  let G := listFailsAt 0 in
  let r' := run G (settingsWith agreedAtT0) quietWorld in
  (statThrows F "a.md" = true
   /\ option_map vdata (findFile "a.md" (vault quietWorld)) = Some "text"
   /\ option_map snd (findDrive "r1" (drive quietWorld)) = Some "text"
   /\ OMap.has "a.md" (localFiles r) = false
   /\ findDrive "r1" (drive (world r)) = None
   /\ option_map vdata (findFile "a.md" (vault (world r))) = Some "text"
   /\ OMap.get "a.md" (fileMapOf r) = None
   /\ shown r
      = [LogRemoteFile "a.md" download_new New_remote_file;
         DownloadError "a.md";
         DeletingRemote "a.md";
         DeletedRemote "a.md"])
  /\ (listFails G (listings quietWorld) = true
      /\ remoteFilesMap r' = []
      /\ findFile "a.md" (vault (world r')) = None
      /\ option_map snd (findDrive "r1" (drive (world r'))) = Some "text"
      /\ OMap.get "a.md" (fileMapOf r') = None
      /\ shown r'
         = [LogFile "a.md" skip Local_unchanged;
            DeletingLocal "a.md";
            DeletedLocal "a.md"]).
Proof. vm_compute. repeat split. Qed.

(** C6, as stated, fails: both sides are exactly as recorded, the local
    mtime being [0] and the remote time one second before the epoch, and
    the run uploads the file. *)
Lemma tie_at_epoch_uploads :
  let r0 := snapshotOf noFaults agreedAtEpoch epochWorld in
  let r := run noFaults (settingsWith agreedAtEpoch) epochWorld in
  option_map mtime (OMap.get "a.md" (localFiles r0)) = Some 0%Z
  /\ option_map localMtimeEpoch (OMap.get "a.md" (fileMapOf r0))
     = Some (Some 0%Z)
  /\ option_map modifiedTime (OMap.get "a.md" (remoteFilesMap r0))
     = Some "1969-12-31T23:59:59.000Z"
  /\ option_map remoteMtime (OMap.get "a.md" (fileMapOf r0))
     = Some (Some "1969-12-31T23:59:59.000Z")
  /\ shown r
     = [LogFile "a.md" upload_update Local_newer_than_remote;
        Uploaded "a.md";
        LogRemoteFile "a.md" skip Remote_unchanged_or_older].
Proof. vm_compute. repeat split. Qed.

(** C7.  [a.md] is gone from Drive: the remote-deletions pass deletes the
    local file and drops the entry, and the run returns without a save, so
    the last of its three checkpoints still holds the entry. *)
Theorem remote_deletions_are_not_saved :
  let r := run noFaults (settingsWith agreedAtT0) remoteGoneWorld in
  shown r
  = [LogFile "a.md" skip Local_unchanged;
     DeletingLocal "a.md";
     DeletedLocal "a.md"]
  /\ fileMap (settings r) = Some []
  /\ List.length (persisted (world r)) = 3
  /\ option_map fileMap (hd_error (persisted (world r)))
     = Some (Some agreedAtT0).
Proof. vm_compute. repeat split. Qed.

(* ------------------------------------------------------------------ *)
(** ** The theorems at work on the scenarios *)

(** [a.md] recorded and on Drive, gone from the vault and so from the
    local snapshot. *)
Definition goneLocally : Run :=
  mkRun (settingsWith agreedAtT0) []
        [("a.md", note "r1" "2024-01-01T00:00:00.000Z")]
        (mkWorld [] [(note "r1" "2024-01-01T00:00:00.000Z", "text")]
                 (T0 + 5000)%Z 0 0 [] 0)
        [].

(** C5 at work: the remote delete of pass one answers [true], the entry is
    removed and the object is gone from Drive. *)
Lemma deletion_propagation_witness :
  NoDup (OMap.keys (fileMapOf goneLocally))
  /\ fst (@deleteGoogleDriveFile (isoHost noFaults) "r1" goneLocally) = true
  /\ OMap.get "a.md"
       (fileMapOf (@localDeletionsPass (isoHost noFaults) goneLocally))
     = None
  /\ findDrive "r1"
       (drive (world (@localDeletionsPass (isoHost noFaults) goneLocally)))
     = None.
Proof.
  assert (ND : NoDup (OMap.keys (fileMapOf goneLocally))).
  { repeat constructor. simpl. tauto. }
  split; [exact ND|]. split; [reflexivity|].
  destruct (@deletion_propagation (isoHost noFaults) goneLocally ND)
    as ((evs & _ & P1) & _).
  specialize (P1 "a.md"
                 (mkFileSyncState "r1" (Some "2024-01-01T00:00:00.000Z")
                                  None (Some T0))
                 eq_refl).
  change (OMap.has "a.md" (localFiles goneLocally)) with false in P1.
  destruct P1 as (ks1 & ks2 & K & P1).
  destruct ks1 as [|x ks1].
  - cbn [fold_left remoteId] in P1. destruct P1 as (_ & P1).
    change (fst (@deleteGoogleDriveFile (isoHost noFaults) "r1" goneLocally))
      with true in P1.
    split; apply P1.
  - change (OMap.keys (fileMapOf goneLocally)) with ["a.md"] in K.
    destruct ks1; discriminate K.
Defined.

(** C6 at work on the quiet world: nothing moved since [T0]. *)
Lemma tie_means_no_action_witness :
  Iso.parse "" = Js.NaN
  /\ @localDeletionStep (isoHost noFaults) "a.md"
       (snapshotOf noFaults agreedAtT0 quietWorld)
     = snapshotOf noFaults agreedAtT0 quietWorld
  /\ @downloadStep (isoHost noFaults) "a.md"
       (note "r1" "2024-01-01T00:00:00.000Z")
       (snapshotOf noFaults agreedAtT0 quietWorld)
     = show (LogRemoteFile "a.md" skip Remote_unchanged_or_older)
            (snapshotOf noFaults agreedAtT0 quietWorld).
Proof.
  split; [reflexivity|].
  destruct (proj2 (@tie_means_no_action (isoHost noFaults)
                     (snapshotOf noFaults agreedAtT0 quietWorld) "a.md"
                     (mkFileSyncState "r1" (Some "2024-01-01T00:00:00.000Z")
                                      None (Some T0))
                     (mkLocalStat "a.md" T0)
                     (note "r1" "2024-01-01T00:00:00.000Z"))
                  eq_refl eq_refl eq_refl eq_refl eq_refl eq_refl)
    as (_ & _ & D & L & _).
  - intros H. vm_compute in H. discriminate H.
  - split; [exact L | exact D].
Defined.

(** C9 at work: an entry without [localMtimeEpoch], a local mtime of [T0]
    and a remote copy that did not move. *)
Lemma absent_local_record_witness :
  (localMtimeEpoch
     (mkFileSyncState "r1" (Some "2024-01-01T00:00:00.000Z") None None)
   = None
   \/ localMtimeEpoch
        (mkFileSyncState "r1" (Some "2024-01-01T00:00:00.000Z") None None)
      = Some 0%Z)
  /\ @classifyUpload (isoHost noFaults)
       (Some (mkFileSyncState "r1" (Some "2024-01-01T00:00:00.000Z") None
                              None))
       (mkLocalStat "a.md" T0)
       (Some (note "r1" "2024-01-01T00:00:00.000Z"))
     = (skip, Local_changed_remote_same_or_newer).
Proof.
  split; [left; reflexivity|].
  exact (proj2 (@absent_local_record_counts_as_changed (isoHost noFaults)
                  (mkFileSyncState "r1" (Some "2024-01-01T00:00:00.000Z")
                                   None None)
                  (mkLocalStat "a.md" T0)
                  (Some (note "r1" "2024-01-01T00:00:00.000Z"))
                  (or_introl eq_refl))).
Defined.

(** C10 at work: the picture of the mixed vault gets no entry. *)
Lemma only_markdown_is_uploaded_witness :
  localFiles (snapshotOf noFaults [] mixedWorld)
  = @collectLocalFiles (isoHost noFaults) mixedWorld
  /\ Js.endsWith ".md" "pic.png" = false
  /\ OMap.get "pic.png"
       (fileMapOf (@uploadPass (isoHost noFaults)
                               (snapshotOf noFaults [] mixedWorld)))
     = None.
Proof.
  split; [reflexivity|]. split; [reflexivity|].
  destruct (@only_markdown_is_uploaded (isoHost noFaults) mixedWorld
              (snapshotOf noFaults [] mixedWorld) eq_refl) as (_ & Q).
  exact (proj1 (Q "pic.png" eq_refl)).
Defined.

(** The remote-only world after the downloaded note has been created. *)
Definition afterDownload : World :=
  mkWorld [mkVaultFile "a.md" (T0 + 5000) "remote text"]
          [(note "r1" "2024-01-01T00:00:01.000Z", "remote text")]
          (T0 + 5001) 1 0 [] 0.

(** C3 (amended) at work: the download of the remote-only note. *)
Lemma written_entry_witness :
  @classifyDownload (isoHost noFaults)
    (OMap.get "a.md" (localFiles (snapshotOf noFaults [] remoteOnlyWorld)))
    (OMap.get "a.md" (fileMapOf (snapshotOf noFaults [] remoteOnlyWorld)))
    (note "r1" "2024-01-01T00:00:01.000Z")
  = (download_new, New_remote_file)
  /\ @downloadGoogleDriveFile (isoHost noFaults) "r1"
       (snapshotOf noFaults [] remoteOnlyWorld)
     = (Some "remote text", snapshotOf noFaults [] remoteOnlyWorld)
  /\ @writeDownloaded (isoHost noFaults) "a.md" download_new "remote text"
       (world (snapshotOf noFaults [] remoteOnlyWorld))
     = returned afterDownload
  /\ @stat (isoHost noFaults) "a.md" afterDownload = returned (Some (T0 + 5000)%Z)
  /\ exists m,
      OMap.get "a.md"
        (fileMapOf (@downloadStep (isoHost noFaults) "a.md"
                      (note "r1" "2024-01-01T00:00:01.000Z")
                      (snapshotOf noFaults [] remoteOnlyWorld)))
      = Some m
      /\ remoteMtime m = Some "2024-01-01T00:00:01.000Z"
      /\ localMtimeEpoch m = Some (T0 + 5000)%Z.
Proof.
  repeat (split; [reflexivity|]).
  destruct (@written_entry_records_the_step (isoHost noFaults)
              (snapshotOf noFaults [] remoteOnlyWorld) "a.md") as (D & _).
  destruct (D (note "r1" "2024-01-01T00:00:01.000Z") download_new
              New_remote_file "remote text"
              (snapshotOf noFaults [] remoteOnlyWorld) afterDownload
              (Some (T0 + 5000)%Z) eq_refl)
    as (m & G & _ & R & L); try reflexivity; try discriminate.
  exists m. split; [exact G|]. split; [exact R|].
  exact (L (mkVaultFile "a.md" (T0 + 5000) "remote text") eq_refl).
Defined.

(** C8 at work: the read of the note of the mixed vault rejects. *)
Lemma state_written_witness :
  @readBinary (isoHost (readFailsOn "a.md")) "a.md"
    (world (snapshotOf (readFailsOn "a.md") [] mixedWorld)) = thrown
  /\ fileMapOf
       (@uploadStep (isoHost (readFailsOn "a.md")) "a.md"
          (mkLocalStat "a.md" T0)
          (snapshotOf (readFailsOn "a.md") [] mixedWorld))
     = fileMapOf (snapshotOf (readFailsOn "a.md") [] mixedWorld).
Proof.
  split; [reflexivity|].
  destruct (@state_written_only_after_success
              (isoHost (readFailsOn "a.md"))
              (snapshotOf (readFailsOn "a.md") [] mixedWorld) "a.md")
    as (U & _).
  exact (proj1 (U (mkLocalStat "a.md" T0)) eq_refl).
Defined.

(* ------------------------------------------------------------------ *)
(** ** Further properties of the run *)

Section RunAsAWhole.
Context {host : Host}.

Lemma snapshot_localFiles (r : Run) :
  exists w, localFiles (snapshot r) = collectLocalFiles w.
Proof.
  unfold snapshot.
  destruct (listGoogleDriveFiles _) as [l r2]. simpl. eauto.
Qed.

(** X1.  The upload loop walks a map that grows while it is walked (every
    conflict adds the backup as a new entry).  After the snapshots it
    always comes to the end of the map: within the number of local entries
    plus the number of SyncState entries, and iterations allowed beyond
    that number are not used. *)
Theorem upload_loop_ends (r0 : Run) (extra : nat) :
  uploadLoop (List.length (localFiles (snapshot r0))
              + List.length (fileMapOf (snapshot r0)) + extra)
             0 (snapshot r0)
  = uploadPass (snapshot r0).
Proof.
  apply uploadPass_visits_all.
  destruct (snapshot_localFiles r0) as [w ->].
  apply collectLocalFiles_NoDup.
Qed.

Lemma snapshot_frame (r : Run) :
  vault (world (snapshot r)) = vault (world r)
  /\ drive (world (snapshot r)) = drive (world r)
  /\ shown (snapshot r) = shown r
  /\ refresh_saves (world r) (world (snapshot r)).
Proof.
  unfold snapshot.
  set (r1 := match fileMap (settings r) with
             | Some _ => r
             | None => with_fileMap [] r
             end).
  assert (W : world r1 = world r) by (unfold r1; now destruct (fileMap _)).
  assert (S : shown r1 = shown r) by (unfold r1; now destruct (fileMap _)).
  pose proof (withToken_saves [] listFilesRequest r1 listFilesRequest_saved)
    as P.
  pose proof (withToken_maps [] listFilesRequest r1)
    as (_ & _ & _ & _ & _ & S1).
  fold (listGoogleDriveFiles r1) in P, S1.
  destruct (withToken_world [] listFilesRequest r1)
    as (w0 & (V & D & _) & Q).
  fold (listGoogleDriveFiles r1) in Q.
  assert (X : vault (world (snd (listGoogleDriveFiles r1))) = vault w0
              /\ drive (world (snd (listGoogleDriveFiles r1))) = drive w0).
  { destruct Q as [[_ ->] | Q]; [now split|].
    assert (E : world (snd (listGoogleDriveFiles r1))
                = snd (listFilesRequest w0)) by now rewrite <- Q.
    rewrite E. unfold listFilesRequest. repeat break_match; now split. }
  destruct (listGoogleDriveFiles r1) as [l r2].
  cbn [snd world shown] in *. rewrite <- W.
  destruct X as (X1 & X2). repeat split; congruence.
Qed.

(** What [findOrCreateAppFolder] leaves alone, and what it saves: when the
    stored id is used or no id is found, what its token call saves; when
    the id is looked up, that and one save more. *)
Lemma findOrCreateAppFolder_frame (r : Run) :
  let r1 := snd (findOrCreateAppFolder r) in
  vault (world r1) = vault (world r)
  /\ drive (world r1) = drive (world r)
  /\ shown r1 = shown r
  /\ exists extra,
      persisted (world r1) = (extra ++ persisted (world r))%list
      /\ List.length extra
         <= (refreshes (world r1) - refreshes (world r))
            + (if Js.truthy (googleDriveAppFolderId (settings r)) then 0
               else if Js.truthy (fst (findOrCreateAppFolder r)) then 1
                    else 0)
      /\ refreshes (world r) <= refreshes (world r1)
      /\ (Js.truthy (fst (findOrCreateAppFolder r)) = true ->
          List.length extra
          >= if Js.truthy (googleDriveAppFolderId (settings r)) then 0
             else 1)
      /\ (Js.truthy (fst (findOrCreateAppFolder r)) = false ->
          same_maps r r1).
Proof.
  unfold findOrCreateAppFolder.
  destruct (getValidGoogleDriveToken_frame r)
    as ((M1 & M2 & M3 & M4 & M5 & M6) & (V & D & _)).
  destruct (getValidGoogleDriveToken_saves r) as (e & P & L).
  destruct (getValidGoogleDriveToken r) as [token r0]. cbn [snd] in *.
  rewrite <- M2.
  assert (B : exists extra,
             persisted (world r0) = (extra ++ persisted (world r))%list
             /\ List.length extra
                <= refreshes (world r0) - refreshes (world r) + 0
             /\ refreshes (world r) <= refreshes (world r0))
    by (exists e; repeat split; auto; lia).
  destruct (Js.truthy token); cbn [negb].
  2:{ cbn [fst snd Js.truthy]. repeat split; auto.
      destruct B as (x & B1 & B2 & B3). exists x.
      destruct (Js.truthy (googleDriveAppFolderId (settings r0)));
        repeat split; auto; try discriminate. }
  destruct (Js.truthy (googleDriveAppFolderId (settings r0))) eqn:T.
  { cbn [fst snd]. rewrite T. repeat split; auto.
    destruct B as (x & B1 & B2 & B3). exists x.
    repeat split; auto; try lia; try discriminate. }
  destruct (folderLookupFails faults || negb (authorized faults)).
  { cbn [fst snd Js.truthy]. repeat split; auto.
    destruct B as (x & B1 & B2 & B3). exists x.
    repeat split; auto; try discriminate. }
  cbn [fst snd]. repeat split; auto.
  exists (mkSettings (cloudProvider (settings r0))
                     (googleDriveTokens (settings r0)) (Some "app-folder")
                     (fileMap (settings r0)) :: e).
  simpl. rewrite P. repeat split; auto; try lia; try discriminate.
Qed.

(** X2.  The gates of [syncNow] (lines 185-201) and the saves of a run.
    With another provider the run stops before any call: it touches
    nothing and saves nothing.  A run stopped for want of a token or of a
    folder id touches neither the vault nor Drive, keeps the provider, the
    folder id and [fileMap], and saves only what a token refresh saves, one
    save for each refresh request at most.  A run that passes the gates
    saves at its three checkpoints, once more when the folder id had to be
    looked up, and beyond these only what token refreshes save. *)
Theorem gates_and_checkpoints (s : CloudSyncSettings) (w : World) :
  let r := syncNow s w in
  let g1 := getValidGoogleDriveToken (mkRun s [] [] w []) in
  let g2 := findOrCreateAppFolder (snd g1) in
  (String.eqb (cloudProvider s) "google-drive" = false ->
   r = mkRun s [] [] w [Aborted])
  /\ (String.eqb (cloudProvider s) "google-drive"
      && Js.truthy (fst g1) && Js.truthy (fst g2) = false ->
      same_maps (mkRun s [] [] w [Aborted]) r
      /\ vault (world r) = vault w
      /\ drive (world r) = drive w
      /\ refresh_saves w (world r))
  /\ (String.eqb (cloudProvider s) "google-drive"
      && Js.truthy (fst g1) && Js.truthy (fst g2) = true ->
      exists n,
        List.length (persisted (world r))
        = 3 + (if Js.truthy (googleDriveAppFolderId s) then 0 else 1)
          + n + List.length (persisted w)
        /\ n + refreshes w <= refreshes (world r)).
Proof.
  intros r g1 g2. subst r. unfold syncNow.
  destruct (getValidGoogleDriveToken_frame (mkRun s [] [] w []))
    as (M1 & (V1 & D1 & _)).
  destruct (getValidGoogleDriveToken_saves (mkRun s [] [] w []))
    as (e1 & P1 & L1).
  change (getValidGoogleDriveToken (mkRun s [] [] w [])) with g1
    in M1, V1, D1, P1, L1 |- *.
  destruct (findOrCreateAppFolder_frame (snd g1))
    as (V2 & D2 & S2 & e2 & P2 & L2 & L2' & L2'' & M2).
  change (findOrCreateAppFolder (snd g1)) with g2
    in V2, D2, S2, P2, L2, L2', L2'', M2.
  assert (F : googleDriveAppFolderId (settings (snd g1))
              = googleDriveAppFolderId s) by apply M1.
  rewrite F in L2, L2''.
  assert (G2 : g2 = findOrCreateAppFolder (snd g1)) by reflexivity.
  clearbody g2. clearbody g1.
  destruct g1 as [token r0]. destruct g2 as [fid r1].
  cbn [fst snd world] in *.
  destruct (String.eqb (cloudProvider s) "google-drive"); cbn [negb andb].
  2:{ split; [reflexivity|]. split; [|discriminate]. intros _.
      repeat split; auto using same_maps_refl, refresh_saves_refl. }
  split; [discriminate|].
  destruct (Js.truthy token); cbn [negb andb].
  2:{ split; [|discriminate]. intros _.
      destruct M1 as (A1 & A2 & A3 & A4 & A5 & A6).
      cbn [show settings localFiles remoteFilesMap shown world] in *.
      split; [|split; [|split]]; auto.
      - repeat split; cbn [show settings localFiles remoteFilesMap shown];
          try congruence; now rewrite A6.
      - now exists e1. }
  rewrite <- G2.
  destruct fid as [[|c f]|]; cbn [Js.truthy] in *.
  1,3: split; [|discriminate]; intros _;
    specialize (M2 eq_refl);
    pose proof (same_maps_trans _ _ _ M1 M2) as (A1 & A2 & A3 & A4 & A5 & A6);
    cbn [show settings localFiles remoteFilesMap shown world] in *;
    (split; [|split; [|split]]);
    [ repeat split; cbn [show settings localFiles remoteFilesMap shown];
      try congruence; now rewrite A6
    | congruence
    | congruence
    | exists (e2 ++ e1)%list; split;
      [ now rewrite P2, P1, app_assoc
      | rewrite length_app;
        destruct (Js.truthy (googleDriveAppFolderId s)); lia ] ].
  split; [discriminate|]. intros _.
  destruct (reconcile_checkpoints (snapshot r1)) as (x1 & x2 & x3 & P & L).
  destruct (snapshot_frame r1) as (_ & _ & _ & x0 & P0 & L0).
  rewrite P, P0, P2, P1. cbn [persisted].
  specialize (L2'' eq_refl).
  exists (List.length x1 + List.length x2 + List.length x3
          + List.length x0 + List.length e2 + List.length e1
          - (if Js.truthy (googleDriveAppFolderId s) then 0 else 1)).
  repeat (rewrite length_app || rewrite length_cons).
  destruct (Js.truthy (googleDriveAppFolderId s)); split; lia.
Qed.

End RunAsAWhole.

(* ------------------------------------------------------------------ *)
(** ** The remote snapshot (lines 243-256) *)

Section RemoteSnapshot.

Definition notFolder (f : DriveFile) : bool :=
  negb (String.eqb (mimeType f) folderMime).

Definition collectRemoteStep (acc : RemoteFilesMap) (driveFile : DriveFile)
  : RemoteFilesMap :=
  if String.eqb (mimeType driveFile) folderMime then acc
  else OMap.set (name driveFile) driveFile acc.

Lemma find_app_last {A : Type} (f : A -> bool) (l : list A) (x : A) :
  find f (l ++ [x])
  = match find f l with
    | Some y => Some y
    | None => if f x then Some x else None
    end.
Proof.
  induction l as [|y l IH]; simpl; auto.
  destruct (f y); auto.
Qed.

(** The files of the listing named [p], folders left out, last one
    first. *)
Definition lastNamed (p : string) (l : list DriveFile) : option DriveFile :=
  find (fun f => String.eqb (name f) p) (rev (filter notFolder l)).

Lemma collectRemote_fold (l : list DriveFile) : forall acc p,
  OMap.get p (fold_left collectRemoteStep l acc)
  = match lastNamed p l with
    | Some f => Some f
    | None => OMap.get p acc
    end.
Proof.
  unfold lastNamed.
  induction l as [|x l IH]; intros acc p; simpl; auto.
  rewrite IH. unfold collectRemoteStep, notFolder.
  destruct (String.eqb (mimeType x) folderMime); simpl; auto.
  rewrite find_app_last.
  destruct (find _ (rev (filter _ l))); auto.
  destruct (String.eqb (name x) p) eqn:E.
  - apply String.eqb_eq in E. subst p. apply get_set_same.
  - apply get_set_other. apply String.eqb_neq in E. congruence.
Qed.

(** X3.  The remote snapshot maps a name to the last file of the listing
    that bears it: when Drive holds several files of one name, the earlier
    ones are out of the run's sight.  Folders never enter the snapshot, and
    every entry is a file of the listing kept under its own name. *)
Theorem remote_snapshot_keeps_the_last_of_a_name (l : list DriveFile) :
  (forall p, OMap.get p (collectRemoteFiles l) = lastNamed p l)
  /\ (forall before f after,
         l = before ++ f :: after ->
         notFolder f = true ->
         (forall g, In g after -> notFolder g = true ->
                    name g <> name f) ->
         OMap.get (name f) (collectRemoteFiles l) = Some f)
  /\ (forall p f,
         OMap.get p (collectRemoteFiles l) = Some f ->
         In f l /\ name f = p /\ mimeType f <> folderMime).
Proof.
  assert (G : forall p, OMap.get p (collectRemoteFiles l) = lastNamed p l).
  { intros p. unfold collectRemoteFiles.
    change (OMap.get p (fold_left collectRemoteStep l []) = lastNamed p l).
    rewrite collectRemote_fold. simpl. now destruct (lastNamed p l). }
  split; [exact G|]. split.
  - intros before f after -> N U. rewrite G. unfold lastNamed.
    rewrite filter_app. simpl. rewrite N.
    rewrite rev_app_distr. simpl. rewrite <- app_assoc. simpl.
    assert (X : find (fun g => String.eqb (name g) (name f))
                     (rev (filter notFolder after)) = None).
    { destruct (find _ (rev (filter notFolder after))) as [g|] eqn:E; auto.
      apply find_some in E as [I E]. apply String.eqb_eq in E.
      apply in_rev, filter_In in I as [I1 I2].
      exfalso. exact (U g I1 I2 E). }
    revert X. generalize (rev (filter notFolder after)). intros l0.
    induction l0 as [|y l0 IH]; simpl.
    + intros _. now rewrite String.eqb_refl.
    + destruct (String.eqb (name y) (name f)); [discriminate | exact IH].
  - intros p f H. rewrite G in H. unfold lastNamed in H.
    apply find_some in H as [I E]. apply String.eqb_eq in E.
    apply in_rev, filter_In in I as [I1 I2].
    repeat split; auto. unfold notFolder in I2.
    apply negb_true_iff, String.eqb_neq in I2. exact I2.
Qed.

End RemoteSnapshot.

(* ------------------------------------------------------------------ *)
(** ** What the upload pass never does *)

Section UploadPassKeeps.
Context {host : Host}.

Lemma find_app_first {A : Type} (f : A -> bool) (l e : list A) (x : A) :
  find f l = Some x -> find f (l ++ e) = Some x.
Proof.
  induction l as [|y l IH]; simpl; [discriminate|].
  destruct (f y); auto.
Qed.

Lemma createBinary_keeps p d w w1 q f :
  createBinary p d w = returned w1 ->
  findFile q (vault w) = Some f -> findFile q (vault w1) = Some f.
Proof.
  unfold createBinary. repeat break_match; intros H; inversion H; subst.
  simpl. apply find_app_first.
Qed.

Lemma uploadFileRequest_vault fileName c mime eid w :
  vault (snd (uploadFileRequest fileName c mime eid w)) = vault w.
Proof. unfold uploadFileRequest. repeat break_match; auto. Qed.

Lemma listFilesRequest_vault w :
  vault (snd (listFilesRequest w)) = vault w.
Proof. unfold listFilesRequest. repeat break_match; auto. Qed.

(** The world a Drive call leaves is the world its request leaves, run on
    a world with the vault and the Drive of the call's. *)
Lemma withToken_stores {A : Type} (failure : A) request r :
  exists w0,
    vault w0 = vault (world r) /\ drive w0 = drive (world r)
    /\ (world (snd (withToken failure request r)) = w0
        \/ world (snd (withToken failure request r)) = snd (request w0)).
Proof.
  destruct (withToken_world failure request r)
    as (w0 & (V & D & _) & [[_ E] | E]); exists w0; repeat split; auto.
  right. now rewrite <- E.
Qed.

Lemma listGoogleDriveFiles_vault r :
  vault (world (snd (listGoogleDriveFiles r))) = vault (world r).
Proof.
  unfold listGoogleDriveFiles.
  destruct (withToken_stores [] listFilesRequest r)
    as (w0 & V & _ & [-> | ->]); auto.
  now rewrite listFilesRequest_vault.
Qed.

Lemma updatedRemoteFileOf_vault p rid r :
  vault (world (snd (updatedRemoteFileOf p rid r))) = vault (world r).
Proof.
  unfold updatedRemoteFileOf. destruct (OMap.get p (remoteFilesMap r)); auto.
  pose proof (listGoogleDriveFiles_vault r) as L.
  destruct (listGoogleDriveFiles r). exact L.
Qed.

Lemma uploadCall_vault p op m c r :
  vault (world (snd (uploadCall p op m c r))) = vault (world r).
Proof.
  unfold uploadCall, uploadGoogleDriveFile.
  destruct (withToken_stores None (uploadFileRequest p c
              (if Js.endsWith ".md" p then "text/markdown"
               else "application/octet-stream")
              (if Operation_eqb op upload_update
               then option_map remoteId m else None)) r)
    as (w0 & V & _ & [-> | ->]); auto.
  now rewrite uploadFileRequest_vault.
Qed.

(** Every file of the vault of [r] is in the vault of [r'], unchanged. *)
Definition keeps_files (r r' : Run) : Prop :=
  forall q f,
    findFile q (vault (world r)) = Some f ->
    findFile q (vault (world r')) = Some f.

(** Every Drive id of [r] is still on Drive in [r']. *)
Definition keeps_ids (r r' : Run) : Prop :=
  forall x,
    (exists o, In o (drive (world r)) /\ id (fst o) = x) ->
    exists o, In o (drive (world r')) /\ id (fst o) = x.

Lemma backupLocal_keeps p r : keeps_files r (backupLocal p r).
Proof.
  intros q f H. unfold backupLocal.
  destruct (readBinary p (world r)); auto.
  destruct (createBinary _ _ (world r)) as [w1|] eqn:C; auto.
  pose proof (createBinary_keeps _ _ _ _ q f C H).
  repeat break_match; simpl; auto.
Qed.

Lemma executeUpload_vault p ls op m r :
  vault (world (executeUpload p ls op m r)) = vault (world r).
Proof.
  unfold executeUpload.
  destruct (readBinary p (world r)) as [c|]; auto.
  pose proof (uploadCall_vault p op m c r) as U.
  destruct (uploadCall p op m c r) as [[[|x rid']|] r1];
    cbn [snd] in U; auto.
  pose proof (updatedRemoteFileOf_vault p (String x rid') r1) as G.
  destruct (updatedRemoteFileOf p (String x rid') r1) as [[f|] r2];
    cbn [snd] in G; simpl; congruence.
Qed.

Lemma uploadStep_keeps_files p ls r : keeps_files r (uploadStep p ls r).
Proof.
  intros q f H. unfold uploadStep.
  destruct (classifyUpload _ _ _) as [op reason].
  assert (B : findFile q (vault (world (match reason with
                                        | CONFLICT => backupLocal p r
                                        | _ => r
                                        end))) = Some f)
    by (destruct reason; auto; now apply backupLocal_keeps).
  destruct op; try exact B;
    rewrite (executeUpload_vault p ls _ _ (show _ _)); exact B.
Qed.

Lemma uploadFileRequest_ids fileName c mime eid w x :
  (exists o, In o (drive w) /\ id (fst o) = x) ->
  exists o,
    In o (drive (snd (uploadFileRequest fileName c mime eid w)))
    /\ id (fst o) = x.
Proof.
  intros (o & I & E). unfold uploadFileRequest.
  destruct (negb (authorized faults)); [simpl; eauto|].
  destruct (uploadFails faults fileName); [simpl; eauto|].
  assert (P : forall extra,
             exists o', In o' (drive w ++ extra) /\ id (fst o') = x).
  { intros extra. exists o. split; auto. apply in_or_app. now left. }
  destruct eid as [[|a fid]|]; simpl; auto.
  destruct (findDrive (String a fid) (drive w)); simpl; eauto.
  destruct (String.eqb (id (fst o)) (String a fid)) eqn:Q.
  - eexists. split.
    + apply in_map_iff. exists o. split; [|exact I]. rewrite Q. reflexivity.
    + simpl. apply String.eqb_eq in Q. congruence.
  - exists o. split; auto.
    apply in_map_iff. exists o. split; auto. now rewrite Q.
Qed.

Lemma uploadCall_ids p op m c r x :
  (exists o, In o (drive (world r)) /\ id (fst o) = x) ->
  exists o,
    In o (drive (world (snd (uploadCall p op m c r)))) /\ id (fst o) = x.
Proof.
  intros H. unfold uploadCall, uploadGoogleDriveFile.
  destruct (withToken_stores None (uploadFileRequest p c
              (if Js.endsWith ".md" p then "text/markdown"
               else "application/octet-stream")
              (if Operation_eqb op upload_update
               then option_map remoteId m else None)) r)
    as (w0 & _ & D & [-> | ->]); rewrite <- D in H; auto.
  now apply uploadFileRequest_ids.
Qed.

Lemma executeUpload_ids p ls op m r : keeps_ids r (executeUpload p ls op m r).
Proof.
  intros x H. unfold executeUpload.
  destruct (readBinary p (world r)) as [c|]; auto.
  pose proof (uploadCall_ids p op m c r x H) as U.
  destruct (uploadCall p op m c r) as [[[|y rid']|] r1];
    cbn [snd] in U; auto.
  pose proof (updatedRemoteFileOf_drive p (String y rid') r1) as G.
  destruct (updatedRemoteFileOf p (String y rid') r1) as [[f|] r2];
    cbn [snd] in G; simpl; now rewrite G.
Qed.

Lemma uploadStep_keeps_ids p ls r : keeps_ids r (uploadStep p ls r).
Proof.
  intros x H. unfold uploadStep.
  destruct (classifyUpload _ _ _) as [op reason].
  assert (B : exists o,
             In o (drive (world (match reason with
                                 | CONFLICT => backupLocal p r
                                 | _ => r
                                 end))) /\ id (fst o) = x)
    by (destruct reason; auto; now rewrite backupLocal_drive).
  destruct op; try exact B;
    apply (executeUpload_ids p ls _ _ (show _ _)); exact B.
Qed.

Lemma uploadLoop_keeps fuel : forall i r,
  keeps_files r (uploadLoop fuel i r) /\ keeps_ids r (uploadLoop fuel i r).
Proof.
  induction fuel as [|fuel IH]; intros i r; simpl.
  { split; intros ?; auto. }
  destruct (nth_error (localFiles r) i) as [[p ls]|].
  2:{ split; intros ?; auto. }
  destruct (IH (S i) (uploadStep p ls r)) as (F & D). split.
  - intros q f H. apply F. now apply uploadStep_keeps_files.
  - intros x H. apply D. now apply uploadStep_keeps_ids.
Qed.

(** X4.  The upload pass removes nothing and overwrites no local file:
    every file of the vault is still there after the pass with the same
    mtime and bytes (a conflict only adds its backup), and every id that
    was on Drive is still on Drive. *)
Theorem upload_pass_removes_nothing (r : Run) :
  (forall q f,
      findFile q (vault (world r)) = Some f ->
      findFile q (vault (world (uploadPass r))) = Some f)
  /\ (forall x,
         (exists o, In o (drive (world r)) /\ id (fst o) = x) ->
         exists o, In o (drive (world (uploadPass r))) /\ id (fst o) = x).
Proof. apply uploadLoop_keeps. Qed.

End UploadPassKeeps.

(* ------------------------------------------------------------------ *)
(** ** Upload and download of one path *)

Section UploadThenDownload.
Context {host : Host}.

Lemma updatedRemoteFileOf_none p rid r :
  fst (updatedRemoteFileOf p rid r) = None ->
  OMap.get p (remoteFilesMap r) = None.
Proof.
  unfold updatedRemoteFileOf.
  destruct (OMap.get p (remoteFilesMap r)); [discriminate|auto].
Qed.

(** X6.  A path that the upload step has uploaded is not downloaded in the
    same run: if the run's view of Drive holds the path after the upload,
    the entry just written records that file's [modifiedTime], and the
    download classification of the path against it is [skip]. *)
Theorem uploaded_path_is_not_downloaded
    (r : Run) (p : string) (ls : LocalStat) (op : Operation)
    (reason : Reason) (c : string) (a : ascii) (rid' : string) (r1 : Run) :
  Date_parse "" = Js.NaN ->
  classifyUpload (OMap.get p (fileMapOf r)) ls (OMap.get p (remoteFilesMap r))
  = (op, reason) ->
  op <> skip ->
  readBinary p (world r) = returned c ->
  uploadCall p op (OMap.get p (fileMapOf r)) c r
  = (Some (String a rid'), r1) ->
  forall rf local,
    OMap.get p (remoteFilesMap (uploadStep p ls r)) = Some rf ->
    option_map remoteMtime (OMap.get p (fileMapOf (uploadStep p ls r)))
    = Some (Some (modifiedTime rf))
    /\ classifyDownload (Some local)
                        (OMap.get p (fileMapOf (uploadStep p ls r))) rf
       = (skip, Remote_unchanged_or_older).
Proof.
  intros E C N R U rf local.
  rewrite (uploadStep_success p ls r op reason c a rid' r1 C N R U).
  rewrite (uploadStep_uploads p ls r op reason C N).
  pose proof (uploadCall_maps p op (OMap.get p (fileMapOf r)) c r)
    as (_ & _ & _ & _ & M1 & _).
  rewrite U in M1. cbn [snd] in M1.
  pose proof (updatedRemoteFileOf_maps p (String a rid') r1)
    as (_ & _ & _ & _ & M2 & _).
  unfold executeUpload. cbn [world show]. rewrite R, uploadCall_show, U.
  cbn [fst snd]. rewrite updatedRemoteFileOf_show.
  destruct (updatedRemoteFileOf p (String a rid') r1) as [[f|] r2] eqn:G;
    cbn [fst snd] in *;
    unfold with_remoteFilesMap, show, with_fileMap, with_world;
    cbn [remoteFilesMap].
  - rewrite !get_set_same. intros H. inversion H; subst rf.
    split; [reflexivity|].
    exact (tie_download (uploadedEntry (String a rid') ls (Some f))
                        local f E eq_refl).
  - intros H. apply (f_equal fst) in G. cbn [fst] in G.
    apply updatedRemoteFileOf_none in G. congruence.
Qed.

(** X7.  A remote file whose [modifiedTime] cannot be read as a date
    ([Date.parse] gives [NaN]) and whose path has a SyncState entry and a
    local file is transferred in neither direction, whatever the local
    mtime and the recorded times: the upload step and the download step
    only print their log line. *)
Theorem unreadable_remote_time_blocks_transfer
    (r : Run) (p : string) (m : FileSyncState) (ls : LocalStat)
    (rf : DriveFile) :
  Date_parse (modifiedTime rf) = Js.NaN ->
  OMap.get p (fileMapOf r) = Some m ->
  OMap.get p (localFiles r) = Some ls ->
  OMap.get p (remoteFilesMap r) = Some rf ->
  (exists reason,
      reason <> CONFLICT
      /\ uploadStep p ls r = show (LogFile p skip reason) r)
  /\ (exists reason,
         downloadStep p rf r = show (LogRemoteFile p skip reason) r).
Proof.
  intros E G L R. split.
  - assert (C : exists reason,
               reason <> CONFLICT
               /\ classifyUpload (Some m) ls (Some rf) = (skip, reason)).
    { unfold classifyUpload. rewrite E. simpl.
      destruct (negb _ || _); eexists; split; try reflexivity; discriminate. }
    destruct C as (reason & N & C). exists reason. split; auto.
    apply uploadStep_plain_skip; auto. now rewrite G, R.
  - assert (C : fst (classifyDownload (Some ls) (Some m) rf) = skip).
    { unfold classifyDownload. rewrite E. reflexivity. }
    pose proof (downloadStep_skip p rf r) as S. rewrite L, G in S.
    eexists. apply S. exact C.
Qed.

End UploadThenDownload.

(* ------------------------------------------------------------------ *)
(** ** What the download pass and the deletion passes leave alone *)

Section PassesLeaveAlone.
Context {host : Host}.

Lemma find_app_other {A : Type} (f : A -> bool) (l : list A) (x : A) :
  f x = false -> find f (l ++ [x]) = find f l.
Proof.
  intros H. rewrite find_app_last. rewrite H. now destruct (find f l).
Qed.

Lemma createBinary_other p d w w1 q :
  createBinary p d w = returned w1 ->
  q <> p ->
  findFile q (vault w1) = findFile q (vault w) /\ drive w1 = drive w.
Proof.
  unfold createBinary. repeat break_match; intros H N; inversion H; subst.
  simpl. split; auto. apply find_app_other. simpl.
  apply String.eqb_neq. congruence.
Qed.

Lemma modifyBinary_other p d w w1 q :
  modifyBinary p d w = returned w1 ->
  q <> p ->
  findFile q (vault w1) = findFile q (vault w) /\ drive w1 = drive w.
Proof.
  unfold modifyBinary. repeat break_match; intros H N; inversion H; subst.
  simpl. split; auto. unfold findFile. clear - N.
  generalize (clock w). intros t.
  induction (vault w) as [|f0 rest IH]; simpl; auto.
  destruct (String.eqb (vpath f0) p) eqn:E; simpl.
  - apply String.eqb_eq in E.
    assert (X : String.eqb p q = false) by (apply String.eqb_neq; congruence).
    assert (Y : String.eqb (vpath f0) q = false)
      by (apply String.eqb_neq; congruence).
    rewrite X, Y. exact IH.
  - destruct (String.eqb (vpath f0) q); auto.
Qed.

Lemma writeDownloaded_other p op d w w1 q :
  writeDownloaded p op d w = returned w1 ->
  q <> p ->
  findFile q (vault w1) = findFile q (vault w) /\ drive w1 = drive w.
Proof.
  unfold writeDownloaded.
  repeat break_match; eauto using createBinary_other, modifyBinary_other.
Qed.

(** What a download step on [p] leaves alone, for another path [q]. *)
Definition download_frame (q : string) (r r' : Run) : Prop :=
  drive (world r') = drive (world r)
  /\ localFiles r' = localFiles r
  /\ remoteFilesMap r' = remoteFilesMap r
  /\ findFile q (vault (world r')) = findFile q (vault (world r))
  /\ OMap.get q (fileMapOf r') = OMap.get q (fileMapOf r).

Lemma modifyBinary_drive p d w w1 :
  modifyBinary p d w = returned w1 -> drive w1 = drive w.
Proof.
  unfold modifyBinary. repeat break_match; intros H; inversion H; auto.
Qed.

Lemma writeDownloaded_drive p op d w w1 :
  writeDownloaded p op d w = returned w1 -> drive w1 = drive w.
Proof.
  unfold writeDownloaded.
  repeat break_match; eauto using createBinary_drive, modifyBinary_drive.
Qed.

Lemma downloadGoogleDriveFile_stores fid r :
  vault (world (snd (downloadGoogleDriveFile fid r))) = vault (world r)
  /\ drive (world (snd (downloadGoogleDriveFile fid r))) = drive (world r).
Proof.
  unfold downloadGoogleDriveFile.
  destruct (withToken_stores None
              (fun w => (downloadFileRequest fid w, w)) r)
    as (w0 & V & D & [-> | ->]); now split.
Qed.

(** The world a download leaves: that of its Drive call, or what the
    write of the downloaded bytes returns on it. *)
Lemma executeDownload_world p rf op r :
  localFiles (executeDownload p rf op r) = localFiles r
  /\ remoteFilesMap (executeDownload p rf op r) = remoteFilesMap r
  /\ exists w0,
      vault w0 = vault (world r) /\ drive w0 = drive (world r)
      /\ (world (executeDownload p rf op r) = w0
          \/ exists c,
              writeDownloaded p op c w0
              = returned (world (executeDownload p rf op r))).
Proof.
  unfold executeDownload.
  pose proof (downloadGoogleDriveFile_maps (id rf) r)
    as (_ & _ & _ & L & R & _).
  destruct (downloadGoogleDriveFile_stores (id rf) r) as (V & D).
  destruct (downloadGoogleDriveFile (id rf) r) as [[c|] r0];
    cbn [snd] in *.
  2:{ repeat split; auto. exists (world r0). auto. }
  destruct (writeDownloaded p op c (world r0)) as [w1|] eqn:W.
  2:{ repeat split; auto. exists (world r0). auto. }
  destruct (stat p w1); simpl; repeat split; auto;
    exists (world r0); repeat split; eauto.
Qed.

Lemma downloadStep_drive p rf r :
  drive (world (downloadStep p rf r)) = drive (world r)
  /\ localFiles (downloadStep p rf r) = localFiles r
  /\ remoteFilesMap (downloadStep p rf r) = remoteFilesMap r.
Proof.
  unfold downloadStep. destruct (classifyDownload _ _ rf) as [op reason].
  assert (X : forall op',
             drive (world (executeDownload p rf op'
                             (show (LogRemoteFile p op reason) r)))
             = drive (world r)
             /\ localFiles (executeDownload p rf op'
                              (show (LogRemoteFile p op reason) r))
                = localFiles r
             /\ remoteFilesMap (executeDownload p rf op'
                                  (show (LogRemoteFile p op reason) r))
                = remoteFilesMap r).
  { intros op'.
    destruct (executeDownload_world p rf op'
                (show (LogRemoteFile p op reason) r))
      as (L & R & w0 & V & D & [-> | (c & W)]); repeat split; auto.
    apply writeDownloaded_drive in W. cbn [world show] in D. congruence. }
  destruct op; simpl; auto; apply X.
Qed.

Lemma downloadStep_vault_other p q rf r :
  q <> p ->
  findFile q (vault (world (downloadStep p rf r)))
  = findFile q (vault (world r)).
Proof.
  intros N. unfold downloadStep.
  destruct (classifyDownload _ _ rf) as [op reason].
  assert (X : forall op',
             findFile q (vault (world (executeDownload p rf op'
                               (show (LogRemoteFile p op reason) r))))
             = findFile q (vault (world r))).
  { intros op'.
    destruct (executeDownload_world p rf op'
                (show (LogRemoteFile p op reason) r))
      as (_ & _ & w0 & V & _ & [-> | (c & W)]);
      cbn [world show] in V; [now rewrite V|].
    destruct (writeDownloaded_other _ _ _ _ _ q W N) as (V' & _).
    now rewrite V', V. }
  destruct op; simpl; auto.
Qed.

Lemma downloadStep_frame p q rf r :
  q <> p -> download_frame q r (downloadStep p rf r).
Proof.
  intros N. destruct (downloadStep_drive p rf r) as (D & L & R).
  unfold download_frame. repeat split; auto.
  - now apply downloadStep_vault_other.
  - now apply downloadStep_other.
Qed.

Lemma download_frame_fold q (l : RemoteFilesMap) : forall r,
  ~ In q (OMap.keys l) ->
  download_frame q r
    (fold_left (fun r' e => downloadStep (fst e) (snd e) r') l r).
Proof.
  induction l as [|[p rf] l IH]; intros r K; simpl.
  - unfold download_frame. repeat split.
  - assert (N : q <> p) by (intros ->; apply K; simpl; auto).
    destruct (downloadStep_frame p q rf r N) as (D & L & R & V & G).
    destruct (IH (downloadStep p rf r)) as (D' & L' & R' & V' & G').
    { intros I. apply K. simpl. auto. }
    unfold download_frame. repeat split; congruence.
Qed.

Lemma downloadPass_frame q r :
  OMap.has q (remoteFilesMap r) = false ->
  download_frame q r (downloadPass r).
Proof.
  intros H. apply download_frame_fold.
  intros I. apply has_true in I. congruence.
Qed.

(** X8.  The download pass writes nothing to Drive and leaves both
    snapshot maps as they are; a path that is not in the remote snapshot
    keeps its local file, if it has one, and its SyncState entry. *)
Theorem download_pass_leaves_alone (r : Run) :
  drive (world (downloadPass r)) = drive (world r)
  /\ localFiles (downloadPass r) = localFiles r
  /\ remoteFilesMap (downloadPass r) = remoteFilesMap r
  /\ forall q,
      OMap.has q (remoteFilesMap r) = false ->
      findFile q (vault (world (downloadPass r)))
      = findFile q (vault (world r))
      /\ OMap.get q (fileMapOf (downloadPass r)) = OMap.get q (fileMapOf r).
Proof.
  assert (A : drive (world (downloadPass r)) = drive (world r)
              /\ localFiles (downloadPass r) = localFiles r
              /\ remoteFilesMap (downloadPass r) = remoteFilesMap r).
  { unfold downloadPass.
    assert (X : forall (l : RemoteFilesMap) r',
               drive (world (fold_left
                               (fun r1 e => downloadStep (fst e) (snd e) r1)
                               l r')) = drive (world r')
               /\ localFiles (fold_left
                                (fun r1 e => downloadStep (fst e) (snd e) r1)
                                l r') = localFiles r'
               /\ remoteFilesMap (fold_left
                                    (fun r1 e => downloadStep (fst e) (snd e) r1)
                                    l r') = remoteFilesMap r').
    { induction l as [|[p rf] l IH]; intros r'; simpl; auto.
      destruct (IH (downloadStep p rf r')) as (D & L & R).
      destruct (downloadStep_drive p rf r') as (D' & L' & R').
      repeat split; congruence. }
    apply X. }
  destruct A as (D & L & R). repeat split; auto;
    now apply (downloadPass_frame q r).
Qed.

Lemma findDrive_filter_other x fid d :
  x <> fid ->
  findDrive x (filter (fun o => negb (String.eqb (id (fst o)) fid)) d)
  = findDrive x d.
Proof.
  intros N. unfold findDrive. induction d as [|o d IH]; simpl; auto.
  destruct (String.eqb (id (fst o)) fid) eqn:E; simpl.
  - apply String.eqb_eq in E.
    destruct (String.eqb (id (fst o)) x) eqn:E2; auto.
    apply String.eqb_eq in E2. congruence.
  - now rewrite IH.
Qed.

Lemma deleteFileRequest_other fid w x :
  x <> fid ->
  findDrive x (drive (snd (deleteFileRequest fid w)))
  = findDrive x (drive w).
Proof.
  intros N. unfold deleteFileRequest.
  repeat break_match; simpl; auto using findDrive_filter_other.
Qed.

(** No entry whose path is missing from the local snapshot points at the
    Drive id [x]. *)
Definition not_aimed_at (x : string) (r : Run) : Prop :=
  forall p m,
    OMap.get p (fileMapOf r) = Some m ->
    OMap.has p (localFiles r) = false ->
    remoteId m <> x.

Lemma deleteGoogleDriveFile_other fid r x :
  x <> fid ->
  findDrive x (drive (world (snd (deleteGoogleDriveFile fid r))))
  = findDrive x (drive (world r)).
Proof.
  intros N. unfold deleteGoogleDriveFile.
  destruct (withToken_stores false (deleteFileRequest fid) r)
    as (w0 & _ & D & [-> | ->]); rewrite <- D; auto.
  now apply deleteFileRequest_other.
Qed.

Lemma localDeletionStep_spares x k r :
  not_aimed_at x r ->
  not_aimed_at x (localDeletionStep k r)
  /\ findDrive x (drive (world (localDeletionStep k r)))
     = findDrive x (drive (world r)).
Proof.
  intros P.
  destruct (OMap.get k (fileMapOf r)) as [m|] eqn:G.
  2:{ now rewrite localDeletionStep_no_entry. }
  destruct (OMap.has k (localFiles r)) eqn:H.
  { now rewrite localDeletionStep_present. }
  pose proof (deleteGoogleDriveFile_other (remoteId m) r x
                (not_eq_sym (P k m G H))) as D.
  destruct (deleteGoogleDriveFile (remoteId m) r) as [[|] r2] eqn:E;
    cbn [snd] in D;
    destruct (deleteGoogleDriveFile_frame _ _ _ _ E)
    as ((_ & _ & F & L & _) & _).
  - rewrite (localDeletionStep_deleted k m r2 r G H E). split; auto.
    intros p m'. autorewrite with run. simpl. rewrite L. intros G' H'.
    destruct (String.eqb p k) eqn:Q.
    + apply String.eqb_eq in Q. subst p.
      rewrite get_delete_same in G'. discriminate.
    + apply String.eqb_neq in Q. rewrite get_delete_other in G' by auto.
      exact (P p m' G' H').
  - rewrite (localDeletionStep_failed k m r2 r G H E). split; auto.
    intros p m'. autorewrite with run. simpl. rewrite L.
    unfold fileMapOf. rewrite F. apply P.
Qed.

Lemma localDeletions_spare x ks : forall r,
  not_aimed_at x r ->
  findDrive x (drive (world (fold_left (fun r' k => localDeletionStep k r')
                                       ks r)))
  = findDrive x (drive (world r)).
Proof.
  induction ks as [|k ks IH]; intros r P; simpl; auto.
  destruct (localDeletionStep_spares x k r P) as (P' & D).
  rewrite (IH _ P'). exact D.
Qed.

(** The path [q] has no entry, or is in the remote snapshot. *)
Definition not_gone_remotely (q : string) (r : Run) : Prop :=
  OMap.get q (fileMapOf r) = None \/ OMap.has q (remoteFilesMap r) = true.

Lemma remoteDeletionStep_spares q k r :
  not_gone_remotely q r ->
  not_gone_remotely q (remoteDeletionStep k r)
  /\ findFile q (vault (world (remoteDeletionStep k r)))
     = findFile q (vault (world r)).
Proof.
  intros P. destruct (String.eqb q k) eqn:Q.
  - apply String.eqb_eq in Q. subst k. destruct P as [P | P].
    + now rewrite remoteDeletionStep_no_entry; auto; split; [left|].
    + now rewrite remoteDeletionStep_present; auto; split; [right|].
  - apply String.eqb_neq in Q. split.
    + destruct (remoteDeletionStep_shrinks k r) as (_ & R & _).
      unfold not_gone_remotely. rewrite R.
      pose proof (remoteDeletionStep_other k q r Q) as O.
      unfold entryOf in O. rewrite O. exact P.
    + exact (remoteDeletionStep_vault_other k q r Q).
Qed.

Lemma remoteDeletions_spare q ks : forall r,
  not_gone_remotely q r ->
  findFile q (vault (world (fold_left (fun r' k => remoteDeletionStep k r')
                                      ks r)))
  = findFile q (vault (world r)).
Proof.
  induction ks as [|k ks IH]; intros r P; simpl; auto.
  destruct (remoteDeletionStep_spares q k r P) as (P' & D).
  rewrite (IH _ P'). exact D.
Qed.

(** X9.  What the deletion passes spare.  The local-deletions pass never
    touches the vault, and a Drive object stays unless its id is the
    [remoteId] of an entry whose path is missing from the local snapshot.
    The remote-deletions pass never touches Drive, and a local file stays
    (same mtime, same bytes) when its path has no SyncState entry or is in
    the remote snapshot: a file the run has never synchronised is never
    deleted. *)
Theorem deletion_passes_spare (r : Run) :
  vault (world (localDeletionsPass r)) = vault (world r)
  /\ (forall x,
         (forall p m,
             OMap.get p (fileMapOf r) = Some m ->
             OMap.has p (localFiles r) = false ->
             remoteId m <> x) ->
         findDrive x (drive (world (localDeletionsPass r)))
         = findDrive x (drive (world r)))
  /\ drive (world (remoteDeletionsPass r)) = drive (world r)
  /\ (forall q,
         OMap.get q (fileMapOf r) = None
         \/ OMap.has q (remoteFilesMap r) = true ->
         findFile q (vault (world (remoteDeletionsPass r)))
         = findFile q (vault (world r))).
Proof.
  split; [|split; [|split]].
  - apply (fold_steps localDeletionStep drive_shrinks drive_shrinks_refl
             drive_shrinks_trans localDeletionStep_shrinks).
  - intros x P. now apply localDeletions_spare.
  - apply (fold_steps remoteDeletionStep vault_shrinks vault_shrinks_refl
             vault_shrinks_trans remoteDeletionStep_shrinks).
  - intros q P. now apply remoteDeletions_spare.
Qed.

End PassesLeaveAlone.

(* ------------------------------------------------------------------ *)
(** ** A run on a settled state *)

Section SettledRun.
Context {host : Host}.

(** Nothing has moved since the last run: every local file and every
    remote file of the snapshots has an entry that records its time, every
    entry has its file on both sides. *)
Definition settled (r : Run) : Prop :=
  (forall p ls,
      In (p, ls) (localFiles r) ->
      exists m rf,
        OMap.get p (fileMapOf r) = Some m
        /\ OMap.get p (remoteFilesMap r) = Some rf
        /\ localMtimeEpoch m = Some (mtime ls)
        /\ remoteMtime m = Some (modifiedTime rf)
        /\ (mtime ls = 0%Z ->
            Js.gt (Js.Num 0) (Date_parse (modifiedTime rf)) = false))
  /\ (forall p rf,
         In (p, rf) (remoteFilesMap r) ->
         exists m,
           OMap.get p (fileMapOf r) = Some m
           /\ OMap.has p (localFiles r) = true
           /\ remoteMtime m = Some (modifiedTime rf))
  /\ (forall p,
         In p (OMap.keys (fileMapOf r)) ->
         OMap.has p (localFiles r) = true
         /\ OMap.has p (remoteFilesMap r) = true).

(** A line of the log that reports a skip. *)
Definition skip_line (e : Event) : Prop :=
  match e with
  | LogFile _ skip _ | LogRemoteFile _ skip _ => True
  | _ => False
  end.

(** [r'] differs from [r] by skip lines and checkpoints only. *)
Definition only_logged (r r' : Run) : Prop :=
  settings r' = settings r
  /\ localFiles r' = localFiles r
  /\ remoteFilesMap r' = remoteFilesMap r
  /\ vault (world r') = vault (world r)
  /\ drive (world r') = drive (world r)
  /\ clock (world r') = clock (world r)
  /\ exists evs, shown r' = shown r ++ evs /\ Forall skip_line evs.

Lemma only_logged_refl r : only_logged r r.
Proof.
  repeat split; auto. exists [].
  split; [now rewrite app_nil_r | constructor].
Qed.

Lemma only_logged_trans a b c :
  only_logged a b -> only_logged b c -> only_logged a c.
Proof.
  intros (S1 & L1 & R1 & V1 & D1 & C1 & e1 & E1 & F1)
         (S2 & L2 & R2 & V2 & D2 & C2 & e2 & E2 & F2).
  repeat split; try congruence.
  exists (e1 ++ e2). split.
  - now rewrite E2, E1, app_assoc.
  - apply Forall_app. now split.
Qed.

Lemma only_logged_show e r : skip_line e -> only_logged r (show e r).
Proof.
  intros S. repeat split; auto. exists [e].
  split; [reflexivity | now repeat constructor].
Qed.

Lemma only_logged_saveSettings r : only_logged r (saveSettings r).
Proof.
  repeat split; auto. exists [].
  split; [now rewrite app_nil_r | constructor].
Qed.

Lemma settled_only_logged r r' : only_logged r r' -> settled r -> settled r'.
Proof.
  intros (S & L & R & _). unfold settled, fileMapOf.
  now rewrite S, L, R.
Qed.

Lemma uploadStep_settled p ls r :
  Date_parse "" = Js.NaN ->
  settled r -> In (p, ls) (localFiles r) ->
  only_logged r (uploadStep p ls r).
Proof.
  intros E (A & _) I.
  destruct (A p ls I) as (m & rf & G & R & Hl & Hr & Hz).
  destruct (tie_upload m ls rf E Hl Hr Hz) as [U | U];
    erewrite uploadStep_plain_skip
      by (try (rewrite G, R; exact U); discriminate);
    now apply only_logged_show.
Qed.

Lemma uploadLoop_settled fuel : forall i r,
  Date_parse "" = Js.NaN ->
  settled r -> only_logged r (uploadLoop fuel i r).
Proof.
  induction fuel as [|fuel IH]; intros i r E S; simpl.
  { apply only_logged_refl. }
  destruct (nth_error (localFiles r) i) as [[p ls]|] eqn:N.
  2:{ apply only_logged_refl. }
  pose proof (uploadStep_settled p ls r E S (nth_error_In _ _ N)) as U.
  apply (only_logged_trans _ _ _ U).
  apply IH; auto. now apply (settled_only_logged r).
Qed.

Lemma downloadStep_settled p rf r :
  Date_parse "" = Js.NaN ->
  settled r -> In (p, rf) (remoteFilesMap r) ->
  only_logged r (downloadStep p rf r).
Proof.
  intros E (_ & B & _) I.
  destruct (B p rf I) as (m & G & H & Hr).
  unfold OMap.has in H.
  destruct (OMap.get p (localFiles r)) as [ls|] eqn:L; [|discriminate].
  pose proof (tie_download m ls rf E Hr) as D.
  pose proof (downloadStep_skip p rf r) as K.
  rewrite L, G, D in K. rewrite (K eq_refl).
  now apply only_logged_show.
Qed.

Lemma downloadFold_settled (l : RemoteFilesMap) : forall r,
  Date_parse "" = Js.NaN ->
  settled r -> incl l (remoteFilesMap r) ->
  only_logged r (fold_left (fun r' e => downloadStep (fst e) (snd e) r') l r).
Proof.
  induction l as [|[p rf] l IH]; intros r E S I; simpl.
  { apply only_logged_refl. }
  assert (D : only_logged r (downloadStep p rf r)).
  { apply downloadStep_settled; auto. apply I. now left. }
  apply (only_logged_trans _ _ _ D).
  apply IH; auto.
  - now apply (settled_only_logged r).
  - destruct D as (_ & _ & -> & _). intros x X. apply I. now right.
Qed.

Lemma deletionFold_settled (step : string -> Run -> Run) (ks : list string) :
  (forall k r, settled r -> In k (OMap.keys (fileMapOf r)) -> step k r = r) ->
  forall r,
    settled r -> incl ks (OMap.keys (fileMapOf r)) ->
    fold_left (fun r' k => step k r') ks r = r.
Proof.
  intros H. induction ks as [|k ks IH]; intros r S I; simpl; auto.
  rewrite H; auto.
  - apply IH; auto. intros x X. apply I. now right.
  - apply I. now left.
Qed.

(** X10.  A run on a settled state changes nothing.  When every local and
    remote file of the snapshots is as its entry records it (the local
    mtime equal to [localMtimeEpoch], the remote [modifiedTime] equal to
    [remoteMtime]) and every entry has its file on both sides, the four
    passes leave the vault, the Drive folder and [fileMap] as they are:
    all the run shows is skip lines. *)
Theorem settled_run_changes_nothing (r : Run) :
  Date_parse "" = Js.NaN ->
  settled r ->
  vault (world (reconcile r)) = vault (world r)
  /\ drive (world (reconcile r)) = drive (world r)
  /\ fileMapOf (reconcile r) = fileMapOf r
  /\ exists evs,
      shown (reconcile r) = shown r ++ evs
      /\ Forall skip_line evs.
Proof.
  intros E S.
  assert (U : only_logged r (saveSettings (uploadPass r))).
  { apply (only_logged_trans _ (uploadPass r));
      [now apply uploadLoop_settled | apply only_logged_saveSettings]. }
  set (r1 := saveSettings (uploadPass r)) in *.
  assert (S1 : settled r1) by now apply (settled_only_logged r).
  assert (D : only_logged r1 (saveSettings (downloadPass r1))).
  { apply (only_logged_trans _ (downloadPass r1));
      [|apply only_logged_saveSettings].
    apply downloadFold_settled; auto. apply incl_refl. }
  set (r2 := saveSettings (downloadPass r1)) in *.
  assert (S2 : settled r2) by now apply (settled_only_logged r1).
  assert (L : localDeletionsPass r2 = r2).
  { apply deletionFold_settled; auto; [|apply incl_refl].
    intros k r' (_ & _ & C) I. apply localDeletionStep_present.
    now apply C. }
  assert (S3 : settled (saveSettings r2))
    by (apply (settled_only_logged r2); auto using only_logged_saveSettings).
  assert (R : remoteDeletionsPass (saveSettings r2) = saveSettings r2).
  { apply deletionFold_settled; auto; [|apply incl_refl].
    intros k r' (_ & _ & C) I. apply remoteDeletionStep_present.
    now apply C. }
  assert (Q : reconcile r = saveSettings r2).
  { unfold reconcile. fold r1. fold r2. now rewrite L, R. }
  rewrite Q.
  pose proof (only_logged_trans _ _ _ U
                (only_logged_trans _ _ _ D (only_logged_saveSettings r2)))
    as (A1 & _ & _ & A4 & A5 & _ & A7).
  repeat split; auto. unfold fileMapOf. now rewrite A1.
Qed.

End SettledRun.

(** The quiet world after its snapshots is settled. *)
Lemma settled_run_witness :
  Iso.parse "" = Js.NaN
  /\ @settled (isoHost noFaults) (snapshotOf noFaults agreedAtT0 quietWorld)
  /\ vault (world (@reconcile (isoHost noFaults)
                     (snapshotOf noFaults agreedAtT0 quietWorld)))
     = vault quietWorld
  /\ drive (world (@reconcile (isoHost noFaults)
                     (snapshotOf noFaults agreedAtT0 quietWorld)))
     = drive quietWorld.
Proof.
  assert (S : @settled (isoHost noFaults)
                (snapshotOf noFaults agreedAtT0 quietWorld)).
  { repeat split.
    - intros p ls [I | []]. inversion I; subst p ls.
      exists (mkFileSyncState "r1" (Some "2024-01-01T00:00:00.000Z") None
                              (Some T0)),
             (note "r1" "2024-01-01T00:00:00.000Z").
      repeat split.
    - intros p rf [I | []]. inversion I; subst p rf.
      exists (mkFileSyncState "r1" (Some "2024-01-01T00:00:00.000Z") None
                              (Some T0)).
      repeat split.
    - destruct H as [<- | []]. reflexivity.
    - destruct H as [<- | []]. reflexivity. }
  split; [reflexivity|]. split; [exact S|].
  destruct (@settled_run_changes_nothing (isoHost noFaults)
              (snapshotOf noFaults agreedAtT0 quietWorld) eq_refl S)
    as (V & D & _).
  split; [exact V | exact D].
Defined.

(* ------------------------------------------------------------------ *)
(** ** The bytes a step transfers *)

Section TransferredBytes.
Context {host : Host}.

Lemma createBinary_reads p d w w1 :
  createBinary p d w = returned w1 ->
  findFile p (vault w1) = Some (mkVaultFile p (clock w) d)
  /\ drive w1 = drive w.
Proof.
  unfold createBinary. destruct (createThrows faults p); [discriminate|].
  destruct (findFile p (vault w)) eqn:F; [discriminate|].
  intros H. inversion H; subst. simpl. split; auto.
  unfold findFile in *. rewrite find_app_last, F. simpl.
  now rewrite String.eqb_refl.
Qed.

Lemma modifyBinary_reads p d w w1 :
  modifyBinary p d w = returned w1 ->
  findFile p (vault w1) = Some (mkVaultFile p (clock w) d)
  /\ drive w1 = drive w.
Proof.
  unfold modifyBinary. destruct (modifyThrows faults p); [discriminate|].
  destruct (findFile p (vault w)) eqn:F; [|discriminate].
  intros H. inversion H; subst. simpl. split; auto.
  unfold findFile in *. generalize (clock w). intros t.
  induction (vault w) as [|f0 rest IH]; simpl in *; [discriminate|].
  destruct (String.eqb (vpath f0) p) eqn:E; simpl.
  - now rewrite String.eqb_refl.
  - rewrite E. now apply IH.
Qed.

Lemma writeDownloaded_reads p op d w w1 :
  writeDownloaded p op d w = returned w1 ->
  findFile p (vault w1) = Some (mkVaultFile p (clock w) d)
  /\ drive w1 = drive w.
Proof.
  unfold writeDownloaded.
  destruct (Operation_eqb op download_new);
    [|destruct (getAbstractFileByPath p w)];
    auto using createBinary_reads, modifyBinary_reads.
Qed.

Lemma executeDownload_written p rf op r c r0 w1 :
  downloadGoogleDriveFile (id rf) r = (Some c, r0) ->
  writeDownloaded p op c (world r0) = returned w1 ->
  world (executeDownload p rf op r) = w1.
Proof.
  intros G W. unfold executeDownload. rewrite G, W.
  now destruct (stat p w1).
Qed.

(** What [downloadGoogleDriveFile] answers is what Drive holds under the
    id; the call leaves the clock alone. *)
Lemma downloadGoogleDriveFile_answer fid r c r0 :
  downloadGoogleDriveFile fid r = (Some c, r0) ->
  option_map snd (findDrive fid (drive (world r))) = Some c
  /\ clock (world r0) = clock (world r).
Proof.
  intros H. unfold downloadGoogleDriveFile in H.
  destruct (withToken_world None
              (fun w => (downloadFileRequest fid w, w)) r)
    as (w0 & (_ & D & C & _) & [[F _] | E]); rewrite H in *;
    cbn [fst snd] in *; [discriminate|].
  inversion E as [[G W]]. rewrite <- D, W. split; auto.
  symmetry in G. unfold downloadFileRequest in G.
  destruct (negb (authorized faults)); [discriminate|].
  now destruct (downloadFails faults fid).
Qed.

(** X11.  A download step whose download and local write succeed leaves
    at the path a file that holds exactly the bytes Drive has under the
    remote file's id, stamped with the time of the write; this does not
    depend on the re-stat that follows (when it throws, the entry is not
    written, the file is). *)
Theorem downloaded_file_holds_the_remote_bytes
    (r : Run) (p : string) (rf : DriveFile) (op : Operation)
    (reason : Reason) (c : string) (r0 : Run) (w1 : World) :
  classifyDownload (OMap.get p (localFiles r)) (OMap.get p (fileMapOf r)) rf
  = (op, reason) ->
  op <> skip ->
  downloadGoogleDriveFile (id rf) r = (Some c, r0) ->
  writeDownloaded p op c (world r0) = returned w1 ->
  option_map snd (findDrive (id rf) (drive (world r))) = Some c
  /\ findFile p (vault (world (downloadStep p rf r)))
     = Some (mkVaultFile p (clock (world r)) c)
  /\ drive (world (downloadStep p rf r)) = drive (world r).
Proof.
  intros E N G W.
  assert (X : world (downloadStep p rf r) = w1).
  { unfold downloadStep. rewrite E.
    pose proof (classifyDownload_ops (OMap.get p (localFiles r))
                                     (OMap.get p (fileMapOf r)) rf) as O.
    rewrite E in O. simpl in O.
    destruct O as [-> | [-> | ->]]; try congruence;
      (eapply executeDownload_written with (c := c);
       [rewrite downloadGoogleDriveFile_show, G; reflexivity | exact W]). }
  destruct (downloadGoogleDriveFile_answer _ _ _ _ G) as (A & C).
  destruct (downloadGoogleDriveFile_stores (id rf) r) as (_ & D).
  rewrite G in D. cbn [snd] in D.
  rewrite X. split; [exact A|].
  apply writeDownloaded_reads in W. destruct W as (F & D').
  rewrite F, C, D', D. now split.
Qed.

End TransferredBytes.

(* ------------------------------------------------------------------ *)
(** ** The backup path of a conflict (lines 293-294) *)

Section ConflictPath.

Lemma take_append (a b : string) : Js.take (String.length a) (a ++ b) = a.
Proof. induction a as [|x a IH]; simpl; [now destruct b | congruence]. Qed.

(** The last dot of [a.e], [e] without a dot, is the one before [e]. *)
Lemma lastIndexOf_ext (a e : string) :
  Js.lastIndexOf "." e = (-1)%Z ->
  Js.lastIndexOf "." (a ++ "." ++ e) = Z.of_nat (String.length a).
Proof.
  intros H. induction a as [|x a IH].
  - cbn [append Js.lastIndexOf String.length]. rewrite H. reflexivity.
  - cbn [append Js.lastIndexOf String.length]. cbn [append] in IH.
    rewrite IH.
    destruct (Z.leb 0 (Z.of_nat (String.length a))) eqn:E.
    + lia.
    + apply Z.leb_gt in E. lia.
Qed.

Lemma append_cancel_r (a b s : string) : (a ++ s = b ++ s)%string -> a = b.
Proof.
  revert b. induction a as [|x a IH]; intros [|y b] H; auto.
  - apply (f_equal String.length) in H. simpl in H.
    rewrite length_append in H. lia.
  - apply (f_equal String.length) in H. simpl in H.
    rewrite length_append in H. lia.
  - simpl in H. inversion H. f_equal. now apply IH.
Qed.

Lemma replace_colon_dot_no_dot (t : string) :
  Js.lastIndexOf "." (Js.replace_colon_dot t) = (-1)%Z.
Proof.
  induction t as [|x t IH]; [reflexivity|].
  cbn [Js.replace_colon_dot Js.lastIndexOf]. rewrite IH. cbn.
  destruct (Ascii.eqb x ":") eqn:A; [reflexivity|].
  destruct (Ascii.eqb x ".") eqn:B; [reflexivity|].
  cbn. now rewrite B.
Qed.

Lemma conflictPathOf_ext (a e timestamp : string) :
  Js.lastIndexOf "." e = (-1)%Z ->
  conflictPathOf (a ++ "." ++ e) timestamp
  = (a ++ "_local_conflict_" ++ timestamp ++ "." ++ e)%string.
Proof.
  intros H. unfold conflictPathOf. rewrite (lastIndexOf_ext a e H).
  unfold Js.substring, Js.substring_from, Js.clamp.
  rewrite Nat2Z.id, length_append. cbn [Z.to_nat].
  replace (Nat.min (String.length a)
                   (String.length a + String.length ("." ++ e)))
    with (String.length a) by lia.
  rewrite Nat.min_0_l, Nat.max_0_l, Nat.min_0_l, Nat.sub_0_r.
  cbn [Js.drop]. rewrite take_append, drop_append.
  reflexivity.
Qed.

(** X13.  The shape of the backup path.  For a path [a.e] whose extension
    [e] holds no dot, the backup is [a_local_conflict_<timestamp>.e]: the
    marker goes before the extension, the folder part and the extension
    are kept, and the backup path is never the path itself.  For a path
    without any dot, [lastIndexOf] answers [-1] and the marker is put in
    front of the whole path. *)
Theorem conflict_path_shape (a e timestamp : string) :
  Js.lastIndexOf "." e = (-1)%Z ->
  conflictPathOf (a ++ "." ++ e) timestamp
  = (a ++ "_local_conflict_" ++ timestamp ++ "." ++ e)%string
  /\ conflictPathOf (a ++ "." ++ e) timestamp <> (a ++ "." ++ e)%string
  /\ conflictPathOf e timestamp
     = ("_local_conflict_" ++ timestamp ++ e)%string.
Proof.
  intros H. split; [now apply conflictPathOf_ext|]. split.
  - rewrite (conflictPathOf_ext a e timestamp H).
    intros Q. apply (f_equal String.length) in Q.
    rewrite !length_append in Q. simpl in Q. lia.
  - unfold conflictPathOf. rewrite H.
    unfold Js.substring, Js.substring_from, Js.clamp. cbn [Z.to_nat].
    rewrite !Nat.min_0_l. reflexivity.
Qed.

(** X14.  Two Markdown paths in conflict at the same instant get two
    backup paths: the backup of one never lands on the backup of the
    other. *)
Theorem backups_do_not_collide (p q timestamp : string) :
  Js.endsWith ".md" p = true ->
  Js.endsWith ".md" q = true ->
  p <> q ->
  conflictPathOf p timestamp <> conflictPathOf q timestamp.
Proof.
  intros P Q N E. apply N.
  destruct (endsWith_split _ _ P) as [a ->].
  destruct (endsWith_split _ _ Q) as [b ->].
  change ".md" with ("." ++ "md")%string in *.
  rewrite !conflictPathOf_ext in E by reflexivity.
  f_equal. now apply append_cancel_r in E.
Qed.

End ConflictPath.

(* ------------------------------------------------------------------ *)
(** ** A conflict whose backup fails *)

Section FailedBackup.
Context {host : Host}.

(** The backup of line 291-295 fails before the backup file is written:
    the read of the local file rejects, or the creation of the backup
    file does. *)
Definition backup_fails (p : string) (w : World) : Prop :=
  readBinary p w = thrown
  \/ exists localContent,
      readBinary p w = returned localContent
      /\ createBinary
           (conflictPathOf p (Js.replace_colon_dot (toISOString (clock w))))
           localContent w
         = thrown.

Lemma backupLocal_fails p r :
  backup_fails p (world r) -> backupLocal p r = show (BackupError p) r.
Proof.
  unfold backupLocal. intros [-> | (c & -> & ->)]; reflexivity.
Qed.

Lemma classifyUpload_conflict m ls cur :
  classifyUpload m ls cur = (skip, CONFLICT) ->
  exists m' rf,
    m = Some m' /\ cur = Some rf
    /\ Js.gt (Date_parse (modifiedTime rf)) (lastKnownRemote m) = true.
Proof.
  unfold classifyUpload. destruct m as [m'|]; [|discriminate].
  cbv zeta. destruct (negb _ || _); [|discriminate].
  destruct cur as [rf|]; cbn [andb].
  - destruct (Js.gt (Date_parse (modifiedTime rf))
                    (lastKnownRemote (Some m'))) eqn:G.
    + intros _. now exists m', rf.
    + destruct (Js.gt (Js.Num (mtime ls)) _); discriminate.
  - destruct (Js.gt (Js.Num (mtime ls)) _); discriminate.
Qed.

(** X15.  A failed backup does not stop the download.  On a conflict
    whose backup fails (the local file cannot be read, or the backup file
    cannot be created) the upload step shows the error and goes on; when
    the remote copy is the newer of the two, the download step of the
    same run then overwrites the local file with the remote bytes.  No
    other file of the vault changes, so the local edit is in no file
    afterwards. *)
Theorem failed_backup_does_not_stop_the_download
    (r : Run) (p : string) (ls : LocalStat) (rf : DriveFile)
    (c : string) (r0 : Run) (w1 : World) :
  OMap.get p (localFiles r) = Some ls ->
  OMap.get p (remoteFilesMap r) = Some rf ->
  classifyUpload (OMap.get p (fileMapOf r)) ls (Some rf) = (skip, CONFLICT) ->
  backup_fails p (world r) ->
  Js.gt (Date_parse (modifiedTime rf)) (Js.Num (mtime ls)) = true ->
  downloadGoogleDriveFile (id rf) r = (Some c, r0) ->
  writeDownloaded p download_update c (world r0) = returned w1 ->
  uploadStep p ls r
  = show (LogFile p skip CONFLICT) (show (BackupError p) r)
  /\ findFile p (vault (world (downloadStep p rf (uploadStep p ls r))))
     = Some (mkVaultFile p (clock (world r)) c)
  /\ forall q,
      q <> p ->
      findFile q (vault (world (downloadStep p rf (uploadStep p ls r))))
      = findFile q (vault (world r)).
Proof.
  intros L R C B N G W.
  assert (U : uploadStep p ls r
              = show (LogFile p skip CONFLICT) (show (BackupError p) r)).
  { unfold uploadStep. rewrite R, C. now rewrite backupLocal_fails. }
  destruct (classifyUpload_conflict _ _ _ C) as (m & rf' & M & X & K).
  inversion X; subst rf'.
  assert (D : world (downloadStep p rf (uploadStep p ls r)) = w1).
  { rewrite U. unfold downloadStep. rewrite !fileMapOf_show.
    cbn [localFiles show]. rewrite L, M.
    unfold classifyDownload. rewrite M in K. rewrite K, N.
    eapply executeDownload_written with (c := c);
      [rewrite !downloadGoogleDriveFile_show, G; reflexivity | exact W]. }
  destruct (downloadGoogleDriveFile_answer _ _ _ _ G) as (_ & T).
  destruct (downloadGoogleDriveFile_stores (id rf) r) as (V & _).
  rewrite G in V. cbn [snd] in V.
  rewrite D. split; [exact U|]. split.
  - rewrite <- T. now apply writeDownloaded_reads with (op := download_update).
  - intros q Q. rewrite <- V.
    now apply (writeDownloaded_other p download_update c (world r0) w1 q W).
Qed.

End FailedBackup.

(* ------------------------------------------------------------------ *)
(** ** The pages of a listing (lines 763-800)

    [listGoogleDriveFiles] asks for the folder page by page.  The model of
    the run above takes a listing as one request; here the loop over the
    pages is modelled, with a token and the folder id at hand. *)

Module Paged.

(** The body of one response: [{ files, nextPageToken }], either field
    possibly missing. *)
Record Page : Type := mkPage {
  files : option (list DriveFile);
  nextPageToken : option string
}.

(** The Drive server: the answer to the request for a page ([None] for
    the request without [pageToken]).  [thrown] stands for everything that
    takes the loop to the [catch]: [fetch] rejects, the response is not
    ok, or its body does not parse. *)
Definition Server : Type := option string -> outcome Page.

(** [pageToken ? `${url}&pageToken=${pageToken}` : url] *)
Definition requested (pageToken : option string) : option string :=
  if Js.truthy pageToken then pageToken else None.

(** The [do ... while (pageToken)] loop of lines 774-790; [fuel] bounds
    the number of requests, [None] is a loop that has not ended. *)
Fixpoint pages (fuel : nat) (server : Server) (pageToken : option string)
    (allFiles : list DriveFile) : option (outcome (list DriveFile)) :=
  match fuel with
  | O => None
  | S fuel' =>
      match server (requested pageToken) with
      | thrown => Some thrown
      | returned data =>
          let allFiles' :=
            match files data with
            | Some fs => allFiles ++ fs
            | None => allFiles
            end in
          if Js.truthy (nextPageToken data)
          then pages fuel' server (nextPageToken data) allFiles'
          else Some (returned allFiles')
      end
  end.

(** The [try]/[catch] of lines 763-800. *)
Definition listGoogleDriveFiles (fuel : nat) (server : Server)
  : option (list DriveFile) :=
  match pages fuel server None [] with
  | None => None
  | Some (returned allFiles) => Some allFiles
  | Some thrown => Some []
  end.

(** The files of a page. *)
Definition filesOf (data : Page) : list DriveFile :=
  match files data with Some fs => fs | None => [] end.

(** From [pageToken] on the server answers with the pages [pgs], each of
    them naming a next page; [last] is the token the last of them names. *)
Fixpoint follows (server : Server) (pageToken : option string)
    (pgs : list Page) (last : option string) : Prop :=
  match pgs with
  | [] => last = pageToken
  | pg :: rest =>
      server (requested pageToken) = returned pg
      /\ Js.truthy (nextPageToken pg) = true
      /\ follows server (nextPageToken pg) rest last
  end.

End Paged.

Section PagedListing.

Lemma concat_page (allFiles : list DriveFile) (data : Paged.Page) :
  match Paged.files data with
  | Some fs => allFiles ++ fs
  | None => allFiles
  end = allFiles ++ Paged.filesOf data.
Proof.
  unfold Paged.filesOf. destruct (Paged.files data); auto.
  now rewrite app_nil_r.
Qed.

Lemma pages_follows (server : Paged.Server) (pgs : list Paged.Page) :
  forall pageToken last allFiles fuel,
    Paged.follows server pageToken pgs last ->
    Paged.pages (List.length pgs + fuel) server pageToken allFiles
    = Paged.pages fuel server last
                  (allFiles ++ List.concat (map Paged.filesOf pgs)).
Proof.
  induction pgs as [|pg rest IH]; intros tok last acc fuel F.
  - simpl in *. subst last. now rewrite app_nil_r.
  - destruct F as (A & T & F). cbn [List.length Nat.add Paged.pages].
    rewrite A, T, concat_page. rewrite (IH _ last _ fuel F).
    cbn [map List.concat]. now rewrite app_assoc.
Qed.

(** X16.  A listing is all of the pages or nothing.  When the server
    answers a chain of pages, the listing is the files of the pages in the
    order of the requests, a page without a [files] field adding nothing;
    when one request of the chain fails, the files of the pages before it
    are dropped and the listing is empty, as if the folder were. *)
Theorem paged_listing_is_all_or_nothing
    (server : Paged.Server) (pgs : list Paged.Page) (last : option string)
    (extra : nat) :
  Paged.follows server None pgs last ->
  (forall pg,
      server (Paged.requested last) = returned pg ->
      Js.truthy (Paged.nextPageToken pg) = false ->
      Paged.listGoogleDriveFiles (List.length pgs + S extra) server
      = Some (List.concat (map Paged.filesOf (pgs ++ [pg]))))
  /\ (server (Paged.requested last) = thrown ->
      Paged.listGoogleDriveFiles (List.length pgs + S extra) server
      = Some []).
Proof.
  intros F. unfold Paged.listGoogleDriveFiles.
  rewrite (pages_follows server pgs None last [] (S extra) F).
  cbn [Paged.pages app]. split.
  - intros pg A T. rewrite A, T, concat_page, map_app, concat_app.
    cbn [map List.concat]. now rewrite app_nil_r.
  - now intros ->.
Qed.

(** X17.  The loop has no bound of its own: against a server whose every
    answer names a next page, it never ends, whatever the number of
    requests it is given. *)
Theorem listing_needs_a_last_page (server : Paged.Server) :
  (forall pageToken,
      exists pg,
        server pageToken = returned pg
        /\ Js.truthy (Paged.nextPageToken pg) = true) ->
  forall fuel, Paged.listGoogleDriveFiles fuel server = None.
Proof.
  intros H fuel. unfold Paged.listGoogleDriveFiles.
  assert (P : forall tok acc, Paged.pages fuel server tok acc = None).
  { induction fuel as [|fuel IH]; intros tok acc; [reflexivity|].
    cbn [Paged.pages].
    destruct (H (Paged.requested tok)) as (pg & -> & ->). apply IH. }
  now rewrite P.
Qed.

End PagedListing.

Section TokenProperties.
Import Auth.

(** X18.  A refresh that the server rejects signs the plugin out.  When
    the response to the refresh request is not ok (and its body can be
    read), the three token fields are cleared and the cleared settings are
    saved.  From then on no request reaches the token endpoint:
    [getValidGoogleDriveToken] answers [null] and
    [refreshGoogleDriveAccessToken] answers [false] whatever the clock and
    the server would say, and the fields stay cleared. *)
Theorem rejected_refresh_signs_out (s : State) (now : Z) :
  Js.truthy (googleDriveRefreshToken (tokens s)) = true ->
  fst (refreshGoogleDriveAccessToken (Rejected true) now s) = false
  /\ tokens (snd (refreshGoogleDriveAccessToken (Rejected true) now s))
     = mkTokens None None None
  /\ saved (snd (refreshGoogleDriveAccessToken (Rejected true) now s))
     = mkTokens None None None :: saved s
  /\ requests (snd (refreshGoogleDriveAccessToken (Rejected true) now s))
     = S (requests s)
  /\ forall (now' : Z) (reply : Reply) (later : Z),
      let s1 := snd (refreshGoogleDriveAccessToken (Rejected true) now s) in
      getValidGoogleDriveToken now' reply later s1
      = (None, notice Not_authenticated s1)
      /\ refreshGoogleDriveAccessToken reply later s1
         = (false, notice Missing_refresh_token s1).
Proof.
  intros T. unfold refreshGoogleDriveAccessToken at 1 2 3 4. rewrite T.
  cbn [negb fst snd tokens saved requests store notice request].
  repeat split; unfold refreshGoogleDriveAccessToken; rewrite T; reflexivity.
Qed.

(** X19.  What a token handed out by [getValidGoogleDriveToken] is.
    Either it is the stored access token, which is not empty and whose
    expiry is more than a minute away, and then nothing was requested and
    nothing changed; or the stored token was within a minute of its
    expiry (or past it), one refresh request was sent, the server granted
    this very token, and the new expiry, counted from the time of the
    refresh, has been saved. *)
Theorem handed_out_token_is_fresh_or_just_granted
    (now : Z) (reply : Reply) (later : Z) (s : State) (t : string) :
  fst (getValidGoogleDriveToken now reply later s) = Some t ->
  (googleDriveAccessToken (tokens s) = Some t
   /\ t <> ""
   /\ (exists e,
          googleDriveTokenExpiry (tokens s) = Some (Js.Num e)
          /\ (now < e - 60000)%Z)
   /\ snd (getValidGoogleDriveToken now reply later s) = s)
  \/ (exists refresh_token expires_in,
         reply = Granted (Some t) refresh_token expires_in
         /\ (exists e,
                googleDriveTokenExpiry (tokens s) = Some (Js.Num e)
                /\ (e - 60000 <= now)%Z)
         /\ requests (snd (getValidGoogleDriveToken now reply later s))
            = S (requests s)
         /\ googleDriveTokenExpiry
              (tokens (snd (getValidGoogleDriveToken now reply later s)))
            = Some (add (Js.Num later) (mul expires_in (Js.Num 1000)))
         /\ hd_error (saved (snd (getValidGoogleDriveToken now reply later s)))
            = Some (tokens (snd (getValidGoogleDriveToken now reply later s)))).
Proof.
  unfold getValidGoogleDriveToken.
  destruct (googleDriveAccessToken (tokens s)) as [[|a0 t0]|] eqn:A;
    cbn [Js.truthy negb orb fst]; try discriminate.
  destruct (googleDriveTokenExpiry (tokens s)) as [[|e]|] eqn:X;
    cbn [truthyNum negb fst]; try discriminate.
  destruct (Z.eqb e 0) eqn:Z0; cbn [negb fst]; try discriminate.
  cbn [sub ge]. destruct (Z.leb (e - 60 * 1000) now) eqn:G.
  - apply Z.leb_le in G. unfold refreshGoogleDriveAccessToken.
    cbn [tokens notice].
    destruct (Js.truthy (googleDriveRefreshToken (tokens s)));
      cbn [negb fst]; try discriminate.
    destruct reply as [|[|]|at' rt ex|]; cbn [negb fst snd]; try discriminate.
    cbn [tokens store notice request]. cbn [googleDriveAccessToken].
    intros ->. right. exists rt, ex.
    split; [reflexivity|]. split; [exists e; split; [reflexivity|lia]|].
    cbn. repeat split.
  - apply Z.leb_gt in G. cbn [fst snd]. intros H. inversion H; subst t.
    left. split; [reflexivity|]. split; [discriminate|].
    split; [exists e; split; [reflexivity|lia]|reflexivity].
Qed.

(** A failure of the refresh request that is not a readable rejection:
    the request does not get through, the rejection cannot be read, or
    the grant cannot be read. *)
Definition transient (reply : Reply) : Prop :=
  reply = NetworkError \/ reply = Rejected false \/ reply = Unreadable.

(** X20.  A refresh that fails without a readable rejection keeps the
    tokens: nothing is cleared and nothing is saved, so the next call
    tries again; no token is handed out unless the stored one is still
    more than a minute from its expiry. *)
Theorem transient_failure_keeps_the_tokens
    (reply : Reply) (now later : Z) (s : State) :
  transient reply ->
  fst (refreshGoogleDriveAccessToken reply later s) = false
  /\ tokens (snd (refreshGoogleDriveAccessToken reply later s)) = tokens s
  /\ saved (snd (refreshGoogleDriveAccessToken reply later s)) = saved s
  /\ tokens (snd (getValidGoogleDriveToken now reply later s)) = tokens s
  /\ saved (snd (getValidGoogleDriveToken now reply later s)) = saved s
  /\ (fst (getValidGoogleDriveToken now reply later s) = None
      \/ getValidGoogleDriveToken now reply later s
         = (googleDriveAccessToken (tokens s), s)).
Proof.
  intros T.
  assert (R : forall s0,
             fst (refreshGoogleDriveAccessToken reply later s0) = false
             /\ tokens (snd (refreshGoogleDriveAccessToken reply later s0))
                = tokens s0
             /\ saved (snd (refreshGoogleDriveAccessToken reply later s0))
                = saved s0).
  { intros s0. unfold refreshGoogleDriveAccessToken.
    destruct (negb _); [now repeat split|].
    destruct T as [-> | [-> | ->]]; now repeat split. }
  destruct (R s) as (R1 & R2 & R3).
  split; [exact R1|]. split; [exact R2|]. split; [exact R3|].
  unfold getValidGoogleDriveToken.
  destruct (negb _ || negb _); [now repeat split; left|].
  destruct (ge _ _).
  - destruct (R (notice Token_expired_refreshing s)) as (Q1 & Q2 & Q3).
    destruct (refreshGoogleDriveAccessToken reply later
                (notice Token_expired_refreshing s)) as [b s1].
    cbn [fst snd] in *. subst b. cbn [negb fst snd tokens saved notice].
    repeat split; auto.
  - repeat split; auto.
Qed.

(** X21.  The token of a grant is handed out until a minute before it
    expires.  After [exchangeAuthCodeForToken] has stored a grant with a
    non-empty access token and a lifetime of [expires_in] seconds,
    [getValidGoogleDriveToken] hands out that token, without a request
    and without a change, at any time more than a minute before the
    expiry counted from the time of the exchange. *)
Theorem granted_token_is_handed_out
    (s : State) (a : ascii) (access : string) (refresh_token : option string)
    (expires_in now : Z) (later : Z) (reply : Reply) (later' : Z) :
  (now + expires_in * 1000 <> 0)%Z ->
  (later < now + expires_in * 1000 - 60000)%Z ->
  getValidGoogleDriveToken later reply later'
    (exchangeAuthCodeForToken
       (Granted (Some (String a access)) refresh_token (Js.Num expires_in))
       now s)
  = (Some (String a access),
     exchangeAuthCodeForToken
       (Granted (Some (String a access)) refresh_token (Js.Num expires_in))
       now s).
Proof.
  intros N L. unfold getValidGoogleDriveToken, exchangeAuthCodeForToken.
  cbn [tokens notice store request googleDriveAccessToken
       googleDriveTokenExpiry Js.truthy negb orb add mul truthyNum sub ge].
  apply Z.eqb_neq in N. rewrite N. cbn [negb].
  replace (Z.leb (now + expires_in * 1000 - 60 * 1000) later) with false;
    [reflexivity|].
  symmetry. apply Z.leb_gt. lia.
Qed.

(** X22.  A grant without a lifetime is stored and announced as a
    success, and is of no use: with [expires_in] missing from the answer
    the expiry is [NaN], and [getValidGoogleDriveToken] answers [null]
    ("not authenticated") at any time, without a request. *)
Theorem grant_without_lifetime_is_unusable
    (s : State) (access_token refresh_token : option string)
    (now later : Z) (reply : Reply) (later' : Z) :
  tokens (exchangeAuthCodeForToken
            (Granted access_token refresh_token Js.NaN) now s)
  = mkTokens access_token refresh_token (Some Js.NaN)
  /\ hd_error (saved (exchangeAuthCodeForToken
                        (Granted access_token refresh_token Js.NaN) now s))
     = Some (mkTokens access_token refresh_token (Some Js.NaN))
  /\ notices (exchangeAuthCodeForToken
                (Granted access_token refresh_token Js.NaN) now s)
     = notices s ++ [Authentication_successful]
  /\ getValidGoogleDriveToken later reply later'
       (exchangeAuthCodeForToken
          (Granted access_token refresh_token Js.NaN) now s)
     = (None,
        notice Not_authenticated
          (exchangeAuthCodeForToken
             (Granted access_token refresh_token Js.NaN) now s)).
Proof.
  unfold getValidGoogleDriveToken, exchangeAuthCodeForToken.
  cbn [tokens notice store request googleDriveAccessToken
       googleDriveTokenExpiry add mul truthyNum negb saved notices].
  rewrite orb_true_r. now repeat split.
Qed.

(** X23.  The exchange erases the refresh token, the refresh keeps it.
    A grant that names no refresh token, stored by
    [exchangeAuthCodeForToken], leaves the settings without one, whatever
    they held: afterwards [getValidGoogleDriveToken] never sends a
    request (the count stays at the one request of the exchange), and
    hands out the access token or nothing.  The same grant in answer to a
    refresh leaves the stored refresh token in place. *)
Theorem exchange_erases_the_refresh_token
    (s : State) (access_token : option string) (expires_in : Js.number)
    (now later : Z) (reply : Reply) (later' : Z) :
  googleDriveRefreshToken
    (tokens (exchangeAuthCodeForToken
               (Granted access_token None expires_in) now s))
  = None
  /\ requests (snd (getValidGoogleDriveToken later reply later'
                      (exchangeAuthCodeForToken
                         (Granted access_token None expires_in) now s)))
     = S (requests s)
  /\ (fst (getValidGoogleDriveToken later reply later'
             (exchangeAuthCodeForToken
                (Granted access_token None expires_in) now s))
      = None
      \/ fst (getValidGoogleDriveToken later reply later'
                (exchangeAuthCodeForToken
                   (Granted access_token None expires_in) now s))
         = access_token)
  /\ (Js.truthy (googleDriveRefreshToken (tokens s)) = true ->
      googleDriveRefreshToken
        (tokens (snd (refreshGoogleDriveAccessToken
                        (Granted access_token None expires_in) now s)))
      = googleDriveRefreshToken (tokens s)).
Proof.
  split; [reflexivity|]. split; [|split].
  - unfold getValidGoogleDriveToken, exchangeAuthCodeForToken.
    cbn [tokens notice store request googleDriveAccessToken
         googleDriveTokenExpiry googleDriveRefreshToken].
    destruct (negb _ || negb _); [reflexivity|].
    destruct (ge _ _); reflexivity.
  - unfold getValidGoogleDriveToken, exchangeAuthCodeForToken.
    cbn [tokens notice store request googleDriveAccessToken
         googleDriveTokenExpiry googleDriveRefreshToken].
    destruct (negb _ || negb _); [now left|].
    destruct (ge _ _); [now left | now right].
  - intros T. unfold refreshGoogleDriveAccessToken. rewrite T.
    reflexivity.
Qed.

End TokenProperties.

(* ------------------------------------------------------------------ *)
(** ** The further properties at work *)

(** The Drive object the upload of the note of the mixed vault makes. *)
Definition uploadedNote : DriveFile * string :=
  (mkDriveFile "drive-0" "a.md" "text/markdown" "2024-01-01T00:00:05.000Z"
               (Some "md5:text"),
   "text").

(** The mixed vault after the upload of its note. *)
Definition afterUpload : World :=
  mkWorld (vault mixedWorld) [uploadedNote] (T0 + 5001) 1 1 [] 0.

(** Settings whose token expired at [T0]. *)
Definition staleSettings : CloudSyncSettings :=
  mkSettings "google-drive"
             (Auth.mkTokens (Some "access-1") (Some "refresh-1")
                            (Some (Js.Num T0)))
             (Some "folder") (Some agreedAtT0).

(** A token endpoint that grants a token for an hour. *)
Definition granting (n : nat) : Auth.Reply :=
  Auth.Granted (Some "access-2") None (Js.Num 3600).

(** X2 at work: the token has expired and the folder id is stored; the
    token gate refreshes the token, which saves once, and the run then
    saves at its three checkpoints. *)
Lemma gates_and_checkpoints_witness :
  let r := @syncNow (hostWith noFaults granting) staleSettings quietWorld in
  refreshes (world r) = 1
  /\ List.length (persisted (world r)) = 4
  /\ exists n,
      List.length (persisted (world r)) = 3 + 0 + n + 0
      /\ n + 0 <= refreshes (world r).
Proof.
  split; [reflexivity|]. split; [reflexivity|].
  exact (proj2 (proj2 (@gates_and_checkpoints (hostWith noFaults granting)
                         staleSettings quietWorld))
               eq_refl).
Defined.

(** X6 at work: the note of the mixed vault, once uploaded, is skipped by
    the download step. *)
Lemma uploaded_path_is_not_downloaded_witness :
  Iso.parse "" = Js.NaN
  /\ @classifyUpload (isoHost noFaults)
       (OMap.get "a.md" (fileMapOf (snapshotOf noFaults [] mixedWorld)))
       (mkLocalStat "a.md" T0)
       (OMap.get "a.md" (remoteFilesMap (snapshotOf noFaults [] mixedWorld)))
     = (upload_new, New_local_file)
  /\ @uploadCall (isoHost noFaults) "a.md" upload_new None "text"
       (snapshotOf noFaults [] mixedWorld)
     = (Some "drive-0",
        with_world afterUpload (snapshotOf noFaults [] mixedWorld))
  /\ @classifyDownload (isoHost noFaults)
       (Some (mkLocalStat "a.md" T0))
       (OMap.get "a.md"
          (fileMapOf (@uploadStep (isoHost noFaults) "a.md"
                        (mkLocalStat "a.md" T0)
                        (snapshotOf noFaults [] mixedWorld))))
       (fst uploadedNote)
     = (skip, Remote_unchanged_or_older).
Proof.
  split; [reflexivity|]. split; [reflexivity|]. split; [reflexivity|].
  refine (proj2 (@uploaded_path_is_not_downloaded (isoHost noFaults)
                   (snapshotOf noFaults [] mixedWorld) "a.md"
                   (mkLocalStat "a.md" T0) upload_new New_local_file
                   "text" "d"%char "rive-0"
                   (with_world afterUpload
                               (snapshotOf noFaults [] mixedWorld))
                   eq_refl eq_refl _ eq_refl eq_refl
                   (fst uploadedNote) (mkLocalStat "a.md" T0) eq_refl)).
  discriminate.
Defined.

(** A run state whose remote entry carries a time that is no date. *)
Definition undatedRemote : Run :=
  mkRun (settingsWith agreedAtT0)
        [("a.md", mkLocalStat "a.md" (T0 + 2000))]
        [("a.md", note "r1" "yesterday")]
        quietWorld [].

(** X7 at work: the local copy moved, the remote time reads as [NaN]. *)
Lemma unreadable_remote_time_witness :
  Iso.parse "yesterday" = Js.NaN
  /\ (exists reason,
         @uploadStep (isoHost noFaults) "a.md"
           (mkLocalStat "a.md" (T0 + 2000)) undatedRemote
         = show (LogFile "a.md" skip reason) undatedRemote)
  /\ (exists reason,
         @downloadStep (isoHost noFaults) "a.md" (note "r1" "yesterday")
           undatedRemote
         = show (LogRemoteFile "a.md" skip reason) undatedRemote).
Proof.
  split; [reflexivity|].
  destruct (@unreadable_remote_time_blocks_transfer (isoHost noFaults)
              undatedRemote "a.md"
              (mkFileSyncState "r1" (Some "2024-01-01T00:00:00.000Z") None
                               (Some T0))
              (mkLocalStat "a.md" (T0 + 2000)) (note "r1" "yesterday")
              eq_refl eq_refl eq_refl eq_refl)
    as ((reason & _ & U) & D).
  split; [now exists reason | exact D].
Defined.

(** X11 at work: the download of the remote-only note. *)
Lemma downloaded_file_witness :
  @downloadGoogleDriveFile (isoHost noFaults) "r1"
    (snapshotOf noFaults [] remoteOnlyWorld)
  = (Some "remote text", snapshotOf noFaults [] remoteOnlyWorld)
  /\ @writeDownloaded (isoHost noFaults) "a.md" download_new "remote text"
       (world (snapshotOf noFaults [] remoteOnlyWorld))
     = returned afterDownload
  /\ findFile "a.md"
       (vault (world (@downloadStep (isoHost noFaults) "a.md"
                        (note "r1" "2024-01-01T00:00:01.000Z")
                        (snapshotOf noFaults [] remoteOnlyWorld))))
     = Some (mkVaultFile "a.md" (T0 + 5000) "remote text").
Proof.
  split; [reflexivity|]. split; [reflexivity|].
  refine (proj1 (proj2
            (@downloaded_file_holds_the_remote_bytes (isoHost noFaults)
               (snapshotOf noFaults [] remoteOnlyWorld) "a.md"
               (note "r1" "2024-01-01T00:00:01.000Z") download_new
               New_remote_file "remote text"
               (snapshotOf noFaults [] remoteOnlyWorld) afterDownload
               eq_refl _ eq_refl eq_refl))).
  discriminate.
Defined.

(** X13 at work: a note in a folder. *)
Lemma conflict_path_shape_witness :
  Js.lastIndexOf "." "md" = (-1)%Z
  /\ conflictPathOf "notes/a.md" "2024-01-01T00-00-05-000Z"
     = "notes/a_local_conflict_2024-01-01T00-00-05-000Z.md".
Proof.
  split; [reflexivity|].
  exact (proj1 (conflict_path_shape "notes/a" "md"
                  "2024-01-01T00-00-05-000Z" eq_refl)).
Defined.

(** X14 at work: two notes. *)
Lemma backups_do_not_collide_witness :
  "a.md" <> "b.md"
  /\ conflictPathOf "a.md" "2024-01-01T00-00-05-000Z"
     <> conflictPathOf "b.md" "2024-01-01T00-00-05-000Z".
Proof.
  assert (N : "a.md" <> "b.md") by discriminate.
  split; [exact N|].
  exact (backups_do_not_collide "a.md" "b.md" "2024-01-01T00-00-05-000Z"
           eq_refl eq_refl N).
Defined.

(** The conflict with the newer remote copy after the download has
    overwritten the note. *)
Definition afterOverwrite : World :=
  mkWorld [mkVaultFile "a.md" (T0 + 5000) "remote edit"]
          [(note "r1" "2024-01-01T00:00:02.000Z", "remote edit")]
          (T0 + 5001) 1 0 [] 0.

(** X15 at work: the local file cannot be read for the backup. *)
Lemma failed_backup_witness :
  @backup_fails (isoHost (readFailsOn "a.md")) "a.md"
    (world (snapshotOf (readFailsOn "a.md") agreedAtT0
                       conflictWorldRemoteNewer))
  /\ option_map vdata
       (findFile "a.md"
          (vault (world (snapshotOf (readFailsOn "a.md") agreedAtT0
                                    conflictWorldRemoteNewer))))
     = Some "local edit"
  /\ vault
       (world
          (@downloadStep (isoHost (readFailsOn "a.md")) "a.md"
             (note "r1" "2024-01-01T00:00:02.000Z")
             (@uploadStep (isoHost (readFailsOn "a.md")) "a.md"
                (mkLocalStat "a.md" (T0 + 1000))
                (snapshotOf (readFailsOn "a.md") agreedAtT0
                            conflictWorldRemoteNewer))))
     = [mkVaultFile "a.md" (T0 + 5000) "remote edit"]
  /\ findFile "a.md"
       (vault
          (world
             (@downloadStep (isoHost (readFailsOn "a.md")) "a.md"
                (note "r1" "2024-01-01T00:00:02.000Z")
                (@uploadStep (isoHost (readFailsOn "a.md")) "a.md"
                   (mkLocalStat "a.md" (T0 + 1000))
                   (snapshotOf (readFailsOn "a.md") agreedAtT0
                               conflictWorldRemoteNewer)))))
     = Some (mkVaultFile "a.md" (T0 + 5000) "remote edit").
Proof.
  assert (B : @backup_fails (isoHost (readFailsOn "a.md")) "a.md"
                (world (snapshotOf (readFailsOn "a.md") agreedAtT0
                                   conflictWorldRemoteNewer)))
    by (left; reflexivity).
  split; [exact B|]. split; [reflexivity|]. split; [reflexivity|].
  exact (proj1 (proj2
           (@failed_backup_does_not_stop_the_download
              (isoHost (readFailsOn "a.md"))
              (snapshotOf (readFailsOn "a.md") agreedAtT0
                          conflictWorldRemoteNewer)
              "a.md" (mkLocalStat "a.md" (T0 + 1000))
              (note "r1" "2024-01-01T00:00:02.000Z") "remote edit"
              (snapshotOf (readFailsOn "a.md") agreedAtT0
                          conflictWorldRemoteNewer)
              afterOverwrite eq_refl eq_refl eq_refl B eq_refl eq_refl
              eq_refl))).
Defined.

(** A folder of two pages. *)
Definition twoPages : Paged.Server :=
  fun pageToken =>
    match pageToken with
    | None =>
        returned (Paged.mkPage
                    (Some [note "r1" "2024-01-01T00:00:00.000Z"])
                    (Some "page-2"))
    | Some _ =>
        returned (Paged.mkPage
                    (Some [note "r2" "2024-01-01T00:00:01.000Z"]) None)
    end.

(** The same folder when the request for the second page fails. *)
Definition secondPageFails : Paged.Server :=
  fun pageToken =>
    match pageToken with
    | None => twoPages None
    | Some _ => thrown
    end.

(** X16 at work: both pages in order, and nothing when the second request
    fails. *)
Lemma paged_listing_witness :
  Paged.listGoogleDriveFiles 2 twoPages
  = Some [note "r1" "2024-01-01T00:00:00.000Z";
          note "r2" "2024-01-01T00:00:01.000Z"]
  /\ Paged.listGoogleDriveFiles 2 secondPageFails = Some [].
Proof.
  split.
  - refine (proj1
              (paged_listing_is_all_or_nothing twoPages
                 [Paged.mkPage (Some [note "r1" "2024-01-01T00:00:00.000Z"])
                               (Some "page-2")]
                 (Some "page-2") 0 _)
              (Paged.mkPage (Some [note "r2" "2024-01-01T00:00:01.000Z"])
                            None)
              eq_refl eq_refl).
    repeat split.
  - refine (proj2
              (paged_listing_is_all_or_nothing secondPageFails
                 [Paged.mkPage (Some [note "r1" "2024-01-01T00:00:00.000Z"])
                               (Some "page-2")]
                 (Some "page-2") 0 _)
              eq_refl).
    repeat split.
Defined.

(** A server that names a next page in every answer. *)
Definition endless : Paged.Server :=
  fun _ => returned (Paged.mkPage (Some []) (Some "more")).

(** X17 at work. *)
Lemma listing_needs_a_last_page_witness :
  Paged.listGoogleDriveFiles 1000 endless = None.
Proof.
  refine (listing_needs_a_last_page endless _ 1000).
  intros pageToken. exists (Paged.mkPage (Some []) (Some "more")).
  split; reflexivity.
Defined.

(** Signed in at [T0] for an hour. *)
Definition signedIn : Auth.State :=
  Auth.mkState
    (Auth.mkTokens (Some "access-1") (Some "refresh-1")
                   (Some (Js.Num (T0 + 3600000))))
    [] 0 [].

(** X18 at work: the refresh is rejected. *)
Lemma rejected_refresh_witness :
  Js.truthy (Auth.googleDriveRefreshToken (Auth.tokens signedIn)) = true
  /\ Auth.tokens
       (snd (Auth.refreshGoogleDriveAccessToken (Auth.Rejected true)
               (T0 + 3600000) signedIn))
     = Auth.mkTokens None None None.
Proof.
  split; [reflexivity|].
  exact (proj1 (proj2 (rejected_refresh_signs_out signedIn (T0 + 3600000)
                         eq_refl))).
Defined.

(** X19 at work: half an hour after [T0] the stored token is handed
    out. *)
Lemma handed_out_token_witness :
  fst (Auth.getValidGoogleDriveToken (T0 + 1800000) Auth.NetworkError
         (T0 + 1800000) signedIn)
  = Some "access-1"
  /\ (Auth.googleDriveAccessToken (Auth.tokens signedIn) = Some "access-1"
      \/ exists refresh_token expires_in,
          Auth.NetworkError
          = Auth.Granted (Some "access-1") refresh_token expires_in).
Proof.
  split; [reflexivity|].
  destruct (handed_out_token_is_fresh_or_just_granted
              (T0 + 1800000) Auth.NetworkError (T0 + 1800000) signedIn
              "access-1" eq_refl)
    as [(A & _) | (rt & ex & G & _)].
  - left. exact A.
  - right. exists rt, ex. exact G.
Defined.

(** X20 at work: the refresh request does not get through. *)
Lemma transient_failure_witness :
  transient Auth.NetworkError
  /\ Auth.tokens
       (snd (Auth.getValidGoogleDriveToken (T0 + 3600000) Auth.NetworkError
               (T0 + 3600000) signedIn))
     = Auth.tokens signedIn
  /\ fst (Auth.getValidGoogleDriveToken (T0 + 3600000) Auth.NetworkError
            (T0 + 3600000) signedIn)
     = None.
Proof.
  assert (T : transient Auth.NetworkError) by (left; reflexivity).
  split; [exact T|].
  split; [|reflexivity].
  exact (proj1 (proj2 (proj2 (proj2
           (transient_failure_keeps_the_tokens Auth.NetworkError
              (T0 + 3600000) (T0 + 3600000) signedIn T))))).
Defined.

(** X21 at work: a grant for an hour, asked for half an hour later. *)
Lemma granted_token_witness :
  fst (Auth.getValidGoogleDriveToken (T0 + 1800000) Auth.NetworkError
         (T0 + 1800000)
         (Auth.exchangeAuthCodeForToken
            (Auth.Granted (Some "access-1") (Some "refresh-1")
                          (Js.Num 3600))
            T0 (Auth.mkState (Auth.mkTokens None None None) [] 0 [])))
  = Some "access-1".
Proof.
  refine (f_equal fst
            (granted_token_is_handed_out
               (Auth.mkState (Auth.mkTokens None None None) [] 0 [])
               "a"%char "ccess-1" (Some "refresh-1") 3600 T0
               (T0 + 1800000) Auth.NetworkError (T0 + 1800000) _ _)).
  - discriminate.
  - reflexivity.
Defined.
